(** * RainCache-ts: a shallow embedding of the cache engine and its event dispatcher

    The development follows the layering of the sources:

    - JSON-like payload values ([jval]) and plain objects ([obj]);
    - the Redis keyspace the storage engine talks to, with Redis' typed
      keys (a key holds a string or a set; a command on a key of the
      wrong kind is refused with WRONGTYPE);
    - [RedisStorageEngine] (storageEngine/RedisStorageEngine, built with
      the default option [useHash = false]);
    - [BaseCache] and the entity caches (cache/*Cache);
    - [EventProcessor] (EventProcessor.js).

    Conventions.

    - Every [async] method is a computation in the monad [M]: it reads and
      writes the [world] (Redis keyspace, the mutable fields of the cache
      instances created by the composition root, the dispatcher's presence
      buffer) and either returns a value or is rejected with an [error].
      Awaited calls run in program order; the members of a [Promise.all]
      batch run in the order in which they were created.
    - [writes] is ghost state: the list of mutating Redis commands that were
      executed, oldest first.
    - Ids handed to a cache are strings (as in the TypeScript signatures);
      a scope is [string | undefined], i.e. [option string].  A payload that
      puts something else at an id position, or an object that would
      replace a member of the instance it is bound to, is outside the model
      and is flagged with [OutOfModel].
    - Unbounded recursion is modelled with fuel; running out of fuel is
      reported as [OutOfFuel]. *)

From stdpp Require Import gmap strings list fin_maps.
From Stdlib Require Import ZArith.

Set Warnings "-register-all,-clear-no-such-hyp".
Local Open Scope string_scope.

(** ** Payload values *)

Inductive jval :=
| JUndef
| JNull
| JBool (b : bool)
| JNum (n : Z)
| JStr (s : string)
| JArr (l : list jval)
| JObj (o : gmap string jval).

Abbreviation obj := (gmap string jval).

(** JavaScript truthiness ([if (v)], [!v]). *)
Definition truthy (v : jval) : bool :=
  match v with
  | JUndef | JNull => false
  | JBool b => b
  | JNum n => negb (n =? 0)%Z
  | JStr s => negb (String.eqb s "")
  | JArr _ | JObj _ => true
  end.

(** [o.k] on a plain object: a missing property reads as [undefined]. *)
Definition field (o : obj) (k : string) : jval := default JUndef (o !! k).

(** Truthiness of a [string | undefined] argument ([if (!guildId)]). *)
Definition truthy_os (s : option string) : bool :=
  match s with
  | Some s => negb (String.eqb s "")
  | None => false
  end.

(** A template literal applied to a [string | undefined] value. *)
Definition tpl (s : option string) : string := default "undefined" s.

(** Default parameter value: used only when the argument is [undefined]. *)
Definition dflt (arg d : option string) : option string :=
  match arg with
  | Some _ => arg
  | None => d
  end.

(** Strict equality [===].  Arrays and objects compare by reference; the two
    sides always come from different parses (storage vs. event), so they are
    never the same reference. *)
Definition strict_eq (a b : jval) : bool :=
  match a, b with
  | JUndef, JUndef => true
  | JNull, JNull => true
  | JBool x, JBool y => Bool.eqb x y
  | JNum x, JNum y => (x =? y)%Z
  | JStr x, JStr y => String.eqb x y
  | _, _ => false
  end.

(** [JSON.parse (JSON.stringify v)]: a property whose value is [undefined]
    is dropped, an [undefined] array element becomes [null]. *)
Fixpoint json_roundtrip (v : jval) : jval :=
  match v with
  | JArr l =>
      JArr (map (fun x => match x with JUndef => JNull | _ => json_roundtrip x end) l)
  | JObj o =>
      JObj (omap (fun x => match x with JUndef => None | _ => Some (json_roundtrip x) end) o)
  | _ => v
  end.

Definition json_roundtrip_obj (o : obj) : obj :=
  omap (fun x => match x with JUndef => None | _ => Some (json_roundtrip x) end) o.

(** [Object.assign(target, source)]: own properties of [source] win. *)
Definition assign (target source : obj) : obj := source ∪ target.

(** ** Outcomes *)

Inductive error :=
| TypeError                (* property read on undefined/null *)
| Rejected (msg : string)  (* [throw new Error(msg)] / [Promise.reject(msg)] *)
| WrongType                (* Redis: WRONGTYPE *)
| WrongArity               (* Redis: wrong number of arguments *)
| OutOfFuel
| OutOfModel.

Inductive result (A : Type) :=
| Ok (a : A)
| Err (e : error).
Arguments Ok {A} a.
Arguments Err {A} e.

(** ** The Redis keyspace *)

Inductive rvalue :=
| RString (o : obj)            (* a JSON document written by [upsert] *)
| RSet (s : gset string).

Inductive wcmd :=
| WSet (k : string) (o : obj)
| WDel (k : string)
| WSadd (k : string) (ids : list string)
| WSrem (k : string) (id : string).

(** Mutable fields of the cache instances built once by
    [RainCache._createCaches]; they are shared by reference with every
    instance created later, and [bindGuild]/[bindChannel] write to them. *)
Record roots := {
  rg_channel : option string;
  rg_role : option string;
  rg_member : option string;
  rg_emoji : option string;
  rg_presence : option string;
  rg_channelMap : option string;
  rg_perm_guild : option string;
  rg_perm_channel : option string
}.

Record world := {
  db : gmap string rvalue;
  writes : list wcmd;
  shared : roots;
  ready : bool;
  presenceQueue : gmap string obj
}.

Definition set_db (f : gmap string rvalue → gmap string rvalue) (c : wcmd) (w : world) : world :=
  {| db := f (db w); writes := writes w ++ [c]; shared := shared w;
     ready := ready w; presenceQueue := presenceQueue w |}.

Definition set_shared (r : roots) (w : world) : world :=
  {| db := db w; writes := writes w; shared := r;
     ready := ready w; presenceQueue := presenceQueue w |}.

Definition set_ready (b : bool) (w : world) : world :=
  {| db := db w; writes := writes w; shared := shared w;
     ready := b; presenceQueue := presenceQueue w |}.

Definition set_queue (q : gmap string obj) (w : world) : world :=
  {| db := db w; writes := writes w; shared := shared w;
     ready := ready w; presenceQueue := q |}.

(** The constructors of the composition root: [MemberCache] starts with
    [boundGuild = ''], [PermissionOverwriteCache] with [boundChannel = '']. *)
Definition initial_roots : roots :=
  {| rg_channel := None; rg_role := None; rg_member := Some ""; rg_emoji := None;
     rg_presence := None; rg_channelMap := None;
     rg_perm_guild := None; rg_perm_channel := Some "" |}.

Definition initial_world : world :=
  {| db := ∅; writes := []; shared := initial_roots; ready := false; presenceQueue := ∅ |}.

(** ** The monad of asynchronous computations *)

Definition M (A : Type) : Type := world → result A * world.

Definition ret {A} (a : A) : M A := fun w => (Ok a, w).
Definition fail {A} (e : error) : M A := fun w => (Err e, w).
Definition bind {A B} (c : M A) (k : A → M B) : M B :=
  fun w => match c w with
           | (Ok a, w') => k a w'
           | (Err e, w') => (Err e, w')
           end.
Definition lift {A} (r : result A) : M A :=
  fun w => (r, w).
Definition gets {A} (f : world → A) : M A := fun w => (Ok (f w), w).
Definition modify (f : world → world) : M unit := fun w => (Ok tt, f w).

Notation "x <- c ;; k" := (bind c (fun x => k))
  (at level 100, c at next level, right associativity).
Notation "c ;;; k" := (bind c (fun _ => k))
  (at level 100, right associativity).

(** [for (let x of l) { await f(x) }] *)
Fixpoint for_each {A} (f : A → M unit) (l : list A) : M unit :=
  match l with
  | [] => ret tt
  | x :: l' => f x ;;; for_each f l'
  end.

(** [l.map(f)] where [f] awaits. *)
Fixpoint map_m {A B} (f : A → M B) (l : list A) : M (list B) :=
  match l with
  | [] => ret []
  | x :: l' => y <- f x ;; ys <- map_m f l' ;; ret (y :: ys)
  end.

(** *** Redis commands (ioredis client) *)

Module Redis.

Definition GET (k : string) : M (option obj) := fun w =>
  match db w !! k with
  | None => (Ok None, w)
  | Some (RString o) => (Ok (Some o), w)
  | Some (RSet _) => (Err WrongType, w)
  end.

(** SET overwrites whatever the key held. *)
Definition SET (k : string) (o : obj) : M unit := fun w =>
  (Ok tt, set_db (insert k (RString o)) (WSet k o) w).

Definition DEL (k : string) : M unit := fun w =>
  (Ok tt, set_db (delete k) (WDel k) w).

Definition SMEMBERS (k : string) : M (list string) := fun w =>
  match db w !! k with
  | None => (Ok [], w)
  | Some (RSet s) => (Ok (elements s), w)
  | Some (RString _) => (Err WrongType, w)
  end.

(** SADD needs at least one member; the client flattens an array argument. *)
Definition SADD (k : string) (ids : list string) : M unit := fun w =>
  match ids with
  | [] => (Err WrongArity, w)
  | _ =>
      match db w !! k with
      | None => (Ok tt, set_db (insert k (RSet (list_to_set ids))) (WSadd k ids) w)
      | Some (RSet s) =>
          (Ok tt, set_db (insert k (RSet (list_to_set ids ∪ s))) (WSadd k ids) w)
      | Some (RString _) => (Err WrongType, w)
      end
  end.

Definition SISMEMBER (k id : string) : M bool := fun w =>
  match db w !! k with
  | None => (Ok false, w)
  | Some (RSet s) => (Ok (bool_decide (id ∈ s)), w)
  | Some (RString _) => (Err WrongType, w)
  end.

(** SREM; a set that becomes empty is removed from the keyspace. *)
Definition SREM (k id : string) : M unit := fun w =>
  match db w !! k with
  | None => (Ok tt, set_db (fun d => d) (WSrem k id) w)
  | Some (RSet s) =>
      let s' := s ∖ {[id]} in
      (Ok tt, set_db (fun d => if decide (s' = ∅) then delete k d
                               else <[k := RSet s']> d) (WSrem k id) w)
  | Some (RString _) => (Err WrongType, w)
  end.

Definition SCARD (k : string) : M nat := fun w =>
  match db w !! k with
  | None => (Ok 0, w)
  | Some (RSet s) => (Ok (size s), w)
  | Some (RString _) => (Err WrongType, w)
  end.

End Redis.

(** ** RedisStorageEngine ([useHash = false]) *)

Module Storage.

(** [get]: GET, then [parseData]. *)
Definition get (id : string) : M (option obj) := Redis.GET id.

(** [upsert]: read, [data = data || {}], [Object.assign(data, updateData)],
    SET of [prepareData(data)]. *)
Definition upsert (id : string) (updateData : obj) : M unit :=
  data <- get id ;;
  let data := default ∅ data in
  Redis.SET id (json_roundtrip_obj (assign data updateData)).

Definition remove (id : string) : M unit := Redis.DEL id.

Definition getListMembers (listId : string) : M (list string) := Redis.SMEMBERS listId.
Definition addToList (listId : string) (ids : list string) : M unit := Redis.SADD listId ids.
Definition isListMember (listId id : string) : M bool := Redis.SISMEMBER listId id.
Definition removeFromList (listId id : string) : M unit := Redis.SREM listId id.
Definition removeList (listId : string) : M unit := remove listId.
Definition getListCount (listId : string) : M nat := Redis.SCARD listId.

(** [filter(fn, ids, namespace)]: candidates are [ids] or the members of
    the list [namespace]; every candidate is loaded (a miss loads [null])
    and [fn] selects. *)
Definition filter (fn : option obj → bool) (ids : option (list string)) (namespace : string)
  : M (list (option obj)) :=
  data <- match ids with
          | None => getListMembers namespace
          | Some ids => ret ids
          end ;;
  resolved <- map_m (fun id => get (namespace +:+ "." +:+ id)) data ;;
  ret (List.filter fn resolved).

(** The loop of [find]: the keys are loaded one after the other and the
    first loaded value that [fn] accepts is returned; the keys after it are
    not read.  Falling off the loop returns [undefined] ([None] here; a
    loaded [null] that [fn] accepts is [Some None]). *)
Fixpoint find_loop (fn : option obj → bool) (keys : list string)
  : M (option (option obj)) :=
  match keys with
  | [] => ret None
  | key :: keys' =>
      resolvedData <- get key ;;
      if fn resolvedData then ret (Some resolvedData) else find_loop fn keys'
  end.

(** [find(fn, ids, namespace)]; [ids] is an array or [null] here, so the
    test [typeof ids === 'string'] is false. *)
Definition find (fn : option obj → bool) (ids : option (list string)) (namespace : string)
  : M (option (option obj)) :=
  data <- match ids with
          | None => getListMembers namespace
          | Some ids => ret ids
          end ;;
  find_loop fn (map (fun id => namespace +:+ "." +:+ id) data).

(** [s.endsWith('*')] *)
Fixpoint ends_with_star (s : string) : bool :=
  match s with
  | EmptyString => false
  | String _ EmptyString => String.eqb s "*"
  | String _ s' => ends_with_star s'
  end.

Definition prepareNamespace (namespace : string) : string :=
  if ends_with_star namespace then namespace else namespace +:+ "*".

End Storage.

(** ** Reading payloads *)

(** An id position holds a string. *)
Definition as_str (v : jval) : result string :=
  match v with
  | JStr s => Ok s
  | _ => Err OutOfModel
  end.

(** A scope position holds a string or is missing. *)
Definition as_ostr (v : jval) : result (option string) :=
  match v with
  | JStr s => Ok (Some s)
  | JUndef => Ok None
  | _ => Err OutOfModel
  end.

(** The receiver of a property read: reading a property of [undefined] or
    [null] throws. *)
Definition as_obj (v : jval) : result obj :=
  match v with
  | JObj o => Ok o
  | JUndef | JNull => Err TypeError
  | _ => Err OutOfModel
  end.

(** [v && v.length > 0] followed by an iteration over [v]: the elements to
    visit. *)
Definition nonempty_array (v : jval) : result (list jval) :=
  match v with
  | JArr l => Ok l
  | _ => if truthy v then Err OutOfModel else Ok []
  end.

(** ** BaseCache *)

(** The fields of a cache instance that the methods read: the bound object
    and the bound scope ([boundChannel] exists on permission overwrite caches
    only). *)
Record cache := {
  boundObject : option obj;
  boundGuild : option string;
  boundChannel : option string
}.

(** What [get] hands back: [this.boundObject] itself on a bound instance, a
    freshly built bound instance otherwise. *)
Inductive entity :=
| Plain (o : obj)
| Inst (c : cache).

Definition entity_obj (e : entity) : option obj :=
  match e with
  | Plain o => Some o
  | Inst c => boundObject c
  end.

Module BaseCache.

(** Members of every cache instance.  [bindObject] copies the fields of the
    bound object onto the instance ([Object.assign(this, boundObject)]); an
    object that carries a field named like a member would replace it, which
    is outside the model. *)
Definition members : list string :=
  ["storageEngine"; "namespace"; "boundGuild"; "dataTimestamp"; "boundObject";
   "bindObject"; "bindGuild"; "buildId"; "addToIndex"; "removeFromIndex";
   "isIndexed"; "getIndexMembers"; "removeIndex"; "getIndexCount";
   "get"; "update"; "remove"; "filter"; "find"].

Definition plain (reserved : list string) (o : obj) : bool :=
  forallb (fun k => match o !! k with None => true | Some _ => false end) reserved.

Definition bindObject (reserved : list string) (o : obj) (self : cache) : result cache :=
  if plain reserved o
  then Ok {| boundObject := Some o; boundGuild := boundGuild self;
             boundChannel := boundChannel self |}
  else Err OutOfModel.

(** [new XCache(storageEngine, boundObject)] for a class whose constructor
    leaves [boundGuild] at [bg] and [boundChannel] at [bc]. *)
Definition construct (reserved : list string) (bg bc : option string)
    (o : option obj) : result cache :=
  let self := {| boundObject := None; boundGuild := bg; boundChannel := bc |} in
  match o with
  | Some o => bindObject reserved o self
  | None => Ok self
  end.

Definition bindGuild (guildId : option string) (self : cache) : cache :=
  {| boundObject := boundObject self; boundGuild := guildId;
     boundChannel := boundChannel self |}.

(** [`${this.namespace}.${id}`] *)
Definition buildId (namespace id : string) : string := namespace +:+ "." +:+ id.

(** The index helpers call [this.buildId(objectId)] with one argument; in a
    subclass whose [buildId] takes a second argument that argument is
    [undefined] there, so the call ends in the one above. *)
Definition indexKey (namespace : string) (self : cache) (objectId : option string) : string :=
  buildId namespace (tpl (dflt objectId (boundGuild self))).

Definition addToIndex (namespace : string) (self : cache) (id : string)
    (objectId : option string) : M unit :=
  Storage.addToList (indexKey namespace self objectId) [id].

Definition removeFromIndex (namespace : string) (self : cache) (id : string)
    (objectId : option string) : M unit :=
  Storage.removeFromList (indexKey namespace self objectId) id.

Definition isIndexed (namespace : string) (self : cache) (id : string)
    (objectId : option string) : M bool :=
  Storage.isListMember (indexKey namespace self objectId) id.

Definition getIndexMembers (namespace : string) (self : cache)
    (objectId : option string) : M (list string) :=
  Storage.getListMembers (indexKey namespace self objectId).

Definition removeIndex (namespace : string) (self : cache)
    (objectId : option string) : M unit :=
  Storage.removeList (indexKey namespace self objectId).

Definition getIndexCount (namespace : string) (self : cache)
    (objectId : option string) : M nat :=
  Storage.getListCount (indexKey namespace self objectId).

(** [buildId(id, scope)] of the scoped caches (emoji, role, member,
    permission overwrite). *)
Definition scopedId (namespace id : string) (scope : option string) : string :=
  if truthy_os scope
  then namespace +:+ "." +:+ tpl scope +:+ "." +:+ id
  else buildId namespace id.

End BaseCache.

(** The instances made by the composition root are never bound to an object;
    only their bound scope changes. *)
Definition root (bg : option string) : cache :=
  {| boundObject := None; boundGuild := bg; boundChannel := None |}.

(** ** UserCache *)

Module UserCache.

Definition namespace : string := "user".
Definition reserved : list string := BaseCache.members ++ ["bindUserId"].

(** Modelled from the spec: cache/UserCache.js is not among the sources
    (only its declaration file is).  Users live in the global namespace:
    [update] adds the id to the user index, merge-upserts the data at
    [user.<id>] and returns an instance bound to the data. *)
Definition update_unbound (id : string) (data : obj) : M cache :=
  Storage.addToList namespace [id] ;;;
  Storage.upsert (BaseCache.buildId namespace id) data ;;;
  lift (BaseCache.construct reserved None None (Some data)).

End UserCache.

(** ** EmojiCache *)

Module EmojiCache.

Definition namespace : string := "emoji".
Definition reserved : list string := BaseCache.members.

Definition construct (o : option obj) : result cache :=
  BaseCache.construct reserved None None o.

Definition buildId (emojiId : string) (guildId : option string) : string :=
  BaseCache.scopedId namespace emojiId guildId.

Definition get (self : cache) (id : string) (guildId : option string) : M (option entity) :=
  let guildId := dflt guildId (boundGuild self) in
  match boundObject self with
  | Some o => ret (Some (Plain o))
  | None =>
      emoji <- Storage.get (buildId id guildId) ;;
      match emoji with
      | Some e => c <- lift (construct (Some e)) ;; ret (Some (Inst c))
      | None => ret None
      end
  end.

(** The body of [update] below the [if (this.boundObject)] test. *)
Definition update_unbound (self : cache) (id : string) (guildId : option string)
    (data : obj) : M cache :=
  let guildId := dflt guildId (boundGuild self) in
  BaseCache.addToIndex namespace self id guildId ;;;
  Storage.upsert (buildId id guildId) data ;;;
  lift (construct (Some data)).

Fixpoint update (fuel : nat) (self : cache) (id : string) (guildId : option string)
    (data : obj) : M cache :=
  match fuel with
  | O => fail OutOfFuel
  | S fuel =>
      let guildId := dflt guildId (boundGuild self) in
      match boundObject self with
      | Some _ =>
          self' <- lift (BaseCache.bindObject reserved data self) ;;
          update fuel self' id guildId data ;;;
          ret self'
      | None => update_unbound self id guildId data
      end
  end.

Definition remove_unbound (self : cache) (id : string) (guildId : option string) : M unit :=
  let guildId := dflt guildId (boundGuild self) in
  emoji <- Storage.get (buildId id guildId) ;;
  match emoji with
  | Some _ =>
      BaseCache.removeFromIndex namespace self id guildId ;;;
      Storage.remove (buildId id guildId)
  | None => ret tt
  end.

Fixpoint remove (fuel : nat) (self : cache) (id : string) (guildId : option string) : M unit :=
  match fuel with
  | O => fail OutOfFuel
  | S fuel =>
      let guildId := dflt guildId (boundGuild self) in
      match boundObject self with
      | Some o =>
          id' <- lift (as_str (field o "id")) ;;
          remove fuel self id' guildId
      | None => remove_unbound self id guildId
      end
  end.

(** [filter]: the candidates are looked up under [super.buildId(guildId)]
    and every survivor is wrapped in a new instance (bound when the loaded
    value is an object). *)
Definition filter (self : cache) (fn : option obj → bool) (guildId : option string)
    (ids : option (list string)) : M (list cache) :=
  let guildId := dflt guildId (boundGuild self) in
  emojis <- Storage.filter fn ids (BaseCache.buildId namespace (tpl guildId)) ;;
  lift (foldr (fun e acc =>
                 match construct e, acc with
                 | Ok c, Ok cs => Ok (c :: cs)
                 | Err x, _ => Err x
                 | _, Err x => Err x
                 end) (Ok []) emojis).

(** [find]: whatever the storage engine found ([undefined] when nothing
    matched) is handed to the constructor, which binds it only when it is
    truthy. *)
Definition find (self : cache) (fn : option obj → bool) (guildId : option string)
    (ids : option (list string)) : M cache :=
  let guildId := dflt guildId (boundGuild self) in
  emoji <- Storage.find fn ids (BaseCache.buildId namespace (tpl guildId)) ;;
  lift (construct (match emoji with
                   | Some e => e
                   | None => None
                   end)).

Definition isIndexed (self : cache) (id : string) (guildId : option string) : M bool :=
  BaseCache.isIndexed namespace self id guildId.
Definition getIndexMembers (self : cache) (guildId : option string) : M (list string) :=
  BaseCache.getIndexMembers namespace self guildId.
Definition getIndexCount (self : cache) (guildId : option string) : M nat :=
  BaseCache.getIndexCount namespace self guildId.

End EmojiCache.

(** ** RoleCache *)

Module RoleCache.

Definition namespace : string := "role".
Definition reserved : list string := BaseCache.members.

Definition construct (o : option obj) : result cache :=
  BaseCache.construct reserved None None o.

Definition buildId (roleId : string) (guildId : option string) : string :=
  BaseCache.scopedId namespace roleId guildId.

Definition get (self : cache) (id : string) (guildId : option string) : M (option entity) :=
  match boundObject self with
  | Some o => ret (Some (Plain o))
  | None =>
      role <- Storage.get (buildId id guildId) ;;
      match role with
      | None => ret None
      | Some r => c <- lift (construct (Some r)) ;; ret (Some (Inst c))
      end
  end.

(** The fields [update] fills in when they are missing or falsy. *)
Definition fill (id guildId : string) (data : obj) : obj :=
  let data := if truthy (field data "guild_id") then data
              else <["guild_id" := JStr guildId]> data in
  if truthy (field data "id") then data else <["id" := JStr id]> data.

Definition update_unbound (self : cache) (id : string) (guildId : option string)
    (data : obj) : M cache :=
  if negb (truthy_os guildId) then fail (Rejected "Missing guild id")
  else
    let data := fill id (tpl guildId) data in
    BaseCache.addToIndex namespace self id guildId ;;;
    Storage.upsert (buildId id guildId) data ;;;
    lift (construct (Some data)).

(** On a bound instance the call is repeated with
    [this.boundObject.id] and [this.bindObject.guild_id]; the latter reads a
    property of the method [bindObject] and is [undefined]. *)
Fixpoint update (fuel : nat) (self : cache) (id : string) (guildId : option string)
    (data : obj) : M cache :=
  match fuel with
  | O => fail OutOfFuel
  | S fuel =>
      match boundObject self with
      | Some _ =>
          self' <- lift (BaseCache.bindObject reserved data self) ;;
          id' <- lift (as_str (field data "id")) ;;
          update fuel self' id' None data ;;;
          ret self'
      | None => update_unbound self id guildId data
      end
  end.

Definition remove_unbound (self : cache) (id : string) (guildId : option string) : M unit :=
  role <- Storage.get (buildId id guildId) ;;
  match role with
  | Some _ =>
      BaseCache.removeFromIndex namespace self id guildId ;;;
      Storage.remove (buildId id guildId)
  | None => ret tt
  end.

Fixpoint remove (fuel : nat) (self : cache) (id : string) (guildId : option string) : M unit :=
  match fuel with
  | O => fail OutOfFuel
  | S fuel =>
      match boundObject self with
      | Some o =>
          id' <- lift (as_str (field o "id")) ;;
          g' <- lift (as_ostr (field o "guild_id")) ;;
          remove fuel self id' g'
      | None => remove_unbound self id guildId
      end
  end.

Definition isIndexed (self : cache) (id : string) (guildId : option string) : M bool :=
  BaseCache.isIndexed namespace self id guildId.
Definition getIndexMembers (self : cache) (guildId : option string) : M (list string) :=
  BaseCache.getIndexMembers namespace self guildId.

End RoleCache.

(** ** MemberCache *)

Module MemberCache.

Definition namespace : string := "member".
Definition reserved : list string := BaseCache.members ++ ["user"].

(** The constructor sets [boundGuild = ''] before binding. *)
Definition construct (o : option obj) : result cache :=
  BaseCache.construct reserved (Some "") None o.

Definition buildId (userId : string) (guildId : option string) : string :=
  BaseCache.scopedId namespace userId guildId.

Definition get (self : cache) (id : string) (guildId : option string) : M (option entity) :=
  let guildId := dflt guildId (boundGuild self) in
  match boundObject self with
  | Some o => ret (Some (Plain o))
  | None =>
      member <- Storage.get (buildId id guildId) ;;
      match member with
      | None => ret None
      | Some m => c <- lift (construct (Some m)) ;; ret (Some (Inst c))
      end
  end.

Definition fill (id guildId : string) (data : obj) : obj :=
  let data := if truthy (field data "guild_id") then data
              else <["guild_id" := JStr guildId]> data in
  if truthy (field data "id") then data else <["id" := JStr id]> data.

(** [if (data.user) { await this.user.update(data.user.id, data.user);
    delete data.user; }] *)
Definition extract_user (data : obj) : M obj :=
  match field data "user" with
  | JObj u =>
      uid <- lift (as_str (field u "id")) ;;
      UserCache.update_unbound uid u ;;;
      ret (delete "user" data)
  | v => if truthy v then fail OutOfModel else ret data
  end.

Definition update_unbound (self : cache) (id : string) (guildId : option string)
    (data : obj) : M cache :=
  let guildId := dflt guildId (boundGuild self) in
  if negb (truthy_os guildId) then fail (Rejected ("Empty guild id for member " +:+ id))
  else
    let data := fill id (tpl guildId) data in
    data <- extract_user data ;;
    BaseCache.addToIndex namespace self id guildId ;;;
    Storage.upsert (buildId id guildId) data ;;;
    lift (construct (Some data)).

Fixpoint update (fuel : nat) (self : cache) (id : string) (guildId : option string)
    (data : obj) : M cache :=
  match fuel with
  | O => fail OutOfFuel
  | S fuel =>
      let guildId := dflt guildId (boundGuild self) in
      match boundObject self with
      | Some _ =>
          self' <- lift (BaseCache.bindObject reserved data self) ;;
          id' <- lift (as_str (field data "id")) ;;
          g' <- lift (as_ostr (field data "guild_id")) ;;
          update fuel self' id' g' data ;;;
          ret self'
      | None => update_unbound self id guildId data
      end
  end.

Definition remove_unbound (self : cache) (id : string) (guildId : option string) : M unit :=
  let guildId := dflt guildId (boundGuild self) in
  member <- Storage.get (buildId id guildId) ;;
  match member with
  | Some _ =>
      BaseCache.removeFromIndex namespace self id guildId ;;;
      Storage.remove (buildId id guildId)
  | None => ret tt
  end.

Fixpoint remove (fuel : nat) (self : cache) (id : string) (guildId : option string) : M unit :=
  match fuel with
  | O => fail OutOfFuel
  | S fuel =>
      let guildId := dflt guildId (boundGuild self) in
      match boundObject self with
      | Some o =>
          id' <- lift (as_str (field o "id")) ;;
          g' <- lift (as_ostr (field o "guild_id")) ;;
          remove fuel self id' g'
      | None => remove_unbound self id guildId
      end
  end.

Definition isIndexed (self : cache) (id : string) (guildId : option string) : M bool :=
  BaseCache.isIndexed namespace self id guildId.
Definition getIndexMembers (self : cache) (guildId : option string) : M (list string) :=
  BaseCache.getIndexMembers namespace self guildId.

End MemberCache.

(** ** PermissionOverwriteCache *)

Module PermissionOverwriteCache.

Definition namespace : string := "permissionoverwrite".
Definition reserved : list string := BaseCache.members ++ ["boundChannel"; "bindChannel"].

(** The constructor sets [boundChannel = '']. *)
Definition construct (o : option obj) : result cache :=
  BaseCache.construct reserved None (Some "") o.

Definition buildId (permissionId : string) (channelId : option string) : string :=
  BaseCache.scopedId namespace permissionId channelId.

Definition bindChannel (channelId : option string) (self : cache) : cache :=
  {| boundObject := boundObject self; boundGuild := channelId; boundChannel := channelId |}.

Definition get (self : cache) (id : string) (channelId : option string) : M (option entity) :=
  let channelId := dflt channelId (boundChannel self) in
  match boundObject self with
  | Some o => ret (Some (Plain o))
  | None =>
      permissionOverwrite <- Storage.get (buildId id channelId) ;;
      match permissionOverwrite with
      | Some p => c <- lift (construct (Some p)) ;; ret (Some (Inst c))
      | None => ret None
      end
  end.

Definition update_unbound (self : cache) (id : string) (channelId : option string)
    (data : obj) : M cache :=
  let channelId := dflt channelId (boundChannel self) in
  BaseCache.addToIndex namespace self id channelId ;;;
  Storage.upsert (buildId id channelId) data ;;;
  lift (construct (Some data)).

Fixpoint update (fuel : nat) (self : cache) (id : string) (channelId : option string)
    (data : obj) : M cache :=
  match fuel with
  | O => fail OutOfFuel
  | S fuel =>
      let channelId := dflt channelId (boundChannel self) in
      match boundObject self with
      | Some _ =>
          self' <- lift (BaseCache.bindObject reserved data self) ;;
          update fuel self' id channelId data ;;;
          ret self'
      | None => update_unbound self id channelId data
      end
  end.

Definition remove_unbound (self : cache) (id : string) (channelId : option string) : M unit :=
  let channelId := dflt channelId (boundChannel self) in
  permissionOverwrite <- Storage.get (buildId id channelId) ;;
  match permissionOverwrite with
  | Some _ =>
      BaseCache.removeFromIndex namespace self id channelId ;;;
      Storage.remove (buildId id channelId)
  | None => ret tt
  end.

Fixpoint remove (fuel : nat) (self : cache) (id : string) (channelId : option string) : M unit :=
  match fuel with
  | O => fail OutOfFuel
  | S fuel =>
      let channelId := dflt channelId (boundChannel self) in
      match boundObject self with
      | Some o =>
          id' <- lift (as_str (field o "id")) ;;
          remove fuel self id' channelId
      | None => remove_unbound self id channelId
      end
  end.

Definition isIndexed (self : cache) (id : string) (channelId : option string) : M bool :=
  BaseCache.isIndexed namespace self id channelId.
Definition getIndexMembers (self : cache) (channelId : option string) : M (list string) :=
  BaseCache.getIndexMembers namespace self channelId.

End PermissionOverwriteCache.

(** ** PresenceCache *)

Module PresenceCache.

Definition namespace : string := "presence".
Definition reserved : list string := BaseCache.members ++ ["users"].

(** Modelled from the spec: cache/PresenceCache.js is not among the sources
    (only its declaration file is).  A presence is keyed by user id in the
    global scope; [update] removes [guild_id], [roles] and [user] from the
    data, adds the id to the presence index and merge-upserts what is left
    at [presence.<id>]. *)
Definition strip (data : obj) : obj :=
  delete "user" (delete "roles" (delete "guild_id" data)).

(** Modelled from the spec: the unbound [update] of the absent
    cache/PresenceCache.js, with the steps every entity cache takes: strip,
    add the id to the index, merge-upsert, return an instance bound to the
    data. *)
Definition update_unbound (id : string) (data : obj) : M cache :=
  let data := strip data in
  Storage.addToList namespace [id] ;;;
  Storage.upsert (BaseCache.buildId namespace id) data ;;;
  lift (BaseCache.construct reserved None None (Some data)).

End PresenceCache.

(** ** Access to the shared root instances *)

Definition root_channel (w : world) : cache := root (rg_channel (shared w)).
Definition root_role (w : world) : cache := root (rg_role (shared w)).
Definition root_member (w : world) : cache := root (rg_member (shared w)).
Definition root_emoji (w : world) : cache := root (rg_emoji (shared w)).
Definition root_channelMap (w : world) : cache := root (rg_channelMap (shared w)).
Definition root_perm (w : world) : cache :=
  {| boundObject := None; boundGuild := rg_perm_guild (shared w);
     boundChannel := rg_perm_channel (shared w) |}.

(** [this.permissionOverwrites.bindChannel(channelId)] *)
Definition bind_perm_channel (c : option string) (w : world) : world :=
  set_shared {| rg_channel := rg_channel (shared w); rg_role := rg_role (shared w);
                rg_member := rg_member (shared w); rg_emoji := rg_emoji (shared w);
                rg_presence := rg_presence (shared w);
                rg_channelMap := rg_channelMap (shared w);
                rg_perm_guild := c; rg_perm_channel := c |} w.

(** [bindGuild(guildId)] on the channel, role, member, emoji, presence and
    channel map caches a guild cache holds. *)
Definition bind_guilds (g : option string) (w : world) : world :=
  set_shared {| rg_channel := g; rg_role := g; rg_member := g; rg_emoji := g;
                rg_presence := g; rg_channelMap := g;
                rg_perm_guild := rg_perm_guild (shared w);
                rg_perm_channel := rg_perm_channel (shared w) |} w.

(** A list of ids read back from a JavaScript array. *)
Fixpoint strs_of (l : list jval) : result (list string) :=
  match l with
  | [] => Ok []
  | v :: l' =>
      match as_str v, strs_of l' with
      | Ok s, Ok ss => Ok (s :: ss)
      | Err e, _ => Err e
      | _, Err e => Err e
      end
  end.

(** ** ChannelMapCache *)

Module ChannelMapCache.

Definition namespace : string := "channelmap".
Definition reserved : list string :=
  BaseCache.members ++ ["_removeOldChannels"; "_checkDupes"; "_buildMapId"; "_buildMap"].

Definition construct (o : option obj) : result cache :=
  BaseCache.construct reserved None None o.

Definition _buildMapId (id type : string) : string := type +:+ "." +:+ id.

Definition _buildMap (id : string) (channels : list string) (type : string) : obj :=
  <["id" := JStr id]> (<["channels" := JArr (JStr <$> channels)]> (<["type" := JStr type]> ∅)).

Definition mapKey (id type : string) : string :=
  BaseCache.buildId namespace (_buildMapId id type).

(** [if (l.indexOf(x) > -1) l.splice(l.indexOf(x), 1)] *)
Fixpoint remove_first (x : string) (l : list string) : list string :=
  match l with
  | [] => []
  | y :: l' => if String.eqb x y then l' else y :: remove_first x l'
  end.

Definition _removeOldChannels (oldChannels removeChannels : list string) : list string :=
  fold_left (fun old removeId => remove_first removeId old) removeChannels oldChannels.

Definition _checkDupes (oldIds newIds : list string) : list string :=
  oldIds ++ fold_left (fun new oldId => remove_first oldId new) oldIds newIds.

(** [e.channels] for what [get] returned. *)
Definition channels_of (e : option entity) : result (list string) :=
  match e with
  | None => Err TypeError
  | Some e =>
      match entity_obj e with
      | Some o =>
          match field o "channels" with
          | JArr l => strs_of l
          | _ => Err OutOfModel
          end
      | None => Err OutOfModel
      end
  end.

(** SMEMBERS answers with an array, and an array is truthy: the [null]
    branch of the source is never taken. *)
Definition get (self : cache) (id type : string) : M (option entity) :=
  match boundObject self with
  | Some o => ret (Some (Plain o))
  | None =>
      channelMap <- Storage.getListMembers (mapKey id type) ;;
      c <- lift (construct (Some (_buildMap id channelMap type))) ;;
      ret (Some (Inst c))
  end.

Definition remove_unbound (self : cache) (id type : string) : M unit :=
  channelMap <- Storage.getListMembers (mapKey id type) ;;
  Storage.remove (mapKey id type).

(** On a bound instance [remove] deletes the key named by the bare id. *)
Definition remove (self : cache) (id type : string) : M unit :=
  match boundObject self with
  | Some o => k <- lift (as_str (field o "id")) ;; Storage.remove k
  | None => remove_unbound self id type
  end.

Definition update_unbound (self : cache) (id : string) (data : list string)
    (type : string) (remove : bool) : M cache :=
  oldCacheData <- get self id type ;;
  data <- match oldCacheData, remove with
          | Some _, false =>
              old <- lift (channels_of oldCacheData) ;; ret (_checkDupes old data)
          | _, _ => ret data
          end ;;
  data <- (if remove
           then old <- match oldCacheData with
                       | Some _ => lift (channels_of oldCacheData)
                       | None => ret []
                       end ;;
                ret (_removeOldChannels old data)
           else ret data) ;;
  remove_unbound self id type ;;;
  Storage.addToList (mapKey id type) data ;;;
  lift (construct (Some (_buildMap id data type))).

Fixpoint update (fuel : nat) (self : cache) (id : string) (data : list string)
    (type : string) (remove : bool) : M cache :=
  match fuel with
  | O => fail OutOfFuel
  | S fuel =>
      match boundObject self with
      | Some _ =>
          self' <- lift (BaseCache.bindObject reserved (_buildMap id data type) self) ;;
          update fuel self' id data type false ;;;
          ret self'
      | None => update_unbound self id data type remove
      end
  end.

Definition isIndexed (self : cache) (id : string) (objectId : option string) : M bool :=
  BaseCache.isIndexed namespace self id objectId.

End ChannelMapCache.

(** ** ChannelCache *)

Module ChannelCache.

Definition namespace : string := "channel".
Definition reserved : list string :=
  BaseCache.members ++ ["channelMap"; "permissionOverwrites"; "recipients"].

Definition construct (o : option obj) : result cache :=
  BaseCache.construct reserved None None o.

Definition buildId (id : string) : string := BaseCache.buildId namespace id.

(** The channel index is the single list named by the namespace. *)
Definition addToIndex (id : string) : M unit := Storage.addToList namespace [id].
Definition removeFromIndex (id : string) : M unit := Storage.removeFromList namespace id.
Definition isIndexed (id : string) : M bool := Storage.isListMember namespace id.
Definition getIndexMembers : M (list string) := Storage.getListMembers namespace.

(** [new ChannelCache(.., this.permissionOverwrites.bindChannel(channel.id), .., channel)] *)
Definition wrap (channel : option obj) : M cache :=
  ch <- lift (match channel with Some c => Ok c | None => Err TypeError end) ;;
  cid <- lift (as_ostr (field ch "id")) ;;
  modify (bind_perm_channel cid) ;;;
  lift (construct (Some ch)).

Definition get (self : cache) (id : string) : M (option entity) :=
  match boundObject self with
  | Some o => ret (Some (Plain o))
  | None =>
      channel <- Storage.get (buildId id) ;;
      match channel with
      | Some _ => c <- wrap channel ;; ret (Some (Inst c))
      | None => ret None
      end
  end.

(** [data.recipients[0]] *)
Definition first_recipient (v : jval) : result jval :=
  match v with
  | JArr [] => Ok JUndef
  | JArr (x :: _) => Ok x
  | _ => Err OutOfModel
  end.

Definition map_owner (data : obj) : M unit :=
  if truthy (field data "guild_id") then
    gid <- lift (as_str (field data "guild_id")) ;;
    cid <- lift (as_str (field data "id")) ;;
    cm <- gets root_channelMap ;;
    ChannelMapCache.update_unbound cm gid [cid] "guild" false ;;; ret tt
  else if truthy (field data "recipients") then
    r0 <- lift (first_recipient (field data "recipients")) ;;
    if truthy r0 then
      r <- lift (as_obj r0) ;;
      rid <- lift (as_str (field r "id")) ;;
      cid <- lift (as_str (field data "id")) ;;
      cm <- gets root_channelMap ;;
      ChannelMapCache.update_unbound cm rid [cid] "user" false ;;; ret tt
    else ret tt
  else ret tt.

Definition store_overwrites (id : string) (data : obj) : M unit :=
  if truthy (field data "permission_overwrites") then
    l <- lift (match field data "permission_overwrites" with
               | JArr l => Ok l
               | _ => Err OutOfModel
               end) ;;
    for_each (fun overwrite =>
                o <- lift (as_obj overwrite) ;;
                oid <- lift (as_str (field o "id")) ;;
                po <- gets root_perm ;;
                PermissionOverwriteCache.update_unbound po oid (Some id) o ;;; ret tt) l
  else ret tt.

Definition strip (data : obj) : obj :=
  delete "recipients" (delete "permission_overwrites" data).

Definition update_unbound (self : cache) (id : string) (data : obj) : M cache :=
  map_owner data ;;;
  store_overwrites id data ;;;
  let data := strip data in
  addToIndex id ;;;
  Storage.upsert (buildId id) data ;;;
  channel <- Storage.get (buildId id) ;;
  wrap channel.

Fixpoint update (fuel : nat) (self : cache) (id : string) (data : obj) : M cache :=
  match fuel with
  | O => fail OutOfFuel
  | S fuel =>
      match boundObject self with
      | Some _ =>
          self' <- lift (BaseCache.bindObject reserved data self) ;;
          id' <- lift (as_str (field data "id")) ;;
          update fuel self' id' data ;;;
          ret self'
      | None => update_unbound self id data
      end
  end.

Definition remove_unbound (self : cache) (id : string) : M unit :=
  channel <- Storage.get (buildId id) ;;
  match channel with
  | Some _ => removeFromIndex id ;;; Storage.remove (buildId id)
  | None => ret tt
  end.

Fixpoint remove (fuel : nat) (self : cache) (id : string) : M unit :=
  match fuel with
  | O => fail OutOfFuel
  | S fuel =>
      match boundObject self with
      | Some o => id' <- lift (as_str (field o "id")) ;; remove fuel self id'
      | None => remove_unbound self id
      end
  end.

(** [find]: what the storage engine found ([undefined] when nothing
    matched) is read for its [id] before the new instance is built. *)
Definition find (self : cache) (fn : option obj → bool) (channelMap : option (list string))
  : M cache :=
  channel <- Storage.find fn channelMap namespace ;;
  wrap (match channel with Some c => c | None => None end).

End ChannelCache.

(** ** GuildCache *)

Module GuildCache.

Definition namespace : string := "guild".
Definition reserved : list string :=
  BaseCache.members ++
  ["channels"; "roles"; "members"; "emojis"; "presences"; "guildChannelMap"].

Definition construct (o : option obj) : result cache :=
  BaseCache.construct reserved None None o.

Definition buildId (id : string) : string := BaseCache.buildId namespace id.

(** The guild index is the single list named by the namespace. *)
Definition addToIndex (id : string) : M unit := Storage.addToList namespace [id].
Definition removeFromIndex (id : string) : M unit := Storage.removeFromList namespace id.
Definition isIndexed (id : string) : M bool := Storage.isListMember namespace id.
Definition getIndexMembers : M (list string) := Storage.getListMembers namespace.

(** [new GuildCache(.., this.channels.bindGuild(guild.id), .., guild)] *)
Definition wrap (guild : option obj) : M cache :=
  g <- lift (match guild with Some g => Ok g | None => Err TypeError end) ;;
  gid <- lift (as_ostr (field g "id")) ;;
  modify (bind_guilds gid) ;;;
  lift (construct (Some g)).

Definition get (self : cache) (id : string) : M (option entity) :=
  match boundObject self with
  | Some o => ret (Some (Plain o))
  | None =>
      guild <- Storage.get (buildId id) ;;
      match guild with
      | Some _ => c <- wrap guild ;; ret (Some (Inst c))
      | None => ret None
      end
  end.

(** [c.id] for every element of an array of payload objects. *)
Fixpoint ids_of (l : list jval) : result (list string) :=
  match l with
  | [] => Ok []
  | v :: l' =>
      match as_obj v with
      | Ok o =>
          match as_str (field o "id"), ids_of l' with
          | Ok s, Ok ss => Ok (s :: ss)
          | Err e, _ => Err e
          | _, Err e => Err e
          end
      | Err e => Err e
      end
  end.

Definition fan_out_channels (id : string) (data : obj) : M unit :=
  channels <- lift (nonempty_array (field data "channels")) ;;
  match channels with
  | [] => ret tt
  | _ =>
      ids <- lift (ids_of channels) ;;
      cm <- gets root_channelMap ;;
      ChannelMapCache.update_unbound cm id ids "guild" false ;;;
      for_each (fun channel =>
                  c <- lift (as_obj channel) ;;
                  let c := <["guild_id" := JStr id]> c in
                  cid <- lift (as_str (field c "id")) ;;
                  ch <- gets root_channel ;;
                  ChannelCache.update_unbound ch cid c ;;; ret tt) channels
  end.

Definition fan_out_members (id : string) (data : obj) : M unit :=
  members <- lift (nonempty_array (field data "members")) ;;
  for_each (fun member =>
              m <- lift (as_obj member) ;;
              let m := <["guild_id" := JStr id]> m in
              u <- lift (as_obj (field m "user")) ;;
              uid <- lift (as_str (field u "id")) ;;
              mc <- gets root_member ;;
              MemberCache.update_unbound mc uid (Some id) m ;;; ret tt) members.

Definition fan_out_presences (data : obj) : M unit :=
  presences <- lift (nonempty_array (field data "presences")) ;;
  for_each (fun presence =>
              p <- lift (as_obj presence) ;;
              u <- lift (as_obj (field p "user")) ;;
              uid <- lift (as_str (field u "id")) ;;
              PresenceCache.update_unbound uid p ;;; ret tt) presences.

Definition fan_out_roles (id : string) (data : obj) : M unit :=
  roles <- lift (nonempty_array (field data "roles")) ;;
  for_each (fun role =>
              r <- lift (as_obj role) ;;
              rid <- lift (as_str (field r "id")) ;;
              rc <- gets root_role ;;
              RoleCache.update_unbound rc rid (Some id) r ;;; ret tt) roles.

Definition fan_out_emojis (id : string) (data : obj) : M unit :=
  emojis <- lift (nonempty_array (field data "emojis")) ;;
  for_each (fun emoji =>
              e <- lift (as_obj emoji) ;;
              eid <- lift (as_str (field e "id")) ;;
              ec <- gets root_emoji ;;
              EmojiCache.update_unbound ec eid (Some id) e ;;; ret tt) emojis.

Definition strip (data : obj) : obj :=
  delete "channels" (delete "features" (delete "emojis" (delete "presences"
    (delete "roles" (delete "voice_states" (delete "members" data)))))).

Definition update_unbound (self : cache) (id : string) (data : obj) : M cache :=
  fan_out_channels id data ;;;
  fan_out_members id data ;;;
  fan_out_presences data ;;;
  fan_out_roles id data ;;;
  fan_out_emojis id data ;;;
  let data := strip data in
  addToIndex id ;;;
  Storage.upsert (buildId id) data ;;;
  guild <- Storage.get (buildId id) ;;
  wrap guild.

Fixpoint update (fuel : nat) (self : cache) (id : string) (data : obj) : M cache :=
  match fuel with
  | O => fail OutOfFuel
  | S fuel =>
      match boundObject self with
      | Some _ =>
          self' <- lift (BaseCache.bindObject reserved data self) ;;
          id' <- lift (as_str (field data "id")) ;;
          update fuel self' id' data ;;;
          ret self'
      | None => update_unbound self id data
      end
  end.

(** The cascade of [remove], below the bound test. *)
Definition remove_unbound (self : cache) (id : string) : M unit :=
  guild <- Storage.get (buildId id) ;;
  match guild with
  | Some _ =>
      cm <- gets root_channelMap ;;
      channelMap <- ChannelMapCache.get cm id "guild" ;;
      rc <- gets root_role ;;
      roles <- RoleCache.getIndexMembers rc (Some id) ;;
      ec <- gets root_emoji ;;
      emojis <- EmojiCache.getIndexMembers ec (Some id) ;;
      mc <- gets root_member ;;
      members <- MemberCache.getIndexMembers mc (Some id) ;;
      for_each (fun emoji => ec <- gets root_emoji ;;
                             EmojiCache.remove_unbound ec emoji (Some id)) emojis ;;;
      for_each (fun role => rc <- gets root_role ;;
                            RoleCache.remove_unbound rc role (Some id)) roles ;;;
      channels <- lift (ChannelMapCache.channels_of channelMap) ;;
      for_each (fun channel => ch <- gets root_channel ;;
                               ChannelCache.remove_unbound ch channel) channels ;;;
      for_each (fun member => mc <- gets root_member ;;
                              MemberCache.remove_unbound mc member (Some id)) members ;;;
      cm <- gets root_channelMap ;;
      ChannelMapCache.remove cm id "guild" ;;;
      removeFromIndex id ;;;
      Storage.remove (buildId id)
  | None => ret tt
  end.

Fixpoint remove (fuel : nat) (self : cache) (id : string) : M unit :=
  match fuel with
  | O => fail OutOfFuel
  | S fuel =>
      match boundObject self with
      | Some o => id' <- lift (as_str (field o "id")) ;; remove fuel self id'
      | None => remove_unbound self id
      end
  end.

(** [find] looks through the guild index; the value found is read for its
    [id] before the new instance is built. *)
Definition find (self : cache) (fn : option obj → bool) : M cache :=
  guild <- Storage.find fn None namespace ;;
  wrap (match guild with Some g => g | None => None end).

End GuildCache.

(** ** EventProcessor *)

Record event := { t : string; d : jval }.

(** Options of the dispatcher that its methods read (the flush timer is
    not part of the model; [flushQueue] is what each tick runs). *)
Record options := { disabledEvents : obj }.

Module EventProcessor.

(** Names every plain JavaScript object inherits from [Object.prototype]:
    a lookup [o[name]] finds them even when [o] has no such own property. *)
Definition inherited : list string :=
  ["constructor"; "__proto__"; "hasOwnProperty"; "isPrototypeOf";
   "propertyIsEnumerable"; "toLocaleString"; "toString"; "valueOf";
   "__defineGetter__"; "__defineSetter__"; "__lookupGetter__"; "__lookupSetter__"].

Definition is_inherited (k : string) : bool := existsb (String.eqb k) inherited.

(** [this.options.disabledEvents[event.t]] as a condition. *)
Definition disabled (opts : options) (tag : string) : bool :=
  match disabledEvents opts !! tag with
  | Some v => truthy v
  | None => is_inherited tag
  end.

(** The object literal built from a presence event. *)
Definition presence_entry (presenceEvent user : obj) (uid : string) : obj :=
  <["status" := field presenceEvent "status"]>
    (<["game" := field presenceEvent "game"]>
       (<["id" := JStr uid]> (<["user" := JObj user]> ∅))).

Definition handlePresenceUpdate (presenceEvent : jval) : M unit :=
  pe <- lift (as_obj presenceEvent) ;;
  let pe := if truthy (field pe "roles") then delete "roles" pe else pe in
  let pe := if truthy (field pe "guild_id") then delete "guild_id" pe else pe in
  user <- lift (as_obj (field pe "user")) ;;
  uid <- lift (as_str (field user "id")) ;;
  if is_inherited uid then fail OutOfModel
  else
    queue <- gets presenceQueue ;;
    match queue !! uid with
    | Some pending =>
        modify (set_queue (<[uid := assign pending (presence_entry pe user uid)]> queue))
    | None =>
        modify (set_queue (<[uid := presence_entry pe user uid]> queue))
    end.

(** The updates one flush issues ([presenceUpdatePromises]). *)
Definition flush_batch (queue : gmap string obj) : list (string * obj) :=
  map_to_list queue.

Definition flushQueue : M unit :=
  queue <- gets presenceQueue ;;
  modify (set_queue ∅) ;;;
  for_each (fun kv => PresenceCache.update_unbound (fst kv) (snd kv) ;;; ret tt)
           (flush_batch queue).

Definition user_update (id : string) (data : obj) : M unit :=
  UserCache.update_unbound id data ;;; ret tt.

Definition guild_update (id : string) (data : obj) : M unit :=
  self <- gets (fun _ => root None) ;;
  GuildCache.update_unbound self id data ;;; ret tt.

Definition processReady (readyEvent : event) : M unit :=
  d <- lift (as_obj (d readyEvent)) ;;
  user <- lift (as_obj (field d "user")) ;;
  user_update "self" (<["id" := field user "id"]> ∅) ;;;
  uid <- lift (as_str (field user "id")) ;;
  user_update uid user ;;;
  guilds <- lift (match field d "guilds" with
                  | JArr l => Ok l
                  | JUndef | JNull => Err TypeError
                  | _ => Err OutOfModel
                  end) ;;
  for_each (fun guild =>
              g <- lift (as_obj guild) ;;
              gid <- lift (as_str (field g "id")) ;;
              guild_update gid g) guilds.

Definition channel_update (id : string) (data : obj) : M unit :=
  ch <- gets root_channel ;;
  ChannelCache.update_unbound ch id data ;;; ret tt.

Definition map_update (id : string) (data : list string) (type : string) (remove : bool)
  : M unit :=
  cm <- gets root_channelMap ;;
  ChannelMapCache.update_unbound cm id data type remove ;;; ret tt.

Definition is_num (v : jval) (n : Z) : bool := strict_eq v (JNum n).

Definition onChannelCreate (channelCreateEvent : event) : M unit :=
  d <- lift (as_obj (d channelCreateEvent)) ;;
  let type := field d "type" in
  if is_num type 0 || is_num type 2 || is_num type 4 then
    gid <- lift (as_str (field d "guild_id")) ;;
    cid <- lift (as_str (field d "id")) ;;
    map_update gid [cid] "guild" false ;;;
    channel_update cid d
  else if is_num type 1 then
    match field d "recipients" with
    | JArr (r0 :: _) =>
        r <- lift (as_obj r0) ;;
        rid <- lift (as_str (field r "id")) ;;
        cid <- lift (as_str (field d "id")) ;;
        map_update rid [cid] "user" false ;;;
        channel_update cid d
    | JArr [] => ret tt
    | v => if truthy v then fail OutOfModel else ret tt
    end
  else ret tt.

Definition channel_remove (id : string) : M unit :=
  ch <- gets root_channel ;;
  ChannelCache.remove_unbound ch id.

Definition onChannelDelete (channelDeleteEvent : event) : M unit :=
  d <- lift (as_obj (d channelDeleteEvent)) ;;
  let type := field d "type" in
  if is_num type 0 || is_num type 2 then
    gid <- lift (as_str (field d "guild_id")) ;;
    cid <- lift (as_str (field d "id")) ;;
    map_update gid [cid] "guild" true ;;;
    channel_remove cid
  else if is_num type 1 then
    match field d "recipients" with
    | JArr (r0 :: _) =>
        r <- lift (as_obj r0) ;;
        rid <- lift (as_str (field r "id")) ;;
        cid <- lift (as_str (field d "id")) ;;
        map_update rid [cid] "user" true ;;;
        channel_remove cid
    | JArr [] | JUndef | JNull => fail TypeError
    | _ => fail OutOfModel
    end
  else ret tt.

Definition member_update (member : jval) (guildId : jval) : M unit :=
  m <- lift (as_obj member) ;;
  u <- lift (as_obj (field m "user")) ;;
  uid <- lift (as_str (field u "id")) ;;
  gid <- lift (as_ostr guildId) ;;
  mc <- gets root_member ;;
  MemberCache.update_unbound mc uid gid m ;;; ret tt.

(** [e.id] on an emoji cache instance: the bound object's field, copied
    onto the instance by [bindObject]. *)
Definition inst_id (c : cache) : jval :=
  match boundObject c with
  | Some o => field o "id"
  | None => JUndef
  end.

Definition emojis_update (d : obj) : M unit :=
  gid <- lift (as_ostr (field d "guild_id")) ;;
  ec <- gets root_emoji ;;
  oldEmotes <- EmojiCache.filter ec (fun _ => true) gid None ;;
  emojis <- lift (match field d "emojis" with
                  | JArr l => Ok l
                  | JUndef | JNull => Err TypeError
                  | _ => Err OutOfModel
                  end) ;;
  for_each (fun emoji =>
              e <- lift (as_obj emoji) ;;
              (* [!oldEmote || oldEmote !== emoji] always holds: an
                 instance found in [oldEmotes] is never the payload object *)
              eid <- lift (as_str (field e "id")) ;;
              ec <- gets root_emoji ;;
              EmojiCache.update_unbound ec eid gid e ;;; ret tt) emojis ;;;
  for_each (fun oldEmote =>
              newEmote <- lift (foldr (fun e acc =>
                                  match as_obj e, acc with
                                  | Ok o, Ok found =>
                                      Ok (if strict_eq (field o "id") (inst_id oldEmote)
                                          then Some o else found)
                                  | Err x, _ => Err x
                                  | _, Err x => Err x
                                  end) (Ok None) emojis) ;;
              match newEmote with
              | Some _ => ret tt
              | None =>
                  oid <- lift (as_str (inst_id oldEmote)) ;;
                  ec <- gets root_emoji ;;
                  EmojiCache.remove_unbound ec oid gid
              end) oldEmotes.

Definition process (ev : event) : M unit :=
  let tag := t ev in
  if String.eqb tag "READY" then
    processReady ev ;;; modify (set_ready true)
  else if String.eqb tag "GUILD_CREATE" || String.eqb tag "GUILD_UPDATE" then
    d <- lift (as_obj (d ev)) ;;
    gid <- lift (as_str (field d "id")) ;;
    guild_update gid d
  else if String.eqb tag "GUILD_DELETE" then
    d <- lift (as_obj (d ev)) ;;
    if truthy (field d "unavailable") then
      gid <- lift (as_str (field d "id")) ;;
      guild_update gid d
    else
      gid <- lift (as_str (field d "id")) ;;
      self <- gets (fun _ => root None) ;;
      GuildCache.remove_unbound self gid
  else if String.eqb tag "CHANNEL_CREATE" || String.eqb tag "CHANNEL_UPDATE" then
    onChannelCreate ev
  else if String.eqb tag "CHANNEL_DELETE" then
    onChannelDelete ev
  else if String.eqb tag "GUILD_MEMBER_ADD" || String.eqb tag "GUILD_MEMBER_UPDATE" then
    d <- lift (as_obj (d ev)) ;;
    member_update (JObj d) (field d "guild_id")
  else if String.eqb tag "GUILD_MEMBER_REMOVE" then
    d <- lift (as_obj (d ev)) ;;
    u <- lift (as_obj (field d "user")) ;;
    uid <- lift (as_str (field u "id")) ;;
    gid <- lift (as_ostr (field d "guild_id")) ;;
    mc <- gets root_member ;;
    MemberCache.remove_unbound mc uid gid
  else if String.eqb tag "GUILD_MEMBERS_CHUNK" then
    d <- lift (as_obj (d ev)) ;;
    members <- lift (match field d "members" with
                     | JArr l => Ok l
                     | JUndef | JNull => Err TypeError
                     | _ => Err OutOfModel
                     end) ;;
    for_each (fun member => member_update member (field d "guild_id")) members
  else if String.eqb tag "USER_UPDATE" then
    d <- lift (as_obj (d ev)) ;;
    uid <- lift (as_str (field d "id")) ;;
    user_update uid d
  else if String.eqb tag "PRESENCE_UPDATE" then
    handlePresenceUpdate (d ev)
  else if String.eqb tag "GUILD_ROLE_CREATE" || String.eqb tag "GUILD_ROLE_UPDATE" then
    d <- lift (as_obj (d ev)) ;;
    role <- lift (as_obj (field d "role")) ;;
    rid <- lift (as_str (field role "id")) ;;
    gid <- lift (as_ostr (field d "guild_id")) ;;
    rc <- gets root_role ;;
    RoleCache.update_unbound rc rid gid role ;;; ret tt
  else if String.eqb tag "GUILD_ROLE_DELETE" then
    (* [this.roleCache.remove(event.d.guild_id, event.d.role_id)] *)
    d <- lift (as_obj (d ev)) ;;
    arg1 <- lift (as_str (field d "guild_id")) ;;
    arg2 <- lift (as_ostr (field d "role_id")) ;;
    rc <- gets root_role ;;
    RoleCache.remove_unbound rc arg1 arg2
  else if String.eqb tag "GUILD_EMOJIS_UPDATE" then
    d <- lift (as_obj (d ev)) ;;
    emojis_update d
  else if String.eqb tag "MESSAGE_CREATE" then
    d <- lift (as_obj (d ev)) ;;
    if truthy (field d "author") && negb (truthy (field d "webhook_id")) then
      author <- lift (as_obj (field d "author")) ;;
      aid <- lift (as_str (field author "id")) ;;
      user_update aid author
    else ret tt
  else ret tt.

Definition inbound (opts : options) (ev : event) : M event :=
  if disabled opts (t ev) then ret ev
  else process ev ;;; ret ev.

End EventProcessor.

(** * Auxiliary notions used in the statements *)

(** An instance bound to [o]. *)
Definition bound (o : obj) (bg bc : option string) : cache :=
  {| boundObject := Some o; boundGuild := bg; boundChannel := bc |}.

(** The call is rejected at [w] without having touched it, and not by the
    program: the fuel ran out (the recursion is unbounded) or the arguments
    left the model. *)
Definition stuck {A} (r : result A * world) (w : world) : Prop :=
  ∃ e, r = (Err e, w) ∧ (e = OutOfFuel ∨ e = OutOfModel).

(** Running a computation for its final world. *)
Definition exec {A} (c : M A) (w : world) : world := snd (c w).

(** An object literal. *)
Definition object (l : list (string * jval)) : obj := list_to_map l.

(** ** Event payloads used in the scenarios *)

Definition role_create_event (guild_id : string) (role : obj) : event :=
  {| t := "GUILD_ROLE_CREATE";
     d := JObj (object [("guild_id", JStr guild_id); ("role", JObj role)]) |}.

Definition role_delete_event (guild_id role_id : string) : event :=
  {| t := "GUILD_ROLE_DELETE";
     d := JObj (object [("guild_id", JStr guild_id); ("role_id", JStr role_id)]) |}.

Definition presence_event (p : obj) : event :=
  {| t := "PRESENCE_UPDATE"; d := JObj p |}.

Definition emojis_update_event (guild_id : string) (emojis : list obj) : event :=
  {| t := "GUILD_EMOJIS_UPDATE";
     d := JObj (object [("guild_id", JStr guild_id); ("emojis", JArr (JObj <$> emojis))]) |}.

(** ** The entity kinds that keep a scope index

    [ChannelMapCache] is not among them: a channel map is itself a set, its
    [update] takes a list of channel ids and never calls [addToIndex].
    [UserCache] and [PresenceCache] are not among the sources. *)

Inductive kind := Emoji | Role | Member | PermissionOverwrite | Channel | Guild.

(** [cache.update(id, scope, data)]; the channel and guild caches are global
    and take no scope. *)
Definition k_update (k : kind) (fuel : nat) (self : cache) (id : string)
    (scope : option string) (data : obj) : M cache :=
  match k with
  | Emoji => EmojiCache.update fuel self id scope data
  | Role => RoleCache.update fuel self id scope data
  | Member => MemberCache.update fuel self id scope data
  | PermissionOverwrite => PermissionOverwriteCache.update fuel self id scope data
  | Channel => ChannelCache.update fuel self id data
  | Guild => GuildCache.update fuel self id data
  end.

Definition k_remove (k : kind) (fuel : nat) (self : cache) (id : string)
    (scope : option string) : M unit :=
  match k with
  | Emoji => EmojiCache.remove fuel self id scope
  | Role => RoleCache.remove fuel self id scope
  | Member => MemberCache.remove fuel self id scope
  | PermissionOverwrite => PermissionOverwriteCache.remove fuel self id scope
  | Channel => ChannelCache.remove fuel self id
  | Guild => GuildCache.remove fuel self id
  end.

Definition k_get (k : kind) (self : cache) (id : string) (scope : option string)
  : M (option entity) :=
  match k with
  | Emoji => EmojiCache.get self id scope
  | Role => RoleCache.get self id scope
  | Member => MemberCache.get self id scope
  | PermissionOverwrite => PermissionOverwriteCache.get self id scope
  | Channel => ChannelCache.get self id
  | Guild => GuildCache.get self id
  end.

Definition k_isIndexed (k : kind) (self : cache) (id : string) (scope : option string)
  : M bool :=
  match k with
  | Emoji => EmojiCache.isIndexed self id scope
  | Role => RoleCache.isIndexed self id scope
  | Member => MemberCache.isIndexed self id scope
  | PermissionOverwrite => PermissionOverwriteCache.isIndexed self id scope
  | Channel => ChannelCache.isIndexed id
  | Guild => GuildCache.isIndexed id
  end.

Definition k_getIndexMembers (k : kind) (self : cache) (scope : option string)
  : M (list string) :=
  match k with
  | Emoji => EmojiCache.getIndexMembers self scope
  | Role => RoleCache.getIndexMembers self scope
  | Member => MemberCache.getIndexMembers self scope
  | PermissionOverwrite => PermissionOverwriteCache.getIndexMembers self scope
  | Channel => ChannelCache.getIndexMembers
  | Guild => GuildCache.getIndexMembers
  end.

(** The key of the record [(id, scope)], default scope applied. *)
Definition k_recordKey (k : kind) (self : cache) (id : string) (scope : option string)
  : string :=
  match k with
  | Emoji => EmojiCache.buildId id (dflt scope (boundGuild self))
  | Role => RoleCache.buildId id scope
  | Member => MemberCache.buildId id (dflt scope (boundGuild self))
  | PermissionOverwrite =>
      PermissionOverwriteCache.buildId id (dflt scope (boundChannel self))
  | Channel => ChannelCache.buildId id
  | Guild => GuildCache.buildId id
  end.

(** What [update] hands to [upsert]: the data after the fields the cache
    fills in and the sub-entities it routes elsewhere. *)
Definition k_stored (k : kind) (self : cache) (id : string) (scope : option string)
    (data : obj) : obj :=
  match k with
  | Emoji | PermissionOverwrite => data
  | Role => RoleCache.fill id (tpl scope) data
  | Member =>
      let data := MemberCache.fill id (tpl (dflt scope (boundGuild self))) data in
      match field data "user" with
      | JObj _ => delete "user" data
      | _ => data
      end
  | Channel => ChannelCache.strip data
  | Guild => GuildCache.strip data
  end.

(** The key of the index that holds the ids of a scope. *)
Definition k_indexKey (k : kind) (scope : string) : string :=
  match k with
  | Emoji => BaseCache.buildId EmojiCache.namespace scope
  | Role => BaseCache.buildId RoleCache.namespace scope
  | Member => BaseCache.buildId MemberCache.namespace scope
  | PermissionOverwrite => BaseCache.buildId PermissionOverwriteCache.namespace scope
  | Channel => ChannelCache.namespace
  | Guild => GuildCache.namespace
  end.

(** The footprint of a completed unbound [update]: starting from [w0], the id
    is added to the scope index and the stored data is merged over the record
    found under the record key. *)
Definition upserted (k : kind) (self : cache) (id scope : string) (data : obj)
    (w0 w' : world) : Prop :=
  let idx := k_indexKey k scope in
  let rec := k_recordKey k self id (Some scope) in
  ∃ s old,
    rec ≠ idx
    ∧ (db w0 !! idx = None ∧ s = ∅ ∨ db w0 !! idx = Some (RSet s))
    ∧ (db w0 !! rec = None ∧ old = ∅ ∨ db w0 !! rec = Some (RString old))
    ∧ db w' = <[rec := RString (json_roundtrip_obj
                                  (assign old (k_stored k self id (Some scope) data)))]>
                (<[idx := RSet ({[id]} ∪ s)]> (db w0)).

(** [id] is reported as a member of the list [idx], by [isListMember] and by
    [getListMembers]. *)
Definition listed (idx id : string) (w : world) : Prop :=
  Storage.isListMember idx id w = (Ok true, w)
  ∧ ∃ l, Storage.getListMembers idx w = (Ok l, w) ∧ id ∈ l.

Definition unlisted (idx id : string) (w : world) : Prop :=
  Storage.isListMember idx id w = (Ok false, w)
  ∧ ∃ l, Storage.getListMembers idx w = (Ok l, w) ∧ id ∉ l.

(** A sequence of updates of one entity, run in order. *)
Fixpoint k_updates (k : kind) (fuel : nat) (self : cache) (id : string)
    (scope : option string) (ds : list obj) : M unit :=
  match ds with
  | [] => ret tt
  | data :: ds =>
      k_update k fuel self id scope data ;;; k_updates k fuel self id scope ds
  end.

(** ** Data used in the scenarios *)

Definition smile : obj := object [("id", JStr "e1"); ("name", JStr "smile")].

Definition bob_member : obj :=
  object [("user", JObj (object [("id", JStr "u1"); ("username", JStr "bob")]));
          ("nick", JStr "b")].

(** The worlds reached from the initial one by one unbound [update]. *)
Definition world_with_smile : world :=
  exec (EmojiCache.update 1 (root None) "e1" (Some "g1") smile) initial_world.

(** A partial update of the emoji [smile]: a new name and a field the stored
    emoji does not have; the [id] is not repeated. *)
Definition animated_grin : obj :=
  object [("name", JStr "grin"); ("animated", JBool true)].

(** The world reached from [world_with_smile] by that update. *)
Definition world_with_grin : world :=
  exec (EmojiCache.update 1 (root None) "e1" (Some "g1") animated_grin) world_with_smile.

Definition world_with_bob : world :=
  exec (MemberCache.update 1 (root (Some "")) "u1" (Some "g1") bob_member) initial_world.

Definition world_with_map : world :=
  exec (ChannelMapCache.update 1 (root None) "g1" ["c1"] "guild" false) initial_world.

(** The pending presence of [uid] after an entry has been merged into the
    buffer. *)
Definition pending_after (queue : gmap string obj) (uid : string) (entry : obj) : obj :=
  match queue !! uid with
  | Some pending => assign pending entry
  | None => entry
  end.

(** The documents written by SET to [key] in a list of executed writes. *)
Definition record_writes (key : string) (ws : list wcmd) : list obj :=
  omap (fun c => match c with
                 | WSet k o => if String.eqb k key then Some o else None
                 | _ => None
                 end) ws.

(** Two presence payloads for user [u1]. *)
Definition presence_online : obj :=
  object [("user", JObj (object [("id", JStr "u1")])); ("status", JStr "online");
          ("game", JObj (object [("name", JStr "chess")])); ("guild_id", JStr "g1");
          ("roles", JArr [JStr "r1"])].

Definition presence_idle : obj :=
  object [("user", JObj (object [("id", JStr "u1")])); ("status", JStr "idle");
          ("game", JNull); ("guild_id", JStr "g1")].

(** ** Keyspace predicates

    A key that an index operation (SADD, SREM, SMEMBERS, SISMEMBER) may
    touch holds a set or nothing; a key that [get]/[upsert] may touch holds a
    document or nothing.  The other case is Redis' WRONGTYPE. *)

Definition set_or_none (v : option rvalue) : Prop :=
  match v with
  | Some (RString _) => False
  | _ => True
  end.

Definition string_or_none (v : option rvalue) : Prop :=
  match v with
  | Some (RSet _) => False
  | _ => True
  end.

Definition is_set_or_none (v : option rvalue) : bool :=
  match v with
  | Some (RString _) => false
  | _ => true
  end.

Definition is_string_or_none (v : option rvalue) : bool :=
  match v with
  | Some (RSet _) => false
  | _ => true
  end.

Definition has_record (d : gmap string rvalue) (k : string) : bool :=
  match d !! k with
  | Some (RString _) => true
  | _ => false
  end.

(** The ids listed under the index key [idx]. *)
Definition members_at (idx : string) (w : world) : gset string :=
  match db w !! idx with
  | Some (RSet s) => s
  | _ => ∅
  end.

(** [d'] is reached from [d] by deletions only: documents are kept or
    deleted, sets lose members. *)
Definition shrinks (d d' : gmap string rvalue) : Prop :=
  ∀ k, match d' !! k with
       | None => True
       | Some (RString o) => d !! k = Some (RString o)
       | Some (RSet s') => ∃ s, d !! k = Some (RSet s) ∧ s' ⊆ s
       end.

(** The common shape of the unbound [remove] of the scoped caches: load the
    record; when it is there, take the id off the index and delete it. *)
Definition scoped_remove (idx rec id : string) : M unit :=
  o <- Storage.get rec ;;
  match o with
  | Some _ => Storage.removeFromList idx id ;;; Storage.remove rec
  | None => ret tt
  end.

(** Only the keyspace (and the log of writes) differs. *)
Definition same_env (w w' : world) : Prop :=
  shared w' = shared w ∧ presenceQueue w' = presenceQueue w ∧ ready w' = ready w.

(** ** A cached guild

    The scope index [ns.<id>] is a set, and every id it lists has its record
    at [ns.<id>.<x>]. *)
Definition index_has_records (ns id : string) (w : world) : bool :=
  is_set_or_none (db w !! BaseCache.buildId ns id)
  && forallb (fun x => has_record (db w) (BaseCache.scopedId ns x (Some id)))
             (elements (members_at (BaseCache.buildId ns id) w)).

(** Guild [id] is stored, its role, emoji and member indexes have their
    records, and the keys that the removal visits hold values of the kind
    that the commands sent to them expect. *)
Definition guild_cached (id : string) (w : world) : bool :=
  has_record (db w) (GuildCache.buildId id)
  && is_set_or_none (db w !! GuildCache.namespace)
  && is_set_or_none (db w !! ChannelMapCache.mapKey id "guild")
  && is_set_or_none (db w !! ChannelCache.namespace)
  && forallb (fun c => is_string_or_none (db w !! ChannelCache.buildId c))
             (elements (members_at (ChannelMapCache.mapKey id "guild") w))
  && index_has_records RoleCache.namespace id w
  && index_has_records EmojiCache.namespace id w
  && index_has_records MemberCache.namespace id w.

(** ** The emoji of a guild *)

Definition has_id (o : obj) (x : string) : bool :=
  match field o "id" with
  | JStr s => String.eqb s x
  | _ => false
  end.

(** An emoji object as the events and the storage carry it: its [id] is [x]
    and none of its fields is named like a member of the cache class. *)
Definition emoji_object (o : obj) (x : string) : bool :=
  BaseCache.plain EmojiCache.reserved o && has_id o x.

Definition emoji_index (g : string) : string := BaseCache.buildId EmojiCache.namespace g.

Definition has_emoji (g : string) (w : world) (x : string) : bool :=
  match db w !! EmojiCache.buildId x (Some g) with
  | Some (RString o) => emoji_object o x
  | _ => false
  end.

(** The emoji index of guild [g] (a non-empty id) is a set and every emoji
    it lists is stored under its own id. *)
Definition emojis_cached (g : string) (w : world) : bool :=
  negb (String.eqb g "")
  && is_set_or_none (db w !! emoji_index g)
  && forallb (has_emoji g w) (elements (members_at (emoji_index g) w)).

(** The document at [k] has every defined field of [e], as JSON gives it
    back. *)
Definition record_holds (w : world) (k : string) (e : obj) : Prop :=
  ∃ r, db w !! k = Some (RString r)
       ∧ ∀ f v, e !! f = Some v → v ≠ JUndef → r !! f = Some (json_roundtrip v).

(** ** Worlds used in the scenarios of the guild claims *)

Definition emoji_a : obj := object [("id", JStr "a"); ("name", JStr "ant")].
Definition emoji_b : obj := object [("id", JStr "b"); ("name", JStr "bee")].
Definition emoji_c : obj := object [("id", JStr "c"); ("name", JStr "cat")].
Definition emoji_d : obj := object [("id", JStr "d"); ("name", JStr "dog")].

Definition world_with_abc : world :=
  exec (EventProcessor.process (emojis_update_event "g1" [emoji_a; emoji_b; emoji_c]))
       initial_world.

Definition guild_snapshot : obj :=
  object
    [("id", JStr "7"); ("name", JStr "g");
     ("channels",
      JArr [JObj (object [("id", JStr "c1"); ("type", JNum 0)]);
            JObj (object [("id", JStr "c2"); ("type", JNum 2)])]);
     ("members",
      JArr [JObj (object [("user", JObj (object [("id", JStr "u1"); ("username", JStr "bob")]));
                          ("nick", JStr "b")])]);
     ("roles", JArr [JObj (object [("id", JStr "r1")]); JObj (object [("id", JStr "r2")])]);
     ("emojis", JArr [JObj (object [("id", JStr "e1")])])].

Definition world_with_guild : world :=
  exec (EventProcessor.process {| t := "GUILD_CREATE"; d := JObj guild_snapshot |})
       initial_world.

(** ** Notions used in the further properties *)

Definition channel_create_event (channel : obj) : event :=
  {| t := "CHANNEL_CREATE"; d := JObj channel |}.

Definition channel_delete_event (channel : obj) : event :=
  {| t := "CHANNEL_DELETE"; d := JObj channel |}.

(** The document stored at [k], the empty object when there is none. *)
Definition record_at (k : string) (w : world) : obj :=
  match db w !! k with
  | Some (RString o) => o
  | _ => ∅
  end.

(** The size of a payload value, the measure of the recursion of
    [json_roundtrip]. *)
Fixpoint jval_size (v : jval) : nat :=
  match v with
  | JArr l => S (foldr (fun x n => jval_size x + n) 0 l)
  | JObj o => S (map_fold (fun _ x n => jval_size x + n) 0 o)
  | _ => 1
  end.

(** An id without a dot, as the snowflakes of the gateway are. *)
Fixpoint dot_free (s : string) : bool :=
  match s with
  | EmptyString => true
  | String c s' => negb (String.eqb (String c EmptyString) ".") && dot_free s'
  end.

(** The namespaces of the cache classes. *)
Definition namespaces : list string :=
  [UserCache.namespace; EmojiCache.namespace; RoleCache.namespace; MemberCache.namespace;
   PermissionOverwriteCache.namespace; PresenceCache.namespace; ChannelMapCache.namespace;
   ChannelCache.namespace; GuildCache.namespace].

(** Channels of the scenarios: a text channel and a category of guild [g1],
    and the text channel [c1] of the guild of [guild_snapshot]. *)
Definition text_channel : obj :=
  object [("id", JStr "c1"); ("type", JNum 0); ("guild_id", JStr "g1")].

Definition category_channel : obj :=
  object [("id", JStr "c9"); ("type", JNum 4); ("guild_id", JStr "g1")].

Definition snapshot_channel : obj :=
  object [("id", JStr "c1"); ("type", JNum 0); ("guild_id", JStr "7")].

Definition world_with_channel : world :=
  exec (EventProcessor.process (channel_create_event text_channel)) initial_world.

Definition world_with_category : world :=
  exec (EventProcessor.process (channel_create_event category_channel)) initial_world.

Definition admin_role : obj := object [("id", JStr "r1"); ("name", JStr "admin")].

(** ** Namespaces and the state of a guild's scope *)

(** The keys of a namespace: its global index and everything below it. *)
Definition ns_key (ns k : string) : Prop := k = ns ∨ ∃ s, k = BaseCache.buildId ns s.

(** Outside the namespaces [nss] the keyspace of [w'] is that of [w]. *)
Definition writes_within (nss : list string) (w w' : world) : Prop :=
  ∀ k, (∀ ns, ns ∈ nss → ¬ ns_key ns k) → db w' !! k = db w !! k.

(** [index_has_records] as a proposition. *)
Definition idx_ok (ns id : string) (w : world) : Prop :=
  set_or_none (db w !! BaseCache.buildId ns id)
  ∧ ∀ x, x ∈ members_at (BaseCache.buildId ns id) w →
         ∃ o, db w !! BaseCache.scopedId ns x (Some id) = Some (RString o).

(** The channel map of guild [id] and the channel index are sets, and every
    mapped channel that is not in [pending] has a document or nothing under
    its key. *)
Definition chan_ok (id : string) (pending : list string) (w : world) : Prop :=
  set_or_none (db w !! ChannelMapCache.mapKey id "guild")
  ∧ set_or_none (db w !! ChannelCache.namespace)
  ∧ ∀ c, c ∈ members_at (ChannelMapCache.mapKey id "guild") w →
         c ∈ pending ∨ string_or_none (db w !! ChannelCache.buildId c).

(** What [guild_cached] asks of the scope of guild [id], the guild's own
    record and index apart. *)
Definition guild_scope_ok (id : string) (w : world) : bool :=
  is_set_or_none (db w !! ChannelMapCache.mapKey id "guild")
  && is_set_or_none (db w !! ChannelCache.namespace)
  && forallb (fun c => is_string_or_none (db w !! ChannelCache.buildId c))
             (elements (members_at (ChannelMapCache.mapKey id "guild") w))
  && index_has_records RoleCache.namespace id w
  && index_has_records EmojiCache.namespace id w
  && index_has_records MemberCache.namespace id w.

(** The conclusion of one update of entity [x] in the scope [g] of the
    namespace [ns]: only the namespaces [nss] are written, the state of the
    scope index is kept, [x] is listed and stored, and nothing that was
    listed or stored in the scope is lost. *)
Definition scoped_step (nss : list string) (ns g x : string) (w w' : world) : Prop :=
  writes_within nss w w'
  ∧ (idx_ok ns g w → idx_ok ns g w')
  ∧ x ∈ members_at (BaseCache.buildId ns g) w'
  ∧ (∀ y, y ∈ members_at (BaseCache.buildId ns g) w →
          y ∈ members_at (BaseCache.buildId ns g) w')
  ∧ (∀ y o, db w !! BaseCache.scopedId ns y (Some g) = Some (RString o) →
            ∃ o2, db w' !! BaseCache.scopedId ns y (Some g) = Some (RString o2))
  ∧ ∃ o2, db w' !! BaseCache.scopedId ns x (Some g) = Some (RString o2).

(** [v.id] of a payload object. *)
Definition payload_id (v : jval) : option string :=
  match v with
  | JObj o => match field o "id" with JStr s => Some s | _ => None end
  | _ => None
  end.

(** [member.user.id] of a member payload. *)
Definition member_uid (v : jval) : option string :=
  match v with
  | JObj m => payload_id (field m "user")
  | _ => None
  end.

(** Every element of [l] has an id that is listed in the scope index of [g]
    and has a record there. *)
Definition all_cached (ns g : string) (idof : jval → option string) (l : list jval)
    (w : world) : Prop :=
  Forall (fun a => ∃ x, idof a = Some x
                        ∧ x ∈ members_at (BaseCache.buildId ns g) w
                        ∧ ∃ o, db w !! BaseCache.scopedId ns x (Some g) = Some (RString o)) l.

Definition member_add_event (member : obj) : event :=
  {| t := "GUILD_MEMBER_ADD"; d := JObj member |}.

Definition member_remove_event (member : obj) : event :=
  {| t := "GUILD_MEMBER_REMOVE"; d := JObj member |}.

Definition members_chunk_event (chunk : obj) : event :=
  {| t := "GUILD_MEMBERS_CHUNK"; d := JObj chunk |}.

Definition guild_delete_event (guild : obj) : event :=
  {| t := "GUILD_DELETE"; d := JObj guild |}.

(** Payloads of the scenarios: a member joining guild [g1], a chunk of two
    members of [g1], and guild [7] reported as unavailable. *)
Definition bob_user : obj := object [("id", JStr "u1"); ("username", JStr "bob")].
Definition eve_user : obj := object [("id", JStr "u2"); ("username", JStr "eve")].

Definition bob_joins : obj :=
  object [("guild_id", JStr "g1"); ("user", JObj bob_user); ("nick", JStr "b")].

Definition chunk_of_two : obj :=
  object [("guild_id", JStr "g1");
          ("members", JArr [JObj (object [("user", JObj bob_user)]);
                            JObj (object [("user", JObj eve_user)])])].

Definition guild_outage : obj := object [("id", JStr "7"); ("unavailable", JBool true)].

(** A text channel of guild [g1] with one permission overwrite. *)
Definition locked_channel : obj :=
  object [("id", JStr "c1"); ("type", JNum 0); ("guild_id", JStr "g1");
          ("permission_overwrites",
           JArr [JObj (object [("id", JStr "r1"); ("type", JStr "role")])])].

(** The keys that belong to guild [id] at [w]: its record and the guild
    index, its channel map, the channel index and the records of the mapped
    channels, and the indexes and records of its roles, emoji and members. *)
Definition guild_key (id : string) (w : world) (k : string) : Prop :=
  k = GuildCache.buildId id
  ∨ k = GuildCache.namespace
  ∨ k = ChannelMapCache.mapKey id "guild"
  ∨ k = ChannelCache.namespace
  ∨ (∃ c, c ∈ members_at (ChannelMapCache.mapKey id "guild") w ∧ k = ChannelCache.buildId c)
  ∨ (∃ ns, ns ∈ [RoleCache.namespace; EmojiCache.namespace; MemberCache.namespace]
           ∧ (k = BaseCache.buildId ns id ∨ ∃ x, k = BaseCache.scopedId ns x (Some id))).

(** No element of [l] has a record left in the scope [g] of [ns]. *)
Definition none_stored (ns g : string) (idof : jval → option string) (l : list jval)
    (w : world) : Prop :=
  Forall (fun a => ∃ x, idof a = Some x
                        ∧ db w !! BaseCache.scopedId ns x (Some g) = None) l.

Definition guild_create_event (guild : obj) : event :=
  {| t := "GUILD_CREATE"; d := JObj guild |}.

Definition guild_gone : obj := object [("id", JStr "7")].


(** * Reasoning about computations *)

Lemma bind_ok_inv {A B} (c : M A) (k : A → M B) w b w' :
  bind c k w = (Ok b, w') → ∃ a w1, c w = (Ok a, w1) ∧ k a w1 = (Ok b, w').
Proof.
  unfold bind. destruct (c w) as [[a|e] w1]; [eauto | discriminate].
Qed.

Lemma bind_run {A B} (c : M A) (k : A → M B) w a w1 :
  c w = (Ok a, w1) → bind c k w = k a w1.
Proof. unfold bind. by intros ->. Qed.

Lemma bind_fail {A B} (c : M A) (k : A → M B) w e w1 :
  c w = (Err e, w1) → bind c k w = (Err e, w1).
Proof. unfold bind. by intros ->. Qed.

Lemma lift_ok_inv {A} (r : result A) w a w' :
  lift r w = (Ok a, w') → r = Ok a ∧ w' = w.
Proof. unfold lift. by intros [= -> ->]. Qed.

Lemma gets_ok_inv {A} (f : world → A) w a w' :
  gets f w = (Ok a, w') → a = f w ∧ w' = w.
Proof. unfold gets. by intros [= <- <-]. Qed.

Lemma ret_ok_inv {A} (x : A) w a w' :
  ret x w = (Ok a, w') → a = x ∧ w' = w.
Proof. unfold ret. by intros [= <- <-]. Qed.

Ltac inv_bind H :=
  let a := fresh "a" in
  let w1 := fresh "w" in
  let H1 := fresh H in
  apply bind_ok_inv in H as (a & w1 & H1 & H).

(** ** Instances *)

Lemma bindObject_bound reserved data self self' :
  BaseCache.bindObject reserved data self = Ok self' →
  self' = bound data (boundGuild self) (boundChannel self).
Proof.
  unfold BaseCache.bindObject. destruct (BaseCache.plain _ _); [|done]. by intros [= <-].
Qed.

Lemma bindObject_err reserved data self e :
  BaseCache.bindObject reserved data self = Err e → e = OutOfModel.
Proof.
  unfold BaseCache.bindObject. destruct (BaseCache.plain _ _); [done|]. by intros [= <-].
Qed.

Lemma construct_ok_inv reserved bg bc o c :
  BaseCache.construct reserved bg bc (Some o) = Ok c →
  c = bound o bg bc ∧ BaseCache.plain reserved o = true.
Proof.
  unfold BaseCache.construct, BaseCache.bindObject.
  destruct (BaseCache.plain _ _); [|done]. by intros [= <-].
Qed.

Lemma as_str_err v e : as_str v = Err e → e = OutOfModel.
Proof. destruct v; simpl; congruence. Qed.

Lemma as_ostr_err v e : as_ostr v = Err e → e = OutOfModel.
Proof. destruct v; simpl; congruence. Qed.

Lemma as_str_ok v s : as_str v = Ok s → v = JStr s.
Proof. destruct v; simpl; congruence. Qed.

(** ** Calls that never return *)

Lemma stuck_bind {A B} (c : M A) (k : A → M B) w :
  stuck (c w) w → stuck (bind c k w) w.
Proof. intros (e & H & He). exists e. split; [by apply bind_fail | done]. Qed.

Lemma stuck_lift_bind {A B} (r : result A) (k : A → M B) w :
  (∀ e, r = Err e → e = OutOfModel) →
  (∀ a, r = Ok a → stuck (k a w) w) →
  stuck (bind (lift r) k w) w.
Proof.
  intros He Hk. unfold bind, lift. destruct r as [a|e].
  - by apply Hk.
  - exists e. split; [done|right; by apply He].
Qed.

Lemma stuck_out_of_fuel {A} w : stuck (@fail A OutOfFuel w) w.
Proof. exists OutOfFuel. split; [done | by left]. Qed.

Ltac stuck_step :=
  first
    [ apply stuck_lift_bind;
      [ first [ apply bindObject_err | apply as_str_err | apply as_ostr_err ] | intros ? ? ]
    | apply stuck_bind ].

Lemma EmojiCache_update_bound fuel : ∀ o bg bc id g data w,
  stuck (EmojiCache.update fuel (bound o bg bc) id g data w) w.
Proof.
  induction fuel as [|fuel IH]; intros; simpl; [apply stuck_out_of_fuel|].
  stuck_step. stuck_step.
  match goal with H : _ = Ok _ |- _ => apply bindObject_bound in H as -> end. apply IH.
Qed.

Lemma RoleCache_update_bound fuel : ∀ o bg bc id g data w,
  stuck (RoleCache.update fuel (bound o bg bc) id g data w) w.
Proof.
  induction fuel as [|fuel IH]; intros; simpl; [apply stuck_out_of_fuel|].
  do 3 stuck_step.
  match goal with H : BaseCache.bindObject _ _ _ = Ok _ |- _ =>
    apply bindObject_bound in H as -> end. apply IH.
Qed.

Lemma MemberCache_update_bound fuel : ∀ o bg bc id g data w,
  stuck (MemberCache.update fuel (bound o bg bc) id g data w) w.
Proof.
  induction fuel as [|fuel IH]; intros; simpl; [apply stuck_out_of_fuel|].
  do 4 stuck_step.
  match goal with H : BaseCache.bindObject _ _ _ = Ok _ |- _ =>
    apply bindObject_bound in H as -> end. apply IH.
Qed.

Lemma PermissionOverwriteCache_update_bound fuel : ∀ o bg bc id g data w,
  stuck (PermissionOverwriteCache.update fuel (bound o bg bc) id g data w) w.
Proof.
  induction fuel as [|fuel IH]; intros; simpl; [apply stuck_out_of_fuel|].
  do 2 stuck_step.
  match goal with H : BaseCache.bindObject _ _ _ = Ok _ |- _ =>
    apply bindObject_bound in H as -> end. apply IH.
Qed.

Lemma ChannelMapCache_update_bound fuel : ∀ o bg bc id data type rm w,
  stuck (ChannelMapCache.update fuel (bound o bg bc) id data type rm w) w.
Proof.
  induction fuel as [|fuel IH]; intros; simpl; [apply stuck_out_of_fuel|].
  do 2 stuck_step.
  match goal with H : BaseCache.bindObject _ _ _ = Ok _ |- _ =>
    apply bindObject_bound in H as -> end. apply IH.
Qed.

Lemma ChannelCache_update_bound fuel : ∀ o bg bc id data w,
  stuck (ChannelCache.update fuel (bound o bg bc) id data w) w.
Proof.
  induction fuel as [|fuel IH]; intros; simpl; [apply stuck_out_of_fuel|].
  do 3 stuck_step.
  match goal with H : BaseCache.bindObject _ _ _ = Ok _ |- _ =>
    apply bindObject_bound in H as -> end. apply IH.
Qed.

Lemma GuildCache_update_bound fuel : ∀ o bg bc id data w,
  stuck (GuildCache.update fuel (bound o bg bc) id data w) w.
Proof.
  induction fuel as [|fuel IH]; intros; simpl; [apply stuck_out_of_fuel|].
  do 3 stuck_step.
  match goal with H : BaseCache.bindObject _ _ _ = Ok _ |- _ =>
    apply bindObject_bound in H as -> end. apply IH.
Qed.

(** On an instance that is not bound, the methods are their bodies. *)
Lemma update_of_root fuel self id g data :
  boundObject self = None →
  EmojiCache.update (S fuel) self id g data = EmojiCache.update_unbound self id g data
  ∧ RoleCache.update (S fuel) self id g data = RoleCache.update_unbound self id g data
  ∧ MemberCache.update (S fuel) self id g data = MemberCache.update_unbound self id g data
  ∧ PermissionOverwriteCache.update (S fuel) self id g data
    = PermissionOverwriteCache.update_unbound self id g data
  ∧ ChannelCache.update (S fuel) self id data = ChannelCache.update_unbound self id data
  ∧ GuildCache.update (S fuel) self id data = GuildCache.update_unbound self id data.
Proof.
  intros H. simpl. rewrite H.
  unfold EmojiCache.update_unbound, MemberCache.update_unbound,
    PermissionOverwriteCache.update_unbound.
  repeat split; destruct g, (boundGuild self), (boundChannel self); reflexivity.
Qed.

Lemma EmojiCache_update_bound_plain fuel : ∀ o bg bc id g data w,
  BaseCache.plain EmojiCache.reserved data = true →
  EmojiCache.update fuel (bound o bg bc) id g data w = (Err OutOfFuel, w).
Proof.
  induction fuel as [|fuel IH]; intros o bg bc id g data w Hp; simpl; [done|].
  unfold bind, lift, BaseCache.bindObject. rewrite Hp. simpl.
  by rewrite (IH data bg bc id _ data w Hp).
Qed.

(** ** Storage and cache operations that completed *)

Lemma GET_inv k w r w' :
  Redis.GET k w = (Ok r, w') →
  w' = w ∧ match r with
           | Some o => db w !! k = Some (RString o)
           | None => db w !! k = None
           end.
Proof.
  unfold Redis.GET. destruct (db w !! k) as [[o|s]|]; intros [= <- <-]; done.
Qed.

Lemma SADD1_inv k id w w' :
  Redis.SADD k [id] w = (Ok tt, w') →
  ∃ s, (db w !! k = None ∧ s = ∅ ∨ db w !! k = Some (RSet s))
       ∧ w' = set_db (insert k (RSet ({[id]} ∪ s))) (WSadd k [id]) w.
Proof.
  unfold Redis.SADD. destruct (db w !! k) as [[o|s]|]; intros [= <-].
  - exists s. split; [by right|]. simpl. by rewrite (right_id_L ∅ (∪)).
  - exists ∅. split; [by left|]. done.
Qed.

Lemma upsert_inv k data w w' :
  Storage.upsert k data w = (Ok tt, w') →
  ∃ old, (db w !! k = None ∧ old = ∅ ∨ db w !! k = Some (RString old))
         ∧ w' = set_db (insert k (RString (json_roundtrip_obj (assign old data))))
                       (WSet k (json_roundtrip_obj (assign old data))) w.
Proof.
  unfold Storage.upsert, Storage.get. intros H. inv_bind H.
  apply GET_inv in H0 as [-> Hr]. unfold Redis.SET in H. injection H as <-.
  destruct a as [o|]; simpl.
  - exists o. split; [by right | done].
  - exists ∅. split; [by left | done].
Qed.

Lemma stored_field old data k v :
  data !! k = Some v → v ≠ JUndef →
  json_roundtrip_obj (assign old data) !! k = Some (json_roundtrip v).
Proof.
  intros Hk Hv. unfold json_roundtrip_obj, assign. rewrite lookup_omap.
  erewrite lookup_union_Some_l by done. simpl. by destruct v.
Qed.

Lemma stored_field_old old data k :
  data !! k = None →
  json_roundtrip_obj (assign old data) !! k = json_roundtrip_obj old !! k.
Proof.
  intros Hk. unfold json_roundtrip_obj, assign. rewrite !lookup_omap.
  by rewrite lookup_union_r.
Qed.

(* index then upsert *)
Lemma index_upsert_inv {A} idx id rec data (k : M A) w r w' :
  (Storage.addToList idx [id] ;;; Storage.upsert rec data ;;; k) w = (Ok r, w') →
  ∃ s old w2,
    rec ≠ idx
    ∧ (db w !! idx = None ∧ s = ∅ ∨ db w !! idx = Some (RSet s))
    ∧ (db w !! rec = None ∧ old = ∅ ∨ db w !! rec = Some (RString old))
    ∧ w2 = set_db (insert rec (RString (json_roundtrip_obj (assign old data))))
                  (WSet rec (json_roundtrip_obj (assign old data)))
                  (set_db (insert idx (RSet ({[id]} ∪ s))) (WSadd idx [id]) w)
    ∧ k w2 = (Ok r, w').
Proof.
  intros H. inv_bind H. inv_bind H. destruct a, a0.
  apply SADD1_inv in H0 as (s & Hs & ->).
  apply upsert_inv in H1 as (old & Ho & ->).
  assert (rec ≠ idx) as Hne.
  { intros ->. simpl in Ho. rewrite lookup_insert_eq in Ho. by destruct Ho as [[? _]|?]. }
  eexists s, old, _. split; [done|]. split; [done|]. split; [|split; [reflexivity|done]].
  simpl in Ho. by rewrite lookup_insert_ne in Ho.
Qed.

Lemma dflt_idem a d : dflt (dflt a d) d = dflt a d.
Proof. by destruct a, d. Qed.

Lemma wrap_channel_db ch w c w' :
  ChannelCache.wrap ch w = (Ok c, w') → db w' = db w ∧ writes w' = writes w.
Proof.
  unfold ChannelCache.wrap. intros H. inv_bind H. apply lift_ok_inv in H0 as [_ ->].
  inv_bind H. apply lift_ok_inv in H0 as [_ ->].
  inv_bind H. unfold modify in H0. injection H0 as _ <-.
  apply lift_ok_inv in H as [_ ->]. done.
Qed.

Lemma wrap_guild_db g w c w' :
  GuildCache.wrap g w = (Ok c, w') → db w' = db w ∧ writes w' = writes w.
Proof.
  unfold GuildCache.wrap. intros H. inv_bind H. apply lift_ok_inv in H0 as [_ ->].
  inv_bind H. apply lift_ok_inv in H0 as [_ ->].
  inv_bind H. unfold modify in H0. injection H0 as _ <-.
  apply lift_ok_inv in H as [_ ->]. done.
Qed.

Lemma extract_user_inv data w d w' :
  MemberCache.extract_user data w = (Ok d, w') →
  d = match field data "user" with JObj _ => delete "user" data | _ => data end.
Proof.
  unfold MemberCache.extract_user. intros H.
  destruct (field data "user") eqn:E; simpl in H;
    try (by apply ret_ok_inv in H as [-> _]); try done.
  - destruct b; [done|]. by apply ret_ok_inv in H as [-> _].
  - destruct (negb _); [done|]. by apply ret_ok_inv in H as [-> _].
  - destruct (negb _); [done|]. by apply ret_ok_inv in H as [-> _].
  - inv_bind H. inv_bind H. by apply ret_ok_inv in H as [-> _].
Qed.

Lemma k_update_inv k fuel self id scope data w c w' :
  boundObject self = None →
  k_update k (S fuel) self id (Some scope) data w = (Ok c, w') →
  ∃ w0, upserted k self id scope data w0 w'.
Proof.
  intros Hu H. destruct k; simpl in H; rewrite Hu in H.
  - unfold EmojiCache.update_unbound, BaseCache.addToIndex, BaseCache.indexKey in H.
    simpl in H. apply index_upsert_inv in H as (s & old & w2 & Hne & Hs & Ho & -> & H).
    apply lift_ok_inv in H as [_ ->]. exists w, s, old. done.
  - unfold RoleCache.update_unbound in H. destruct (negb _); [done|].
    unfold BaseCache.addToIndex, BaseCache.indexKey in H. simpl in H.
    apply index_upsert_inv in H as (s & old & w2 & Hne & Hs & Ho & -> & H).
    apply lift_ok_inv in H as [_ ->]. exists w, s, old. done.
  - unfold MemberCache.update_unbound in H. simpl in H. destruct (negb _); [done|].
    inv_bind H. apply extract_user_inv in H0 as ->.
    unfold BaseCache.addToIndex, BaseCache.indexKey in H. simpl in H.
    apply index_upsert_inv in H as (s & old & w2 & Hne & Hs & Ho & -> & H).
    apply lift_ok_inv in H as [_ ->]. exists w0, s, old. done.
  - unfold PermissionOverwriteCache.update_unbound, BaseCache.addToIndex,
      BaseCache.indexKey in H. simpl in H.
    apply index_upsert_inv in H as (s & old & w2 & Hne & Hs & Ho & -> & H).
    apply lift_ok_inv in H as [_ ->]. exists w, s, old. done.
  - unfold ChannelCache.update_unbound in H. inv_bind H. inv_bind H.
    unfold ChannelCache.addToIndex in H.
    apply index_upsert_inv in H as (s & old & w2 & Hne & Hs & Ho & -> & H).
    inv_bind H. apply GET_inv in H2 as [-> _]. apply wrap_channel_db in H as [Hd _].
    exists w1, s, old. rewrite Hd. done.
  - unfold GuildCache.update_unbound in H. do 5 inv_bind H.
    unfold GuildCache.addToIndex in H.
    apply index_upsert_inv in H as (s & old & w2' & Hne & Hs & Ho & -> & H).
    inv_bind H. apply GET_inv in H5 as [-> _]. apply wrap_guild_db in H as [Hd _].
    exists w4, s, old. rewrite Hd. done.
Qed.

Lemma k_isIndexed_eq k self id scope :
  k_isIndexed k self id (Some scope) = Storage.isListMember (k_indexKey k scope) id.
Proof. by destruct k. Qed.

Lemma k_getIndexMembers_eq k self scope :
  k_getIndexMembers k self (Some scope) = Storage.getListMembers (k_indexKey k scope).
Proof. by destruct k. Qed.

Lemma listed_of_set idx id s w :
  db w !! idx = Some (RSet s) → id ∈ s → listed idx id w.
Proof.
  intros H Hin. unfold listed, Storage.isListMember, Storage.getListMembers,
    Redis.SISMEMBER, Redis.SMEMBERS. rewrite H. split.
  - by rewrite bool_decide_eq_true_2.
  - eexists. split; [done|]. by apply elem_of_elements.
Qed.

Lemma unlisted_of_set idx id s w :
  db w !! idx = Some (RSet s) → id ∉ s → unlisted idx id w.
Proof.
  intros H Hin. unfold unlisted, Storage.isListMember, Storage.getListMembers,
    Redis.SISMEMBER, Redis.SMEMBERS. rewrite H. split.
  - by rewrite bool_decide_eq_false_2.
  - eexists. split; [done|]. by rewrite elem_of_elements.
Qed.

Lemma unlisted_of_none idx id w :
  db w !! idx = None → unlisted idx id w.
Proof.
  intros H. unfold unlisted, Storage.isListMember, Storage.getListMembers,
    Redis.SISMEMBER, Redis.SMEMBERS. rewrite H. split; [done|].
  eexists. split; [done|]. apply not_elem_of_nil.
Qed.

Lemma listed_of_upserted k self id scope data w0 w' :
  upserted k self id scope data w0 w' → listed (k_indexKey k scope) id w'.
Proof.
  intros (s & old & Hne & _ & _ & Hdb).
  apply (listed_of_set _ _ ({[id]} ∪ s)); [|set_solver].
  rewrite Hdb. rewrite lookup_insert_ne by done. by rewrite lookup_insert_eq.
Qed.

Lemma SREM_inv k id w w' :
  Redis.SREM k id w = (Ok tt, w') →
  (db w !! k = None ∧ db w' = db w)
  ∨ ∃ s, db w !! k = Some (RSet s)
         ∧ db w' = (if decide (s ∖ {[id]} = ∅) then delete k (db w)
                    else <[k := RSet (s ∖ {[id]})]> (db w)).
Proof.
  unfold Redis.SREM. destruct (db w !! k) as [[o|s]|]; intros [= <-].
  - right. by exists s.
  - by left.
Qed.

Lemma unindex_delete idx id rec w w' :
  (Storage.removeFromList idx id ;;; Storage.remove rec) w = (Ok tt, w') →
  unlisted idx id w'.
Proof.
  intros H. inv_bind H. destruct a. apply SREM_inv in H0.
  unfold Storage.remove, Redis.DEL in H. injection H as <-. simpl.
  destruct (decide (rec = idx)) as [->|Hne].
  { apply unlisted_of_none. simpl. apply lookup_delete_eq. }
  destruct H0 as [[Hn Hd]|(s & Hs & Hd)].
  - apply unlisted_of_none. simpl. rewrite lookup_delete_ne by done. by rewrite Hd.
  - case_decide.
    + apply unlisted_of_none. simpl. rewrite lookup_delete_ne by done.
      rewrite Hd. apply lookup_delete_eq.
    + apply (unlisted_of_set _ _ (s ∖ {[id]})); [|set_solver].
      simpl. rewrite lookup_delete_ne by done. rewrite Hd. apply lookup_insert_eq.
Qed.

Lemma k_remove_inv k fuel self id scope old w w' :
  boundObject self = None →
  db w !! k_recordKey k self id (Some scope) = Some (RString old) →
  k_remove k (S fuel) self id (Some scope) w = (Ok tt, w') →
  ∃ w0, (Storage.removeFromList (k_indexKey k scope) id ;;;
         Storage.remove (k_recordKey k self id (Some scope))) w0 = (Ok tt, w').
Proof.
  intros Hu Hrec H. destruct k; simpl in H, Hrec; rewrite Hu in H.
  - unfold EmojiCache.remove_unbound in H. simpl in H. inv_bind H.
    apply GET_inv in H0 as [-> Ha]. destruct a; [|congruence]. by exists w.
  - unfold RoleCache.remove_unbound in H. inv_bind H.
    apply GET_inv in H0 as [-> Ha]. destruct a; [|congruence]. by exists w.
  - unfold MemberCache.remove_unbound in H. simpl in H. inv_bind H.
    apply GET_inv in H0 as [-> Ha]. destruct a; [|congruence]. by exists w.
  - unfold PermissionOverwriteCache.remove_unbound in H. simpl in H. inv_bind H.
    apply GET_inv in H0 as [-> Ha]. destruct a; [|congruence]. by exists w.
  - unfold ChannelCache.remove_unbound in H. inv_bind H.
    apply GET_inv in H0 as [-> Ha]. destruct a; [|congruence]. by exists w.
  - unfold GuildCache.remove_unbound in H. inv_bind H.
    apply GET_inv in H0 as [-> Ha]. destruct a; [|congruence].
    do 15 inv_bind H. eexists. exact H.
Qed.

Lemma wrap_channel_obj o w c w' :
  ChannelCache.wrap (Some o) w = (Ok c, w') → boundObject c = Some o.
Proof.
  unfold ChannelCache.wrap. intros H. do 3 inv_bind H.
  apply lift_ok_inv in H as [Hc _]. apply lift_ok_inv in H0 as [[= <-] _].
  by apply construct_ok_inv in Hc as [-> _].
Qed.

Lemma wrap_guild_obj o w c w' :
  GuildCache.wrap (Some o) w = (Ok c, w') → boundObject c = Some o.
Proof.
  unfold GuildCache.wrap. intros H. do 3 inv_bind H.
  apply lift_ok_inv in H as [Hc _]. apply lift_ok_inv in H0 as [[= <-] _].
  by apply construct_ok_inv in Hc as [-> _].
Qed.

Lemma k_get_inv k self id scope w e w' :
  boundObject self = None →
  k_get k self id (Some scope) w = (Ok e, w') →
  db w' = db w ∧
  match e with
  | Some e' => ∃ rec, db w !! k_recordKey k self id (Some scope) = Some (RString rec)
                      ∧ entity_obj e' = Some rec
  | None => db w !! k_recordKey k self id (Some scope) = None
  end.
Proof.
  intros Hu H.
  destruct k; unfold k_get, EmojiCache.get, RoleCache.get, MemberCache.get,
    PermissionOverwriteCache.get, ChannelCache.get, GuildCache.get in H;
    simpl in H; rewrite Hu in H; inv_bind H;
    apply GET_inv in H0 as [-> Ha]; destruct a as [o|];
    try (apply ret_ok_inv in H as [-> ->]; done);
    inv_bind H; apply ret_ok_inv in H as [-> ->].
  1-4: apply lift_ok_inv in H0 as [Hc ->]; apply construct_ok_inv in Hc as [-> _];
       split; [done|]; by exists o.
  - pose proof (wrap_channel_db _ _ _ _ H0) as [Hd _]. split; [done|].
    exists o. split; [done|]. simpl. by eapply wrap_channel_obj.
  - pose proof (wrap_guild_db _ _ _ _ H0) as [Hd _]. split; [done|].
    exists o. split; [done|]. simpl. by eapply wrap_guild_obj.
Qed.

Lemma truthy_defined v : truthy v = true → v ≠ JUndef.
Proof. by destruct v. Qed.

Lemma fill_field (k : string) (dv : jval) (data : obj) :
  dv ≠ JUndef →
  let d := if truthy (field data k) then data else <[k := dv]> data in
  ∃ v, d !! k = Some v ∧ v ≠ JUndef ∧ (truthy (field data k) = false → v = dv).
Proof.
  intros Hdv. simpl. destruct (truthy (field data k)) eqn:E.
  - unfold field in E. destruct (data !! k) as [v|] eqn:Hk; [|done].
    exists v. split; [done|]. split; [by apply truthy_defined | done].
  - exists dv. by rewrite lookup_insert_eq.
Qed.

Lemma member_fill_fields id g data :
  let d := MemberCache.fill id g data in
  (∃ v, d !! "id" = Some v ∧ v ≠ JUndef ∧ (truthy (field data "id") = false → v = JStr id))
  ∧ (∃ v, d !! "guild_id" = Some v ∧ v ≠ JUndef
          ∧ (truthy (field data "guild_id") = false → v = JStr g)).
Proof.
  simpl. unfold MemberCache.fill.
  set (d1 := if truthy (field data "guild_id") then data else <["guild_id" := JStr g]> data).
  assert (field d1 "id" = field data "id") as Hid.
  { unfold d1. destruct (truthy _); [done|]. unfold field. by rewrite lookup_insert_ne. }
  split.
  - destruct (fill_field "id" (JStr id) d1) as (v & Hv & Hd & Hf); [done|].
    exists v. split; [done|]. split; [done|]. intros H. apply Hf. by rewrite Hid.
  - destruct (fill_field "guild_id" (JStr g) data) as (v & Hv & Hd & Hf); [done|].
    fold d1 in Hv. exists v. split; [|done].
    destruct (truthy (field d1 "id")); [done|]. by rewrite lookup_insert_ne.
Qed.

(** ** The presence buffer *)

Lemma field_delete_ne (o : obj) k k' : k ≠ k' → field (delete k o) k' = field o k'.
Proof. intros H. unfold field. by rewrite lookup_delete_ne. Qed.

Lemma handlePresenceUpdate_ok p u uid w :
  field p "user" = JObj u → field u "id" = JStr uid → EventProcessor.is_inherited uid = false →
  EventProcessor.handlePresenceUpdate (JObj p) w
  = (Ok tt, set_queue (<[uid := pending_after (presenceQueue w) uid (EventProcessor.presence_entry p u uid)]>
                         (presenceQueue w)) w).
Proof.
  intros Hu Hid Hin. unfold EventProcessor.handlePresenceUpdate.
  rewrite (bind_run _ _ w p w) by done. cbv zeta.
  set (p1 := if truthy (field p "roles") then delete "roles" p else p).
  set (p2 := if truthy (field p1 "guild_id") then delete "guild_id" p1 else p1).
  assert (∀ k, k ≠ "roles" → k ≠ "guild_id" → field p2 k = field p k) as Hf.
  { intros k H1 H2. unfold p2, p1.
    repeat (destruct (truthy _)); rewrite ?field_delete_ne; done. }
  rewrite (bind_run _ _ w u w) by (unfold lift; by rewrite (Hf "user"), Hu).
  rewrite (bind_run _ _ w uid w) by (unfold lift; by rewrite Hid).
  rewrite Hin. rewrite (bind_run _ _ w (presenceQueue w) w) by done.
  unfold pending_after, EventProcessor.presence_entry. rewrite !Hf by done.
  by destruct (presenceQueue w !! uid).
Qed.

Lemma process_presence p w : EventProcessor.process (presence_event p) w = EventProcessor.handlePresenceUpdate (JObj p) w.
Proof. reflexivity. Qed.

Lemma entry_fields p u uid pending :
  assign pending (EventProcessor.presence_entry p u uid) !! "status" = Some (field p "status")
  ∧ assign pending (EventProcessor.presence_entry p u uid) !! "game" = Some (field p "game")
  ∧ assign pending (EventProcessor.presence_entry p u uid) !! "id" = Some (JStr uid)
  ∧ assign pending (EventProcessor.presence_entry p u uid) !! "user" = Some (JObj u).
Proof.
  unfold assign, EventProcessor.presence_entry. repeat split; (erewrite lookup_union_Some_l; [done|]);
   by simplify_map_eq.
Qed.

Lemma assign_entry_entry p1 u1 p2 u2 uid :
  assign (EventProcessor.presence_entry p1 u1 uid) (EventProcessor.presence_entry p2 u2 uid) = EventProcessor.presence_entry p2 u2 uid.
Proof.
  unfold assign, EventProcessor.presence_entry. apply map_eq. intros k.
  destruct (decide (k = "status")) as [->|]; [by simplify_map_eq|].
  destruct (decide (k = "game")) as [->|]; [by simplify_map_eq|].
  destruct (decide (k = "id")) as [->|]; [by simplify_map_eq|].
  destruct (decide (k = "user")) as [->|]; [by simplify_map_eq|].
  rewrite lookup_union. by simplify_map_eq.
Qed.

Lemma filter_key_absent {V} (l : list (string * V)) uid :
  uid ∉ l.*1 → filter (λ kv, kv.1 = uid) l = [].
Proof.
  induction l as [|[k v] l IH]; intros Hn; [done|].
  simpl in Hn. apply not_elem_of_cons in Hn as [Hk Hn].
  rewrite filter_cons. simpl. rewrite decide_False by done. by apply IH.
Qed.

Lemma filter_key_NoDup {V} (l : list (string * V)) uid e :
  NoDup l.*1 → (uid, e) ∈ l → filter (λ kv, kv.1 = uid) l = [(uid, e)].
Proof.
  induction l as [|[k v] l IH]; intros Hnd Hin; [by apply elem_of_nil in Hin|].
  simpl in Hnd. apply NoDup_cons in Hnd as [Hk Hnd].
  rewrite filter_cons. simpl. apply elem_of_cons in Hin as [[= <- <-]|Hin].
  - rewrite decide_True by done. f_equal. by apply filter_key_absent.
  - rewrite decide_False.
    + by apply IH.
    + intros ->. apply Hk. apply list_elem_of_fmap. by exists (uid, e).
Qed.

Lemma record_writes_app key ws1 ws2 :
  record_writes key (ws1 ++ ws2) = (record_writes key ws1 ++ record_writes key ws2)%list.
Proof. unfold record_writes. apply omap_app. Qed.

Lemma append_inj_l (p a b : string) : p +:+ a = p +:+ b → a = b.
Proof. induction p as [|c p IH]; simpl; [done|]. intros [= H]. by apply IH. Qed.

Lemma buildId_inj ns a b : BaseCache.buildId ns a = BaseCache.buildId ns b → a = b.
Proof. unfold BaseCache.buildId. intros H. by do 2 apply append_inj_l in H. Qed.

Lemma presence_key_inj a b :
  BaseCache.buildId PresenceCache.namespace a = BaseCache.buildId PresenceCache.namespace b →
  a = b.
Proof. apply buildId_inj. Qed.

Lemma record_writes_pair key a ids k o :
  record_writes key [WSadd a ids; WSet k o] = if String.eqb k key then [o] else [].
Proof. unfold record_writes. simpl. by destruct (String.eqb k key). Qed.

Lemma presence_update_inv id data w c w' :
  PresenceCache.update_unbound id data w = (Ok c, w') →
  ∃ old, writes w' = (writes w ++
           [WSadd PresenceCache.namespace [id];
            WSet (BaseCache.buildId PresenceCache.namespace id)
                 (json_roundtrip_obj (assign old (PresenceCache.strip data)))])%list
         ∧ presenceQueue w' = presenceQueue w.
Proof.
  unfold PresenceCache.update_unbound. intros H.
  apply index_upsert_inv in H as (s & old & w2 & Hne & Hs & Ho & -> & H).
  apply lift_ok_inv in H as [_ ->]. exists old. simpl. by rewrite <- app_assoc.
Qed.

Lemma flush_loop l : ∀ w w',
  for_each (fun kv => PresenceCache.update_unbound (fst kv) (snd kv) ;;; ret tt) l w
    = (Ok tt, w') →
  ∃ ws, writes w' = (writes w ++ ws)%list
        ∧ presenceQueue w' = presenceQueue w
        ∧ (∀ uid, uid ∉ l.*1 →
             record_writes (BaseCache.buildId PresenceCache.namespace uid) ws = [])
        ∧ (∀ uid e, NoDup l.*1 → (uid, e) ∈ l →
             ∃ old, record_writes (BaseCache.buildId PresenceCache.namespace uid) ws
                    = [json_roundtrip_obj (assign old (PresenceCache.strip e))]).
Proof.
  induction l as [|[k v] l IH]; intros w w' H; simpl in H.
  - apply ret_ok_inv in H as [_ ->]. exists []. rewrite app_nil_r.
    repeat split; try done. intros uid e _ Hin. by apply elem_of_nil in Hin.
  - inv_bind H. inv_bind H0. apply ret_ok_inv in H0 as [_ ->].
    apply presence_update_inv in H1 as (old & Hw & Hq).
    apply IH in H as (ws & Hws & Hq' & Habs & Hone).
    eexists (_ ++ ws)%list. split; [by rewrite Hws, Hw, <- app_assoc|].
    split; [congruence|].
    assert (∀ uid, uid ≠ k →
      record_writes (BaseCache.buildId PresenceCache.namespace uid)
        [WSadd PresenceCache.namespace [k];
         WSet (BaseCache.buildId PresenceCache.namespace k)
              (json_roundtrip_obj (assign old (PresenceCache.strip v)))] = []) as Hother.
    { intros uid Hne. rewrite record_writes_pair.
      destruct (String.eqb_spec (BaseCache.buildId PresenceCache.namespace k)
                                (BaseCache.buildId PresenceCache.namespace uid)) as [E|E];
        [|done]. apply presence_key_inj in E. congruence. }
    split.
    + intros uid Hn. simpl in Hn. apply not_elem_of_cons in Hn as [Hk Hn].
      rewrite record_writes_app, Hother by done. by apply Habs.
    + intros uid e Hnd Hin. simpl in Hnd. apply NoDup_cons in Hnd as [Hk Hnd].
      rewrite record_writes_app. apply elem_of_cons in Hin as [[= -> ->]|Hin].
      * exists old. rewrite Habs by done. rewrite record_writes_pair.
        by rewrite String.eqb_refl.
      * assert (uid ≠ k) as Hne.
        { intros ->. apply Hk. apply list_elem_of_fmap. by exists (k, e). }
        rewrite Hother by done. by apply Hone.
Qed.

(** ** Deletions *)

Lemma shrinks_refl d : shrinks d d.
Proof. intros k. destruct (d !! k) as [[o|s]|]; eauto. Qed.

Lemma shrinks_trans d1 d2 d3 : shrinks d1 d2 → shrinks d2 d3 → shrinks d1 d3.
Proof.
  intros H12 H23 k. specialize (H23 k). destruct (d3 !! k) as [[o|s3]|]; [| |done].
  - specialize (H12 k). by rewrite H23 in H12.
  - destruct H23 as (s2 & H2 & Hs). specialize (H12 k). rewrite H2 in H12.
    destruct H12 as (s1 & H1 & Hs'). exists s1. split; [done|set_solver].
Qed.

Lemma shrinks_delete d k : shrinks d (delete k d).
Proof.
  intros j. destruct (decide (j = k)) as [->|Hne].
  - by rewrite lookup_delete_eq.
  - rewrite lookup_delete_ne by done. apply shrinks_refl.
Qed.

Lemma shrinks_subset d k s s' :
  d !! k = Some (RSet s) → s' ⊆ s → shrinks d (<[k := RSet s']> d).
Proof.
  intros Hk Hs j. destruct (decide (j = k)) as [->|Hne].
  - rewrite lookup_insert_eq. eauto.
  - rewrite lookup_insert_ne by done. apply shrinks_refl.
Qed.

Lemma shrinks_set_or_none d d' k : shrinks d d' → set_or_none (d !! k) → set_or_none (d' !! k).
Proof.
  intros H Hk. specialize (H k). destruct (d' !! k) as [[o|s]|]; try done.
  by rewrite H in Hk.
Qed.

Lemma shrinks_string_or_none d d' k :
  shrinks d d' → string_or_none (d !! k) → string_or_none (d' !! k).
Proof.
  intros H Hk. specialize (H k). destruct (d' !! k) as [[o|s]|]; try done.
  destruct H as (s0 & H & _). by rewrite H in Hk.
Qed.

Lemma shrinks_none d d' k : shrinks d d' → d !! k = None → d' !! k = None.
Proof.
  intros H Hk. specialize (H k). destruct (d' !! k) as [[o|s]|]; try done.
  - congruence.
  - destruct H as (s0 & H & _). congruence.
Qed.

Lemma shrinks_members w w' idx :
  shrinks (db w) (db w') → members_at idx w' ⊆ members_at idx w.
Proof.
  intros H. specialize (H idx). unfold members_at.
  destruct (db w' !! idx) as [[o|s]|]; try set_solver.
  destruct H as (s0 & -> & Hs). done.
Qed.

Lemma same_env_refl w : same_env w w.
Proof. done. Qed.

Lemma same_env_trans w1 w2 w3 : same_env w1 w2 → same_env w2 w3 → same_env w1 w3.
Proof.
  unfold same_env. intros (H1 & H2 & H3) (H4 & H5 & H6).
  split; [congruence|]. split; congruence.
Qed.

(** One guarded removal. *)
Lemma scoped_remove_spec idx rec id w :
  rec ≠ idx → set_or_none (db w !! idx) → string_or_none (db w !! rec) →
  ∃ w', scoped_remove idx rec id w = (Ok tt, w')
        ∧ shrinks (db w) (db w')
        ∧ same_env w w'
        ∧ db w' !! rec = None
        ∧ (∀ k, k ≠ idx → k ≠ rec → db w' !! k = db w !! k)
        ∧ (is_Some (db w !! rec) → members_at idx w' = members_at idx w ∖ {[id]})
        ∧ (db w !! rec = None → db w' = db w).
Proof.
  intros Hne Hidx Hrec. unfold scoped_remove, Storage.get, Redis.GET, bind.
  destruct (db w !! rec) as [[o|s]|] eqn:Er; [|done|].
  2:{ exists w. split; [done|]. split; [apply shrinks_refl|]. split; [done|].
      split; [done|]. split; [done|]. split; [|done]. by intros [? ?]. }
  unfold Storage.removeFromList, Redis.SREM.
  destruct (db w !! idx) as [[o'|s]|] eqn:Ei; [done| |].
  - eexists. split; [reflexivity|]. simpl.
    split.
    { eapply shrinks_trans; [|apply shrinks_delete].
      case_decide; [apply shrinks_delete|]. eapply shrinks_subset; [done|set_solver]. }
    split; [done|]. split; [apply lookup_delete_eq|].
    split.
    { intros k H1 H2. rewrite lookup_delete_ne by done.
      case_decide; [by rewrite lookup_delete_ne | by rewrite lookup_insert_ne]. }
    split; [|done]. intros _. unfold members_at. simpl.
    rewrite lookup_delete_ne by done. rewrite Ei.
    case_decide as Hem.
    + rewrite lookup_delete_eq. by rewrite Hem.
    + by rewrite lookup_insert_eq.
  - eexists. split; [reflexivity|]. simpl.
    split; [apply shrinks_delete|]. split; [done|]. split; [apply lookup_delete_eq|].
    split; [intros k H1 H2; by rewrite lookup_delete_ne|].
    split; [|done]. intros _. unfold members_at. simpl.
    rewrite lookup_delete_ne by done. rewrite Ei. set_solver.
Qed.

Lemma remove_loop idx (key : string → string) :
  (∀ x y, key x = key y → x = y) →
  ∀ l w,
    NoDup l →
    (∀ x, x ∈ l → key x ≠ idx) →
    set_or_none (db w !! idx) →
    (∀ x, x ∈ l → string_or_none (db w !! key x)) →
    ∃ w', for_each (fun x => scoped_remove idx (key x) x) l w = (Ok tt, w')
          ∧ shrinks (db w) (db w')
          ∧ same_env w w'
          ∧ (∀ x, x ∈ l → db w' !! key x = None)
          ∧ (∀ k, k ≠ idx → (∀ x, x ∈ l → k ≠ key x) → db w' !! k = db w !! k)
          ∧ ((∀ x, x ∈ l → is_Some (db w !! key x)) →
             members_at idx w' = members_at idx w ∖ list_to_set l)
          ∧ (∀ y, y ∉ l → y ∈ members_at idx w → y ∈ members_at idx w').
Proof.
  intros Hinj. induction l as [|x l IH]; intros w Hnd Hne Hidx Hrec.
  { exists w. split; [done|]. split; [apply shrinks_refl|]. split; [done|].
    split; [by intros x Hx; apply elem_of_nil in Hx|]. split; [done|].
    split; [intros _; simpl; set_solver | done]. }
  apply NoDup_cons in Hnd as [Hx Hnd].
  destruct (scoped_remove_spec idx (key x) x w) as
    (w1 & H1 & Hs1 & He1 & Hn1 & Hf1 & Hm1 & Hid1).
  { apply Hne. by left. }
  { done. }
  { apply Hrec. by left. }
  assert (∀ y, y ∈ l → db w1 !! key y = db w !! key y) as Hkeep.
  { intros y Hy. apply Hf1.
    - apply Hne. by right.
    - intros E. apply Hinj in E. congruence. }
  destruct (IH w1) as (w' & H2 & Hs2 & He2 & Hn2 & Hf2 & Hm2 & Hk2).
  { done. }
  { intros y Hy. apply Hne. by right. }
  { by eapply shrinks_set_or_none. }
  { intros y Hy. rewrite Hkeep by done. apply Hrec. by right. }
  exists w'. split.
  { simpl. by rewrite (bind_run _ _ _ _ _ H1). }
  split; [by eapply shrinks_trans|]. split; [by eapply same_env_trans|].
  split.
  { intros y Hy. apply elem_of_cons in Hy as [->|Hy]; [|by apply Hn2].
    by eapply shrinks_none. }
  split.
  { intros k Hk1 Hk3. rewrite Hf2; [apply Hf1|..]; try done.
    - apply Hk3. by left.
    - intros y Hy. apply Hk3. by right. }
  split.
  { intros Hall. rewrite Hm2.
    - rewrite Hm1 by (apply Hall; by left). simpl. set_solver.
    - intros y Hy. rewrite Hkeep by done. apply Hall. by right. }
  intros y Hy Hin. apply not_elem_of_cons in Hy as [Hyx Hy].
  apply Hk2; [done|].
  destruct (db w !! key x) as [v|] eqn:Ex.
  - rewrite Hm1 by done. set_solver.
  - unfold members_at in *. by rewrite (Hid1 eq_refl).
Qed.

(** ** Scope indexes and their records *)

Lemma is_set_or_none_spec v : is_set_or_none v = true → set_or_none v.
Proof. by destruct v as [[?|?]|]. Qed.

Lemma is_string_or_none_spec v : is_string_or_none v = true → string_or_none v.
Proof. by destruct v as [[?|?]|]. Qed.

Lemma has_record_spec d k : has_record d k = true → ∃ o, d !! k = Some (RString o).
Proof. unfold has_record. destruct (d !! k) as [[o|?]|]; try done. eauto. Qed.

Lemma append_ne_self (g s : string) : s ≠ "" → g +:+ s ≠ g.
Proof.
  intros Hs. induction g as [|c g IH]; simpl; [done|]. intros [= H]. by apply IH.
Qed.

Lemma scopedId_inj ns g x y :
  BaseCache.scopedId ns x g = BaseCache.scopedId ns y g → x = y.
Proof.
  unfold BaseCache.scopedId, BaseCache.buildId. destruct (truthy_os g); intros H.
  - by do 4 apply append_inj_l in H.
  - by do 2 apply append_inj_l in H.
Qed.

Lemma for_each_ext {A} (f g : A → M unit) l w :
  (∀ x w, f x w = g x w) → for_each f l w = for_each g l w.
Proof.
  intros H. revert w. induction l as [|x l IH]; intros w; simpl; [done|].
  unfold bind. rewrite H. destruct (g x w) as [[[]|e] w1]; auto.
Qed.

Lemma getListMembers_spec idx w :
  set_or_none (db w !! idx) →
  Storage.getListMembers idx w = (Ok (elements (members_at idx w)), w).
Proof.
  unfold Storage.getListMembers, Redis.SMEMBERS, members_at.
  destruct (db w !! idx) as [[o|s]|]; done.
Qed.

Lemma strs_of_strings l : strs_of (JStr <$> l) = Ok l.
Proof. induction l as [|x l IH]; [done|]. rewrite fmap_cons. simpl. by rewrite IH. Qed.

Lemma index_has_records_spec ns id w :
  index_has_records ns id w = true →
  set_or_none (db w !! BaseCache.buildId ns id)
  ∧ ∀ x, x ∈ elements (members_at (BaseCache.buildId ns id) w) →
         ∃ o, db w !! BaseCache.scopedId ns x (Some id) = Some (RString o).
Proof.
  unfold index_has_records. intros [H1 H2]%andb_prop. split.
  - by apply is_set_or_none_spec.
  - intros x Hx. apply has_record_spec. rewrite forallb_forall in H2. apply H2.
    by apply list_elem_of_In.
Qed.

Lemma record_ne_index ns id w x :
  index_has_records ns id w = true →
  x ∈ elements (members_at (BaseCache.buildId ns id) w) →
  BaseCache.scopedId ns x (Some id) ≠ BaseCache.buildId ns id.
Proof.
  intros H Hx. destruct (index_has_records_spec _ _ _ H) as [Hs Hr].
  destruct (Hr x Hx) as [o Ho]. intros E. rewrite E in Ho. by rewrite Ho in Hs.
Qed.

(** Emptying one scope index by guarded removals. *)
Lemma scope_emptied ns id w0 w :
  index_has_records ns id w0 = true →
  shrinks (db w0) (db w) →
  (∀ x, x ∈ elements (members_at (BaseCache.buildId ns id) w0) →
        db w !! BaseCache.scopedId ns x (Some id) = db w0 !! BaseCache.scopedId ns x (Some id)) →
  ∃ w', for_each (fun x => scoped_remove (BaseCache.buildId ns id)
                             (BaseCache.scopedId ns x (Some id)) x)
                 (elements (members_at (BaseCache.buildId ns id) w0)) w = (Ok tt, w')
        ∧ shrinks (db w) (db w')
        ∧ same_env w w'
        ∧ members_at (BaseCache.buildId ns id) w' = ∅
        ∧ (∀ k, k ≠ BaseCache.buildId ns id →
                (∀ x, k ≠ BaseCache.scopedId ns x (Some id)) → db w' !! k = db w !! k).
Proof.
  intros Hc Hs Hkeep. destruct (index_has_records_spec _ _ _ Hc) as [Hi Hr].
  destruct (remove_loop (BaseCache.buildId ns id)
              (fun x => BaseCache.scopedId ns x (Some id))
              (fun x y => scopedId_inj ns (Some id) x y)
              (elements (members_at (BaseCache.buildId ns id) w0)) w)
    as (w' & H & Hs' & He & Hn & Hf & Hm & _).
  - apply NoDup_elements.
  - intros x Hx. by eapply record_ne_index.
  - by eapply shrinks_set_or_none.
  - intros x Hx. rewrite Hkeep by done. destruct (Hr x Hx) as [o ->]. done.
  - exists w'. split; [done|]. split; [done|]. split; [done|]. split.
    + rewrite Hm.
      * pose proof (shrinks_members w0 w (BaseCache.buildId ns id) Hs). 
        apply set_eq. intros y. rewrite elem_of_difference, elem_of_list_to_set,
          elem_of_elements. set_solver.
      * intros x Hx. rewrite Hkeep by done. destruct (Hr x Hx) as [o ->]. eauto.
    + intros k H1 H2. apply Hf; [done|]. intros x _. apply H2.
Qed.

(** ** Removing a guild *)

Lemma plain_buildMap id l type :
  BaseCache.plain ChannelMapCache.reserved (ChannelMapCache._buildMap id l type) = true.
Proof. reflexivity. Qed.

Lemma channels_of_buildMap id l type bg bc :
  ChannelMapCache.channels_of
    (Some (Inst (bound (ChannelMapCache._buildMap id l type) bg bc))) = Ok l.
Proof.
  unfold ChannelMapCache.channels_of. simpl.
  change (field (ChannelMapCache._buildMap id l type) "channels") with (JArr (JStr <$> l)).
  apply strs_of_strings.
Qed.

Lemma ChannelMapCache_get_spec bg id type w :
  set_or_none (db w !! ChannelMapCache.mapKey id type) →
  ChannelMapCache.get (root bg) id type w
  = (Ok (Some (Inst (bound (ChannelMapCache._buildMap id
                              (elements (members_at (ChannelMapCache.mapKey id type) w)) type)
                           None None))), w).
Proof.
  intros H. unfold ChannelMapCache.get. simpl.
  rewrite (bind_run _ _ _ _ _ (getListMembers_spec _ _ H)).
  unfold ChannelMapCache.construct, BaseCache.construct, BaseCache.bindObject.
  rewrite plain_buildMap. reflexivity.
Qed.

Lemma unindex_delete_runs idx id rec w :
  set_or_none (db w !! idx) →
  ∃ w', (Storage.removeFromList idx id ;;; Storage.remove rec) w = (Ok tt, w')
        ∧ shrinks (db w) (db w')
        ∧ db w' !! rec = None.
Proof.
  intros H. unfold Storage.removeFromList, Redis.SREM, Storage.remove, Redis.DEL, bind.
  destruct (db w !! idx) as [[o|s]|] eqn:E; [done| |].
  - eexists. split; [reflexivity|]. simpl. split; [|apply lookup_delete_eq].
    eapply shrinks_trans; [|apply shrinks_delete].
    case_decide; [apply shrinks_delete|]. eapply shrinks_subset; [done|set_solver].
  - eexists. split; [reflexivity|]. simpl. split; [apply shrinks_delete|apply lookup_delete_eq].
Qed.

Lemma empty_index_lists_nothing idx w0 w :
  set_or_none (db w0 !! idx) → shrinks (db w0) (db w) → members_at idx w0 = ∅ →
  Storage.getListMembers idx w = (Ok [], w).
Proof.
  intros Ht Hs He. rewrite getListMembers_spec by (by eapply shrinks_set_or_none).
  pose proof (shrinks_members w0 w idx Hs) as Hsub.
  assert (members_at idx w = ∅) as -> by set_solver. by rewrite elements_empty.
Qed.

Lemma scopedId_form ns x g : ∃ s, BaseCache.scopedId ns x g = BaseCache.buildId ns s.
Proof. unfold BaseCache.scopedId. destruct (truthy_os g); eauto. Qed.

Ltac keys_ne :=
  let E := fresh "E" in
  intros E;
  repeat match type of E with
         | context [BaseCache.scopedId ?ns ?x ?g] =>
             let s := fresh "s" in
             let Hs := fresh "Hs" in
             destruct (scopedId_form ns x g) as [s Hs]; rewrite Hs in E; clear Hs
         end;
  cbv in E; discriminate E.

Lemma channel_key_inj x y : ChannelCache.buildId x = ChannelCache.buildId y → x = y.
Proof. apply buildId_inj. Qed.

(** ** Replacing the emoji list of a guild *)

Lemma has_id_spec o x : has_id o x = true → field o "id" = JStr x.
Proof.
  unfold has_id. destruct (field o "id"); try done.
  intros H. apply String.eqb_eq in H. by subst.
Qed.

Lemma emoji_object_spec o x :
  emoji_object o x = true →
  BaseCache.plain EmojiCache.reserved o = true ∧ field o "id" = JStr x.
Proof. intros [H1 H2]%andb_prop. split; [done|by apply has_id_spec]. Qed.

Lemma emoji_key_ne_index g x :
  truthy_os (Some g) = true → EmojiCache.buildId x (Some g) ≠ emoji_index g.
Proof.
  intros Hg. unfold EmojiCache.buildId, BaseCache.scopedId, emoji_index, BaseCache.buildId.
  rewrite Hg. simpl tpl. intros E. do 2 apply append_inj_l in E.
  by apply append_ne_self in E.
Qed.

Lemma append_assoc (a b c : string) : (a +:+ b) +:+ c = a +:+ (b +:+ c).
Proof.
  induction a as [|x a IH]; [done|].
  change (String x ((a +:+ b) +:+ c) = String x (a +:+ (b +:+ c))). by rewrite IH.
Qed.

Lemma emoji_filter_key g x :
  truthy_os (Some g) = true →
  emoji_index g +:+ "." +:+ x = EmojiCache.buildId x (Some g).
Proof.
  intros Hg. unfold EmojiCache.buildId, BaseCache.scopedId, emoji_index, BaseCache.buildId.
  rewrite Hg. simpl tpl. by rewrite !append_assoc.
Qed.

Lemma has_emoji_spec g w x :
  has_emoji g w x = true →
  ∃ o, db w !! EmojiCache.buildId x (Some g) = Some (RString o)
       ∧ BaseCache.plain EmojiCache.reserved o = true ∧ field o "id" = JStr x.
Proof.
  unfold has_emoji. destruct (db w !! _) as [[o|?]|]; try done.
  intros H%emoji_object_spec. eauto.
Qed.

Lemma emojis_cached_spec g w :
  emojis_cached g w = true →
  truthy_os (Some g) = true
  ∧ set_or_none (db w !! emoji_index g)
  ∧ ∀ x, x ∈ elements (members_at (emoji_index g) w) → has_emoji g w x = true.
Proof.
  unfold emojis_cached. intros [[H1 H2]%andb_prop H3]%andb_prop.
  split; [done|]. split; [by apply is_set_or_none_spec|].
  intros x Hx. rewrite forallb_forall in H3. apply H3. by apply list_elem_of_In.
Qed.

Lemma load_emojis g w l :
  truthy_os (Some g) = true →
  (∀ x, x ∈ l → has_emoji g w x = true) →
  ∃ os, map_m (fun id => Storage.get (emoji_index g +:+ "." +:+ id)) l w = (Ok (Some <$> os), w)
        ∧ Forall2 (fun o x => BaseCache.plain EmojiCache.reserved o = true
                              ∧ field o "id" = JStr x) os l.
Proof.
  intros Hg. induction l as [|x l IH]; intros Hl.
  { exists []. by split. }
  destruct IH as (os & Hos & Hf); [intros y Hy; apply Hl; by right|].
  destruct (has_emoji_spec g w x) as (o & Ho & Hp & Hi); [apply Hl; by left|].
  exists (o :: os). split; [|by constructor].
  simpl. rewrite (bind_run _ _ w (Some o) w).
  2:{ rewrite emoji_filter_key by done. unfold Storage.get, Redis.GET. by rewrite Ho. }
  by rewrite (bind_run _ _ _ _ _ Hos).
Qed.

Lemma wrap_emojis os l :
  Forall2 (fun o x => BaseCache.plain EmojiCache.reserved o = true ∧ field o "id" = JStr x) os l →
  ∃ cs, foldr (fun e acc =>
                 match EmojiCache.construct e, acc with
                 | Ok c, Ok cs => Ok (c :: cs)
                 | Err x, _ => Err x
                 | _, Err x => Err x
                 end) (Ok []) (Some <$> os) = Ok cs
        ∧ Forall2 (fun c x => EventProcessor.inst_id c = JStr x) cs l.
Proof.
  induction 1 as [|o x os l [Hp Hi] _ (cs & Hcs & Hf)].
  { exists []. by split. }
  exists (bound o None None :: cs). split; [|by constructor].
  rewrite fmap_cons. simpl. rewrite Hcs.
  unfold EmojiCache.construct, BaseCache.construct, BaseCache.bindObject. by rewrite Hp.
Qed.

Lemma filter_all {A} (l : list A) : List.filter (fun _ => true) l = l.
Proof. induction l as [|x l IH]; simpl; [done|]. by rewrite IH. Qed.

Lemma EmojiCache_filter_spec g w self :
  emojis_cached g w = true →
  ∃ cs, EmojiCache.filter self (fun _ => true) (Some g) None w = (Ok cs, w)
        ∧ Forall2 (fun c x => EventProcessor.inst_id c = JStr x) cs
                  (elements (members_at (emoji_index g) w)).
Proof.
  intros (Hg & Hs & Hr)%emojis_cached_spec.
  destruct (load_emojis g w _ Hg Hr) as (os & Hos & Hf).
  destruct (wrap_emojis _ _ Hf) as (cs & Hcs & Hc).
  exists cs. split; [|done].
  unfold EmojiCache.filter, Storage.filter. simpl dflt. simpl tpl.
  change (BaseCache.buildId EmojiCache.namespace g) with (emoji_index g).
  rewrite (bind_run _ _ w (Some <$> os) w).
  2:{ rewrite (bind_run _ _ _ _ _ (getListMembers_spec _ _ Hs)).
      rewrite (bind_run _ _ _ _ _ Hos). by rewrite filter_all. }
  unfold lift. by rewrite Hcs.
Qed.

Lemma emoji_update_step g e x w :
  truthy_os (Some g) = true →
  emoji_object e x = true →
  set_or_none (db w !! emoji_index g) →
  string_or_none (db w !! EmojiCache.buildId x (Some g)) →
  ∃ w', (o <- lift (as_obj (JObj e)) ;;
         eid <- lift (as_str (field o "id")) ;;
         ec <- gets root_emoji ;;
         EmojiCache.update_unbound ec eid (Some g) o ;;; ret tt) w = (Ok tt, w')
        ∧ db w' !! emoji_index g = Some (RSet ({[x]} ∪ members_at (emoji_index g) w))
        ∧ record_holds w' (EmojiCache.buildId x (Some g)) e
        ∧ (∀ k, k ≠ emoji_index g → k ≠ EmojiCache.buildId x (Some g) →
                db w' !! k = db w !! k).
Proof.
  intros Hg [Hp Hi]%emoji_object_spec Hs Hr.
  pose proof (emoji_key_ne_index g x Hg) as Hne.
  unfold EmojiCache.update_unbound, BaseCache.addToIndex, BaseCache.indexKey.
  simpl as_obj. unfold lift at 1. unfold bind at 1. rewrite Hi. simpl as_str.
  unfold lift at 1. unfold bind at 1. unfold gets at 1. unfold bind at 1.
  simpl dflt. simpl tpl.
  change (BaseCache.buildId EmojiCache.namespace g) with (emoji_index g).
  set (key := EmojiCache.buildId x (Some g)) in *.
  unfold Storage.addToList, Redis.SADD, Storage.upsert, Storage.get, Redis.GET, Redis.SET,
    EmojiCache.construct, BaseCache.construct, BaseCache.bindObject, lift, bind, ret.
  rewrite Hp. unfold members_at, record_holds.
  destruct (db w !! emoji_index g) as [[o|s]|] eqn:Ei; [done|..]; simpl db;
    rewrite (lookup_insert_ne _ (emoji_index g) key) by done;
    (destruct (db w !! key) as [[o|s']|] eqn:Ek; [|done|]);
    (eexists; split; [reflexivity|]); simpl db;
    rewrite lookup_insert_eq, (lookup_insert_ne _ key (emoji_index g)) by done;
    rewrite lookup_insert_eq.
  all: split; [f_equal; f_equal; set_solver|].
  all: split; [eexists; split; [reflexivity|]; intros f v Hf Hv; by apply stored_field|].
  all: intros k Hk1 Hk2; by rewrite !lookup_insert_ne.
Qed.

Lemma emoji_key_inj g x y :
  EmojiCache.buildId x (Some g) = EmojiCache.buildId y (Some g) → x = y.
Proof. apply scopedId_inj. Qed.

Lemma emoji_update_loop g :
  truthy_os (Some g) = true →
  ∀ L ids, Forall2 (fun e x => emoji_object e x = true) L ids →
  ∀ w,
    NoDup ids →
    set_or_none (db w !! emoji_index g) →
    (∀ x, x ∈ ids → string_or_none (db w !! EmojiCache.buildId x (Some g))) →
    ∃ w', for_each (fun emoji =>
                      o <- lift (as_obj emoji) ;;
                      eid <- lift (as_str (field o "id")) ;;
                      ec <- gets root_emoji ;;
                      EmojiCache.update_unbound ec eid (Some g) o ;;; ret tt)
                   (JObj <$> L) w = (Ok tt, w')
          ∧ set_or_none (db w' !! emoji_index g)
          ∧ members_at (emoji_index g) w' = list_to_set ids ∪ members_at (emoji_index g) w
          ∧ Forall2 (fun e x => record_holds w' (EmojiCache.buildId x (Some g)) e) L ids
          ∧ (∀ k, k ≠ emoji_index g → (∀ x, x ∈ ids → k ≠ EmojiCache.buildId x (Some g)) →
                  db w' !! k = db w !! k).
Proof.
  intros Hg. induction 1 as [|e x L ids He _ IH]; intros w Hnd Hs Hr.
  { exists w. split; [done|]. split; [done|]. split; [set_solver|]. by split. }
  apply NoDup_cons in Hnd as [Hx Hnd].
  destruct (emoji_update_step g e x w) as (w1 & H1 & Hi1 & Hh1 & Hf1); [done..| |].
  { apply Hr. by left. }
  assert (∀ y, y ∈ ids → db w1 !! EmojiCache.buildId y (Some g)
                          = db w !! EmojiCache.buildId y (Some g)) as Hkeep.
  { intros y Hy. apply Hf1; [by apply emoji_key_ne_index|].
    intros E%emoji_key_inj. congruence. }
  destruct (IH w1) as (w' & H2 & Hs2 & Hm2 & Hh2 & Hf2).
  { done. }
  { by rewrite Hi1. }
  { intros y Hy. rewrite Hkeep by done. apply Hr. by right. }
  exists w'. split.
  { rewrite fmap_cons. simpl for_each. by rewrite (bind_run _ _ _ _ _ H1). }
  split; [done|]. split.
  { rewrite Hm2. unfold members_at at 1. rewrite Hi1. simpl. set_solver. }
  split.
  { constructor; [|done]. destruct Hh1 as (r & Hr1 & Hfields). exists r. split; [|done].
    rewrite Hf2; [done|by apply emoji_key_ne_index|].
    intros y Hy E%emoji_key_inj. congruence. }
  intros k Hk1 Hk2. rewrite Hf2; [apply Hf1|..]; try done.
  - apply Hk2. by left.
  - intros y Hy. apply Hk2. by right.
Qed.

Lemma find_new_emote L ids x :
  Forall2 (fun e y => emoji_object e y = true) L ids →
  ∃ r, foldr (fun e acc =>
                match as_obj e, acc with
                | Ok o, Ok found =>
                    Ok (if strict_eq (field o "id") (JStr x) then Some o else found)
                | Err x, _ => Err x
                | _, Err x => Err x
                end) (Ok None) (JObj <$> L) = Ok r
       ∧ (r = None ↔ x ∉ ids).
Proof.
  induction 1 as [|e y L ids [_ Hi]%emoji_object_spec _ (r & Hr & Hiff)].
  { exists None. split; [done|]. split; [intros _; apply not_elem_of_nil|done]. }
  rewrite fmap_cons. simpl. rewrite Hr, Hi. simpl.
  destruct (String.eqb_spec y x) as [->|Hne].
  - eexists. split; [done|]. split; [done|]. intros H. exfalso. apply H. by left.
  - exists r. split; [done|]. rewrite Hiff. rewrite not_elem_of_cons. naive_solver.
Qed.

Lemma for_each_Forall2 {A B} (R : A → B → Prop) (f : A → M unit) (g : B → M unit) l1 l2 :
  Forall2 R l1 l2 →
  (∀ a b w, R a b → f a w = g b w) →
  ∀ w, for_each f l1 w = for_each g l2 w.
Proof.
  intros H Hfg. induction H as [|a b l1 l2 Hab _ IH]; intros w; simpl; [done|].
  unfold bind. rewrite (Hfg a b w Hab). destruct (g b w) as [[[]|e] w1]; auto.
Qed.

Lemma for_each_skip (ids : list string) (f : string → M unit) l w :
  for_each (fun x => if bool_decide (x ∈ ids) then ret tt else f x) l w
  = for_each f (filter (fun x => x ∉ ids) l) w.
Proof.
  revert w. induction l as [|x l IH]; intros w; [done|].
  simpl for_each. destruct (decide (x ∈ ids)) as [Hx|Hx].
  - rewrite bool_decide_eq_true_2 by done. rewrite filter_cons_False by naive_solver.
    unfold bind, ret. apply IH.
  - rewrite bool_decide_eq_false_2 by done. rewrite filter_cons_True by done.
    simpl. unfold bind. destruct (f x w) as [[[]|e] w1]; auto.
Qed.

Lemma remove_old_step g L ids c x w :
  Forall2 (fun e y => emoji_object e y = true) L ids →
  EventProcessor.inst_id c = JStr x →
  (newEmote <- lift (foldr (fun e acc =>
                              match as_obj e, acc with
                              | Ok o, Ok found =>
                                  Ok (if strict_eq (field o "id") (EventProcessor.inst_id c)
                                      then Some o else found)
                              | Err x, _ => Err x
                              | _, Err x => Err x
                              end) (Ok None) (JObj <$> L)) ;;
   match newEmote with
   | Some _ => ret tt
   | None =>
       oid <- lift (as_str (EventProcessor.inst_id c)) ;;
       ec <- gets root_emoji ;;
       EmojiCache.remove_unbound ec oid (Some g)
   end) w
  = (if bool_decide (x ∈ ids) then ret tt
     else scoped_remove (emoji_index g) (EmojiCache.buildId x (Some g)) x) w.
Proof.
  intros HL ->. destruct (find_new_emote L ids x HL) as (r & -> & Hiff).
  unfold lift at 1. unfold bind at 1.
  destruct r as [o|].
  - rewrite bool_decide_eq_true_2; [done|].
    destruct (decide (x ∈ ids)); [done|]. by apply Hiff in n.
  - rewrite bool_decide_eq_false_2 by (by apply Hiff). reflexivity.
Qed.

Lemma isListMember_spec idx x w :
  set_or_none (db w !! idx) →
  Storage.isListMember idx x w = (Ok (bool_decide (x ∈ members_at idx w)), w).
Proof.
  unfold Storage.isListMember, Redis.SISMEMBER, members_at.
  destruct (db w !! idx) as [[o|s]|]; done.
Qed.

Lemma Forall2_elem_of_r {A B} (R : A → B → Prop) l k :
  Forall2 R l k → Forall2 (fun a b => R a b ∧ b ∈ k) l k.
Proof.
  intros H. apply Forall2_same_length_lookup. split; [by eapply Forall2_length|].
  intros i a b Ha Hb. split.
  - by eapply Forall2_lookup_lr.
  - by eapply list_elem_of_lookup_2.
Qed.

(** The emoji-list-replace event on a consistent emoji index. *)
Lemma emojis_update_spec g L ids w :
  emojis_cached g w = true →
  Forall2 (fun e x => emoji_object e x = true) L ids →
  NoDup ids →
  (∀ x, x ∈ ids → string_or_none (db w !! EmojiCache.buildId x (Some g))) →
  ∃ w', EventProcessor.process (emojis_update_event g L) w = (Ok tt, w')
        ∧ set_or_none (db w' !! emoji_index g)
        ∧ members_at (emoji_index g) w' = list_to_set ids
        ∧ Forall2 (fun e x => record_holds w' (EmojiCache.buildId x (Some g)) e) L ids
        ∧ (∀ x, x ∈ members_at (emoji_index g) w → x ∉ ids →
                db w' !! EmojiCache.buildId x (Some g) = None).
Proof.
  intros Hc HL Hnd Hnew.
  destruct (emojis_cached_spec _ _ Hc) as (Hg & Hs & Hr).
  destruct (EmojiCache_filter_spec g w (root_emoji w) Hc) as (cs & Hcs & Hids).
  destruct (emoji_update_loop g Hg L ids HL w Hnd Hs Hnew)
    as (w1 & H1 & Hs1 & Hm1 & Hh1 & Hf1).
  set (S := members_at (emoji_index g) w) in *.
  set (l := filter (fun x => x ∉ ids) (elements S)).
  assert (∀ x, x ∈ l → x ∈ S ∧ x ∉ ids) as Hl.
  { intros x [H1' H2']%list_elem_of_filter. split; [by apply elem_of_elements|done]. }
  assert (∀ x, x ∈ l → is_Some (db w1 !! EmojiCache.buildId x (Some g))) as Hrec.
  { intros x [HxS Hx]%Hl. rewrite Hf1.
    - destruct (has_emoji_spec g w x) as (o & -> & _); [|done].
      apply Hr. by apply elem_of_elements.
    - by apply emoji_key_ne_index.
    - intros y Hy E%emoji_key_inj. congruence. }
  destruct (remove_loop (emoji_index g) (fun x => EmojiCache.buildId x (Some g))
              (emoji_key_inj g) l w1)
    as (w' & H2 & Hsh & _ & Hn & Hf2 & Hm2 & _).
  { apply NoDup_filter, NoDup_elements. }
  { intros x _. by apply emoji_key_ne_index. }
  { done. }
  { intros x Hx. destruct (Hrec x Hx) as [[o|s] Ho]; rewrite Ho; [done|].
    rewrite Hf1 in Ho.
    - destruct (has_emoji_spec g w x) as (o & Ho' & _); [|congruence].
      apply Hr. apply elem_of_elements. by apply Hl.
    - by apply emoji_key_ne_index.
    - intros y Hy E%emoji_key_inj. apply Hl in Hx as [_ Hx]. congruence. }
  exists w'. split.
  { change (EventProcessor.process (emojis_update_event g L) w)
      with (EventProcessor.emojis_update
              (object [("guild_id", JStr g); ("emojis", JArr (JObj <$> L))]) w).
    unfold EventProcessor.emojis_update.
    rewrite (bind_run _ _ w (Some g) w) by reflexivity.
    rewrite (bind_run _ _ w (root_emoji w) w) by reflexivity.
    rewrite (bind_run _ _ _ _ _ Hcs).
    rewrite (bind_run _ _ w (JObj <$> L) w) by reflexivity.
    rewrite (bind_run _ _ _ _ _ H1).
    rewrite <- H2. unfold l. rewrite <- for_each_skip.
    apply (for_each_Forall2 (fun c x => EventProcessor.inst_id c = JStr x)); [done|].
    intros c x w0 Hcx. by apply remove_old_step. }
  split; [exact (shrinks_set_or_none _ _ _ Hsh Hs1)|].
  split.
  { rewrite Hm2 by done. rewrite Hm1. apply set_eq. intros y.
    rewrite elem_of_difference, elem_of_union, !elem_of_list_to_set.
    unfold l. rewrite list_elem_of_filter, elem_of_elements.
    destruct (decide (y ∈ ids)); naive_solver. }
  split.
  { eapply Forall2_impl; [apply Forall2_elem_of_r, Hh1|].
    intros e x [(r & Hr1 & Hfields) Hx]. exists r. split; [|done].
    rewrite Hf2; [done|by apply emoji_key_ne_index|].
    intros y [_ Hy]%Hl E%emoji_key_inj. congruence. }
  intros x HxS Hx. apply Hn. apply list_elem_of_filter. split; [done|].
  by apply elem_of_elements.
Qed.

(** ** A flush that completes *)

Lemma presence_entry_plain p u uid :
  BaseCache.plain PresenceCache.reserved
    (PresenceCache.strip (EventProcessor.presence_entry p u uid)) = true.
Proof. reflexivity. Qed.

Lemma presence_update_runs id data w :
  set_or_none (db w !! PresenceCache.namespace) →
  string_or_none (db w !! BaseCache.buildId PresenceCache.namespace id) →
  BaseCache.plain PresenceCache.reserved (PresenceCache.strip data) = true →
  ∃ c w' old,
    PresenceCache.update_unbound id data w = (Ok c, w')
    ∧ db w' !! BaseCache.buildId PresenceCache.namespace id
      = Some (RString (json_roundtrip_obj (assign old (PresenceCache.strip data))))
    ∧ id ∈ members_at PresenceCache.namespace w'
    ∧ writes w' = (writes w ++
        [WSadd PresenceCache.namespace [id];
         WSet (BaseCache.buildId PresenceCache.namespace id)
              (json_roundtrip_obj (assign old (PresenceCache.strip data)))])%list
    ∧ presenceQueue w' = presenceQueue w.
Proof.
  intros Hs Hr Hp.
  assert (BaseCache.buildId PresenceCache.namespace id ≠ PresenceCache.namespace) as Hne.
  { unfold BaseCache.buildId. by apply append_ne_self. }
  set (key := BaseCache.buildId PresenceCache.namespace id) in *.
  unfold PresenceCache.update_unbound.
  unfold Storage.addToList, Redis.SADD, Storage.upsert, Storage.get, Redis.GET, Redis.SET,
    BaseCache.construct, BaseCache.bindObject, lift, bind, ret.
  rewrite Hp. unfold members_at.
  destruct (db w !! PresenceCache.namespace) as [[o|s]|] eqn:Ei; [done|..]; simpl db;
    rewrite (lookup_insert_ne _ PresenceCache.namespace key) by done;
    (destruct (db w !! key) as [[o|s']|] eqn:Ek; [|done|]);
    (eexists _, _, _; split; [reflexivity|]); simpl db;
    rewrite lookup_insert_eq, (lookup_insert_ne _ key PresenceCache.namespace) by done;
    rewrite lookup_insert_eq.
  all: split; [reflexivity|].
  all: split; [set_solver|].
  all: split; [simpl; by rewrite <- app_assoc|done].
Qed.

Lemma flush_one uid e w :
  presenceQueue w = {[uid := e]} →
  set_or_none (db w !! PresenceCache.namespace) →
  string_or_none (db w !! BaseCache.buildId PresenceCache.namespace uid) →
  BaseCache.plain PresenceCache.reserved (PresenceCache.strip e) = true →
  ∃ w' old,
    EventProcessor.flushQueue w = (Ok tt, w')
    ∧ presenceQueue w' = ∅
    ∧ db w' !! BaseCache.buildId PresenceCache.namespace uid
      = Some (RString (json_roundtrip_obj (assign old (PresenceCache.strip e))))
    ∧ uid ∈ members_at PresenceCache.namespace w'
    ∧ writes w' = (writes w ++
        [WSadd PresenceCache.namespace [uid];
         WSet (BaseCache.buildId PresenceCache.namespace uid)
              (json_roundtrip_obj (assign old (PresenceCache.strip e)))])%list.
Proof.
  intros Hq Hs Hr Hp.
  destruct (presence_update_runs uid e (set_queue ∅ w) Hs Hr Hp)
    as (c & w' & old & H & Hdoc & Hin & Hw & Hq').
  exists w', old. split.
  { unfold EventProcessor.flushQueue, gets, modify, bind, EventProcessor.flush_batch.
    rewrite Hq, map_to_list_singleton. simpl. unfold bind. by rewrite H. }
  done.
Qed.

(** * The claims *)

(** C1 (fails on the code).  The dispatcher hands the role-removal event to
    the role cache with the two arguments exchanged: the guild id takes the
    place of the role id and the role id the place of the guild id.  After
    role [r1] of guild [g1] has been cached by a role-create event, the
    role-removal event for [(r1, g1)] returns without a single write: the
    record of [r1] under [g1] and its index entry are still there. *)
Theorem C1_role_delete_swaps_id_and_scope :
  (∀ guild_id role_id w,
     EventProcessor.process (role_delete_event guild_id role_id) w
     = RoleCache.remove 1 (root_role w) guild_id (Some role_id) w) ∧
  let role := object [("id", JStr "r1"); ("name", JStr "admin")] in
  let w1 := exec (EventProcessor.process (role_create_event "g1" role)) initial_world in
  EventProcessor.process (role_delete_event "g1" "r1") w1 = (Ok tt, w1) ∧
  db w1 !! RoleCache.buildId "r1" (Some "g1")
    = Some (RString (object [("id", JStr "r1"); ("name", JStr "admin");
                             ("guild_id", JStr "g1")])) ∧
  RoleCache.isIndexed (root None) "r1" (Some "g1") w1 = (Ok true, w1).
Proof.
  split; [reflexivity|].
  repeat split; vm_compute; reflexivity.
Qed.

(** C2 (fails on the code).  On an instance bound to an object, [update]
    binds the new data and calls itself again on the same, still bound,
    instance: whatever the fuel, the call never returns and never reaches the
    storage, for every cache class.  In particular the instance obtained by
    [get] for emoji [e1] of guild [g1] does not change the record at
    [(e1, g1)] when its [update] is called. *)
Theorem C2_bound_update_never_returns :
  (∀ fuel o bg bc id g data w,
     stuck (EmojiCache.update fuel (bound o bg bc) id g data w) w) ∧
  (∀ fuel o bg bc id g data w,
     stuck (RoleCache.update fuel (bound o bg bc) id g data w) w) ∧
  (∀ fuel o bg bc id g data w,
     stuck (MemberCache.update fuel (bound o bg bc) id g data w) w) ∧
  (∀ fuel o bg bc id g data w,
     stuck (PermissionOverwriteCache.update fuel (bound o bg bc) id g data w) w) ∧
  (∀ fuel o bg bc id data type rm w,
     stuck (ChannelMapCache.update fuel (bound o bg bc) id data type rm w) w) ∧
  (∀ fuel o bg bc id data w,
     stuck (ChannelCache.update fuel (bound o bg bc) id data w) w) ∧
  (∀ fuel o bg bc id data w,
     stuck (GuildCache.update fuel (bound o bg bc) id data w) w) ∧
  let smile := object [("id", JStr "e1"); ("name", JStr "smile")] in
  let w1 := exec (EmojiCache.update 1 (root None) "e1" (Some "g1") smile) initial_world in
  EmojiCache.get (root None) "e1" (Some "g1") w1
    = (Ok (Some (Inst (bound smile None None))), w1) ∧
  ∀ fuel, EmojiCache.update fuel (bound smile None None) "e2" (Some "g2")
            (object [("name", JStr "grin")]) w1 = (Err OutOfFuel, w1).
Proof.
  split; [intros; apply EmojiCache_update_bound|].
  split; [intros; apply RoleCache_update_bound|].
  split; [intros; apply MemberCache_update_bound|].
  split; [intros; apply PermissionOverwriteCache_update_bound|].
  split; [intros; apply ChannelMapCache_update_bound|].
  split; [intros; apply ChannelCache_update_bound|].
  split; [intros; apply GuildCache_update_bound|].
  split; [vm_compute; reflexivity|].
  intros fuel. apply EmojiCache_update_bound_plain. vm_compute. reflexivity.
Qed.

(** C8 (amended).  An unbound [update] of the member cache whose guild id is
    empty or missing (argument and bound default alike), and an unbound
    [update] of the role cache whose guild id is empty or missing, are
    rejected at once: the world, the list of executed writes included, is the
    one the call started from. *)
Theorem C8_missing_scope_is_rejected fuel self id guildId data w :
  boundObject self = None →
  (truthy_os (dflt guildId (boundGuild self)) = false →
     MemberCache.update (S fuel) self id guildId data w
     = (Err (Rejected ("Empty guild id for member " +:+ id)), w)) ∧
  (truthy_os guildId = false →
     RoleCache.update (S fuel) self id guildId data w
     = (Err (Rejected "Missing guild id"), w)).
Proof.
  intros Hu. split; intros H; simpl; rewrite Hu.
  - unfold MemberCache.update_unbound.
    assert (dflt (dflt guildId (boundGuild self)) (boundGuild self)
            = dflt guildId (boundGuild self)) as ->
      by (by destruct guildId, (boundGuild self)).
    by rewrite H.
  - unfold RoleCache.update_unbound. by rewrite H.
Qed.

Lemma C8_missing_scope_is_rejected_witness :
  MemberCache.update 1 (root (Some "")) "u1" None ∅ initial_world
    = (Err (Rejected "Empty guild id for member u1"), initial_world)
  ∧ RoleCache.update 1 (root None) "r1" (Some "") ∅ initial_world
    = (Err (Rejected "Missing guild id"), initial_world).
Proof.
  split.
  - apply (C8_missing_scope_is_rejected 0 (root (Some "")) "u1" None ∅ initial_world);
      reflexivity.
  - apply (C8_missing_scope_is_rejected 0 (root None) "r1" (Some "") ∅ initial_world);
      reflexivity.
Defined.

(** C8, as stated for every cache with a parent scope, fails for the emoji
    cache: an unbound [update] that gets no guild id from its argument, from
    the data or from the instance completes; it lists the emoji under the
    index key [emoji.undefined] and stores it at [emoji.e1]. *)
Lemma C8_counterexample_emoji_update_without_scope :
  boundGuild (root None) = None
  ∧ smile !! "guild_id" = None
  ∧ ∃ w', EmojiCache.update 1 (root None) "e1" None smile initial_world
          = (Ok (bound smile None None), w')
          ∧ writes w' = [WSadd "emoji.undefined" ["e1"]; WSet "emoji.e1" smile].
Proof.
  split; [reflexivity|]. split; [reflexivity|].
  eexists. split; vm_compute; reflexivity.
Qed.

(** C9.  An inbound event whose kind tag is flagged in [disabledEvents] is
    returned as it came and [process] is not run: the world (records,
    indexes, executed writes, shared instances, readiness flag and presence
    buffer) is unchanged. *)
Theorem C9_disabled_event_is_not_processed opts ev v w :
  disabledEvents opts !! t ev = Some v →
  truthy v = true →
  EventProcessor.inbound opts ev w = (Ok ev, w).
Proof.
  intros H Hv. unfold EventProcessor.inbound, EventProcessor.disabled. by rewrite H, Hv.
Qed.

Lemma C9_disabled_event_is_not_processed_witness :
  EventProcessor.inbound {| disabledEvents := object [("GUILD_ROLE_DELETE", JBool true)] |}
    (role_delete_event "g1" "r1") initial_world
  = (Ok (role_delete_event "g1" "r1"), initial_world).
Proof.
  apply (C9_disabled_event_is_not_processed
           {| disabledEvents := object [("GUILD_ROLE_DELETE", JBool true)] |}
           (role_delete_event "g1" "r1") (JBool true) initial_world); reflexivity.
Defined.

(** C4 (amended).  For the entity kinds that keep a scope index (emoji,
    role, member, permission overwrite, channel, guild): once an unbound
    [update(id, scope, data)] has completed, [isIndexed(id, scope)] answers
    true and [getIndexMembers(scope)] lists [id]; once an unbound
    [remove(id, scope)] of an existing record has completed,
    [isIndexed(id, scope)] answers false and [getIndexMembers(scope)] does not
    list [id]. *)
Theorem C4_index_consistency k fuel self id scope :
  boundObject self = None →
  (∀ data w c w',
     k_update k (S fuel) self id (Some scope) data w = (Ok c, w') →
     k_isIndexed k self id (Some scope) w' = (Ok true, w')
     ∧ ∃ l, k_getIndexMembers k self (Some scope) w' = (Ok l, w') ∧ id ∈ l)
  ∧ (∀ old w w',
       db w !! k_recordKey k self id (Some scope) = Some (RString old) →
       k_remove k (S fuel) self id (Some scope) w = (Ok tt, w') →
       k_isIndexed k self id (Some scope) w' = (Ok false, w')
       ∧ ∃ l, k_getIndexMembers k self (Some scope) w' = (Ok l, w') ∧ id ∉ l).
Proof.
  intros Hu. rewrite k_isIndexed_eq, k_getIndexMembers_eq. split.
  - intros data w c w' H. apply k_update_inv in H as [w0 H]; [|done].
    by apply listed_of_upserted in H.
  - intros old w w' Hrec H. eapply k_remove_inv in H as [w0 H]; [|done..].
    by apply unindex_delete in H.
Qed.

Lemma C4_index_consistency_witness :
  (k_isIndexed Emoji (root None) "e1" (Some "g1") world_with_smile
     = (Ok true, world_with_smile)
   ∧ ∃ l, k_getIndexMembers Emoji (root None) (Some "g1") world_with_smile
            = (Ok l, world_with_smile) ∧ "e1" ∈ l)
  ∧ (let w' := exec (EmojiCache.remove 1 (root None) "e1" (Some "g1")) world_with_smile in
     k_isIndexed Emoji (root None) "e1" (Some "g1") w' = (Ok false, w')
     ∧ ∃ l, k_getIndexMembers Emoji (root None) (Some "g1") w' = (Ok l, w') ∧ "e1" ∉ l).
Proof.
  split.
  - apply (proj1 (C4_index_consistency Emoji 0 (root None) "e1" "g1" eq_refl)
             smile initial_world (bound smile None None) world_with_smile).
    vm_compute. reflexivity.
  - apply (proj2 (C4_index_consistency Emoji 0 (root None) "e1" "g1" eq_refl)
             smile world_with_smile).
    + vm_compute. reflexivity.
    + vm_compute. reflexivity.
Defined.

(** C4, as stated, fails for the channel map cache: after an unbound
    [update] of the map of guild [g1] has completed, [isIndexed] does not
    report [g1], whatever is taken for the scope. *)
Lemma C4_counterexample_channel_map_keeps_no_index :
  ChannelMapCache.update 1 (root None) "g1" ["c1"] "guild" false initial_world
    = (Ok (bound (ChannelMapCache._buildMap "g1" ["c1"] "guild") None None), world_with_map)
  ∧ ChannelMapCache.isIndexed (root None) "g1" (Some "guild") world_with_map
    = (Ok false, world_with_map)
  ∧ ChannelMapCache.isIndexed (root None) "g1" None world_with_map
    = (Ok false, world_with_map).
Proof. repeat split; vm_compute; reflexivity. Qed.

(** C10.  An unbound [MemberCache.update(id, guildId, data)] with a
    non-empty guild id that completes leaves at the member's key a record with
    an [id] field and a [guild_id] field; where the data has no (truthy) [id]
    the field is the [id] argument, where it has no (truthy) [guild_id] the
    field is the [guildId] argument. *)
Theorem C10_member_record_has_id_and_guild_id fuel self id guildId data w c w' :
  boundObject self = None →
  guildId ≠ "" →
  MemberCache.update (S fuel) self id (Some guildId) data w = (Ok c, w') →
  ∃ rec vid vg,
    db w' !! MemberCache.buildId id (Some guildId) = Some (RString rec)
    ∧ rec !! "id" = Some vid ∧ rec !! "guild_id" = Some vg
    ∧ (truthy (field data "id") = false → vid = JStr id)
    ∧ (truthy (field data "guild_id") = false → vg = JStr guildId).
Proof.
  intros Hu _ H.
  apply (k_update_inv Member) in H as (w0 & s & old & Hne & _ & _ & Hdb); [|done].
  simpl in Hdb.
  destruct (member_fill_fields id guildId data) as [(vi & Hi & Hdi & Hfi) (vg & Hg & Hdg & Hfg)].
  set (d := MemberCache.fill id guildId data) in *.
  set (st := match field d "user" with JObj _ => delete "user" d | _ => d end) in *.
  assert (st !! "id" = Some vi ∧ st !! "guild_id" = Some vg) as [Hsi Hsg].
  { unfold st. destruct (field d "user"); try done. by rewrite !lookup_delete_ne. }
  eexists _, (json_roundtrip vi), (json_roundtrip vg).
  split; [rewrite Hdb; apply lookup_insert_eq|].
  split; [by apply stored_field|]. split; [by apply stored_field|].
  split; intros Hf.
  - by rewrite (Hfi Hf).
  - by rewrite (Hfg Hf).
Qed.

Lemma C10_member_record_has_id_and_guild_id_witness :
  ∃ rec vid vg,
    db world_with_bob !! MemberCache.buildId "u1" (Some "g1") = Some (RString rec)
    ∧ rec !! "id" = Some vid ∧ rec !! "guild_id" = Some vg
    ∧ (truthy (field bob_member "id") = false → vid = JStr "u1")
    ∧ (truthy (field bob_member "guild_id") = false → vg = JStr "g1").
Proof.
  apply (C10_member_record_has_id_and_guild_id 0 (root (Some "")) "u1" "g1" bob_member
           initial_world
           (bound (object [("nick", JStr "b"); ("guild_id", JStr "g1"); ("id", JStr "u1")])
                  (Some "") None) world_with_bob eq_refl).
  - discriminate.
  - vm_compute. reflexivity.
Defined.

(** C6.  Two presence-update events for the same user, one after the other,
    write nothing; they leave in the buffer one pending record for that user,
    the entry of the second event merged over what the first left (so status,
    game, id and user are those of the second event, and the record is the
    second entry itself when nothing was pending before).  The next flush
    issues exactly one update for that user, carrying that record, empties
    the buffer, and, when it completes, has written exactly one presence
    document for that user.  It does complete when nothing else was pending
    and the two presence keys hold what the commands expect: the user is then
    on the presence index and that one document is the only one written to
    the user's presence key. *)
Theorem C6_presence_coalescing p1 u1 p2 u2 uid w :
  field p1 "user" = JObj u1 → field u1 "id" = JStr uid →
  field p2 "user" = JObj u2 → field u2 "id" = JStr uid →
  EventProcessor.is_inherited uid = false →
  let first := pending_after (presenceQueue w) uid (EventProcessor.presence_entry p1 u1 uid) in
  let merged := assign first (EventProcessor.presence_entry p2 u2 uid) in
  ∃ w1 w2,
    EventProcessor.process (presence_event p1) w = (Ok tt, w1)
    ∧ EventProcessor.process (presence_event p2) w1 = (Ok tt, w2)
    ∧ db w2 = db w ∧ writes w2 = writes w
    ∧ presenceQueue w2 !! uid = Some merged
    ∧ (merged !! "status" = Some (field p2 "status")
       ∧ merged !! "game" = Some (field p2 "game")
       ∧ merged !! "id" = Some (JStr uid)
       ∧ merged !! "user" = Some (JObj u2))
    ∧ (presenceQueue w !! uid = None → merged = EventProcessor.presence_entry p2 u2 uid)
    ∧ filter (λ kv, kv.1 = uid) (EventProcessor.flush_batch (presenceQueue w2)) = [(uid, merged)]
    ∧ (∀ w3, EventProcessor.flushQueue w2 = (Ok tt, w3) →
         presenceQueue w3 = ∅
         ∧ ∃ ws old,
             writes w3 = (writes w2 ++ ws)%list
             ∧ record_writes (BaseCache.buildId PresenceCache.namespace uid) ws
               = [json_roundtrip_obj (assign old (PresenceCache.strip merged))])
    ∧ (presenceQueue w = ∅ →
       is_set_or_none (db w !! PresenceCache.namespace) = true →
       is_string_or_none (db w !! BaseCache.buildId PresenceCache.namespace uid) = true →
       ∃ w3 old,
         EventProcessor.flushQueue w2 = (Ok tt, w3)
         ∧ presenceQueue w3 = ∅
         ∧ db w3 !! BaseCache.buildId PresenceCache.namespace uid
           = Some (RString (json_roundtrip_obj (assign old (PresenceCache.strip merged))))
         ∧ uid ∈ members_at PresenceCache.namespace w3
         ∧ record_writes (BaseCache.buildId PresenceCache.namespace uid) (writes w3)
           = (record_writes (BaseCache.buildId PresenceCache.namespace uid) (writes w)
              ++ [json_roundtrip_obj (assign old (PresenceCache.strip merged))])%list).
Proof.
  intros Hu1 Hi1 Hu2 Hi2 Hin first merged.
  set (w1 := set_queue (<[uid:=first]> (presenceQueue w)) w).
  assert (pending_after (presenceQueue w1) uid (EventProcessor.presence_entry p2 u2 uid) = merged) as Hm.
  { unfold pending_after, w1. simpl. by rewrite lookup_insert_eq. }
  set (w2 := set_queue (<[uid:=merged]> (presenceQueue w1)) w1).
  exists w1, w2.
  split; [rewrite process_presence; by apply handlePresenceUpdate_ok|].
  split; [rewrite process_presence; unfold w2; rewrite <- Hm;
          by apply handlePresenceUpdate_ok|].
  split; [done|]. split; [done|].
  split; [apply lookup_insert_eq|].
  split; [apply entry_fields|].
  split.
  { intros Hn. unfold merged, first, pending_after. rewrite Hn. apply assign_entry_entry. }
  split.
  { apply filter_key_NoDup; [apply NoDup_fst_map_to_list|].
    unfold EventProcessor.flush_batch. apply elem_of_map_to_list. apply lookup_insert_eq. }
  split.
  { intros w3 H. unfold EventProcessor.flushQueue in H. inv_bind H.
    apply gets_ok_inv in H0 as [-> ->].
    inv_bind H. unfold modify in H0. injection H0 as _ <-.
    apply flush_loop in H as (ws & Hws & Hq & _ & Hone).
    split; [done|].
    destruct (Hone uid merged) as [old Hold].
    { apply NoDup_fst_map_to_list. }
    { unfold EventProcessor.flush_batch. apply elem_of_map_to_list. simpl.
      apply lookup_insert_eq. }
    by exists ws, old. }
  intros Hempty Hidx%is_set_or_none_spec Hrec%is_string_or_none_spec.
  assert (merged = EventProcessor.presence_entry p2 u2 uid) as Hmerged.
  { unfold merged, first, pending_after. rewrite Hempty, lookup_empty.
    apply assign_entry_entry. }
  destruct (flush_one uid merged w2) as (w3 & old & H3 & Hq3 & Hdoc & Hin3 & Hw3); [|done|done| |].
  - unfold w2, w1. simpl. rewrite Hempty. by rewrite insert_insert_eq, insert_empty.
  - rewrite Hmerged. apply presence_entry_plain.
  - exists w3, old. repeat (split; [done|]).
    rewrite Hw3, record_writes_app, record_writes_pair. by rewrite String.eqb_refl.
Qed.

Lemma C6_presence_coalescing_witness :
  ∃ w2 w3 doc,
    EventProcessor.process (presence_event presence_idle)
      (exec (EventProcessor.process (presence_event presence_online)) initial_world)
    = (Ok tt, w2)
    ∧ presenceQueue w2 !! "u1"
      = Some (EventProcessor.presence_entry presence_idle (object [("id", JStr "u1")]) "u1")
    ∧ EventProcessor.flushQueue w2 = (Ok tt, w3)
    ∧ record_writes "presence.u1" (writes w3) = [doc].
Proof.
  destruct (C6_presence_coalescing presence_online (object [("id", JStr "u1")])
              presence_idle (object [("id", JStr "u1")]) "u1" initial_world
              eq_refl eq_refl eq_refl eq_refl eq_refl)
    as (w1 & w2 & H1 & H2 & _ & _ & Hq & _ & _ & _ & _ & Hflush).
  destruct (Hflush eq_refl eq_refl eq_refl) as (w3 & old & H3 & _ & _ & _ & Hw).
  exists w2, w3. eexists. unfold exec. rewrite H1. split; [exact H2|].
  split; [rewrite Hq; f_equal|]. split; [exact H3|exact Hw].
Defined.

(** C7.  On a guild whose emoji index holds exactly [A], [B] and [C] (four
    different ids with [D]), the emoji-list-replace event carrying the emoji
    [B], [C] and [D] completes; afterwards the index lists exactly [B], [C]
    and [D], [A] is neither indexed nor stored, and the records of [B], [C]
    and [D] carry the fields of the event. *)
Theorem C7_emoji_diff_reconciliation g A B C D eB eC eD w :
  NoDup [A; B; C; D] →
  emojis_cached g w = true →
  members_at (emoji_index g) w = {[A; B; C]} →
  emoji_object eB B = true →
  emoji_object eC C = true →
  emoji_object eD D = true →
  is_string_or_none (db w !! EmojiCache.buildId D (Some g)) = true →
  ∃ w' l,
    EventProcessor.process (emojis_update_event g [eB; eC; eD]) w = (Ok tt, w')
    ∧ EmojiCache.getIndexMembers (root_emoji w') (Some g) w' = (Ok l, w')
    ∧ l ≡ₚ [B; C; D]
    ∧ EmojiCache.isIndexed (root_emoji w') A (Some g) w' = (Ok false, w')
    ∧ EmojiCache.get (root_emoji w') A (Some g) w' = (Ok None, w')
    ∧ record_holds w' (EmojiCache.buildId B (Some g)) eB
    ∧ record_holds w' (EmojiCache.buildId C (Some g)) eC
    ∧ record_holds w' (EmojiCache.buildId D (Some g)) eD.
Proof.
  intros Hnd Hc HS HB HC HD HnD.
  apply NoDup_cons in Hnd as [HA Hnd].
  destruct (emojis_cached_spec _ _ Hc) as (Hg & Hs & Hr).
  destruct (emojis_update_spec g [eB; eC; eD] [B; C; D] w) as (w' & H & Hs' & Hm & Hh & Hn).
  { done. }
  { by repeat constructor. }
  { done. }
  { intros x Hx. 
    assert (x ∈ members_at (emoji_index g) w ∨ x = D) as [HxS| ->] by set_solver.
    - destruct (has_emoji_spec g w x) as (o & -> & _); [|done].
      apply Hr. by apply elem_of_elements.
    - by apply is_string_or_none_spec. }
  exists w', (elements (members_at (emoji_index g) w')).
  split; [done|]. split; [by apply getListMembers_spec|].
  split; [rewrite Hm; by apply elements_list_to_set|].
  split.
  { unfold EmojiCache.isIndexed, BaseCache.isIndexed.
    change (BaseCache.indexKey EmojiCache.namespace (root_emoji w') (Some g))
      with (emoji_index g).
    rewrite isListMember_spec by done. rewrite Hm.
    rewrite bool_decide_eq_false_2; [done|]. set_solver. }
  split.
  { unfold EmojiCache.get. simpl. unfold Storage.get, Redis.GET, bind.
    rewrite Hn; [done| |]; set_solver. }
  apply Forall2_cons_1 in Hh as [? Hh]. apply Forall2_cons_1 in Hh as [? Hh].
  apply Forall2_cons_1 in Hh as [? _]. done.
Qed.

Lemma C7_emoji_diff_reconciliation_witness :
  ∃ w' l,
    EventProcessor.process (emojis_update_event "g1" [emoji_b; emoji_c; emoji_d]) world_with_abc
    = (Ok tt, w')
    ∧ EmojiCache.getIndexMembers (root_emoji w') (Some "g1") w' = (Ok l, w')
    ∧ l ≡ₚ ["b"; "c"; "d"]
    ∧ EmojiCache.isIndexed (root_emoji w') "a" (Some "g1") w' = (Ok false, w')
    ∧ EmojiCache.get (root_emoji w') "a" (Some "g1") w' = (Ok None, w')
    ∧ record_holds w' (EmojiCache.buildId "b" (Some "g1")) emoji_b
    ∧ record_holds w' (EmojiCache.buildId "c" (Some "g1")) emoji_c
    ∧ record_holds w' (EmojiCache.buildId "d" (Some "g1")) emoji_d.
Proof.
  apply (C7_emoji_diff_reconciliation "g1" "a" "b" "c" "d" emoji_b emoji_c emoji_d
           world_with_abc).
  - apply (bool_decide_unpack _). vm_compute. exact I.
  - vm_compute. reflexivity.
  - vm_compute. reflexivity.
  - vm_compute. reflexivity.
  - vm_compute. reflexivity.
  - vm_compute. reflexivity.
  - vm_compute. reflexivity.
Defined.

(** * Further properties of the code *)

(** ** Removal *)

(** X1.  Removing an entity that has no record is a no-op: the unbound
    [remove] of every indexed cache class loads the record, finds nothing and
    returns without a write, whatever the index lists. *)
Theorem remove_absent_is_noop k fuel self id scope w :
  boundObject self = None →
  db w !! k_recordKey k self id scope = None →
  k_remove k (S fuel) self id scope w = (Ok tt, w).
Proof.
  intros Hu Hk. destruct k; simpl in *; rewrite Hu;
    unfold EmojiCache.remove_unbound, RoleCache.remove_unbound, MemberCache.remove_unbound,
      PermissionOverwriteCache.remove_unbound, ChannelCache.remove_unbound,
      GuildCache.remove_unbound;
    rewrite ?dflt_idem; unfold Storage.get, Redis.GET, bind; by rewrite Hk.
Qed.

Lemma remove_absent_is_noop_witness :
  k_remove Emoji 1 (root None) "e1" (Some "g1") initial_world = (Ok tt, initial_world).
Proof.
  apply (remove_absent_is_noop Emoji 0 (root None) "e1" (Some "g1") initial_world).
  - reflexivity.
  - reflexivity.
Defined.

Lemma EmojiCache_remove_bound fuel : ∀ o bg bc id g w,
  stuck (EmojiCache.remove fuel (bound o bg bc) id g w) w.
Proof.
  induction fuel as [|fuel IH]; intros; simpl; [apply stuck_out_of_fuel|].
  stuck_step. apply IH.
Qed.

Lemma RoleCache_remove_bound fuel : ∀ o bg bc id g w,
  stuck (RoleCache.remove fuel (bound o bg bc) id g w) w.
Proof.
  induction fuel as [|fuel IH]; intros; simpl; [apply stuck_out_of_fuel|].
  stuck_step. stuck_step. apply IH.
Qed.

Lemma MemberCache_remove_bound fuel : ∀ o bg bc id g w,
  stuck (MemberCache.remove fuel (bound o bg bc) id g w) w.
Proof.
  induction fuel as [|fuel IH]; intros; simpl; [apply stuck_out_of_fuel|].
  stuck_step. stuck_step. apply IH.
Qed.

Lemma PermissionOverwriteCache_remove_bound fuel : ∀ o bg bc id g w,
  stuck (PermissionOverwriteCache.remove fuel (bound o bg bc) id g w) w.
Proof.
  induction fuel as [|fuel IH]; intros; simpl; [apply stuck_out_of_fuel|].
  stuck_step. apply IH.
Qed.

Lemma ChannelCache_remove_bound fuel : ∀ o bg bc id w,
  stuck (ChannelCache.remove fuel (bound o bg bc) id w) w.
Proof.
  induction fuel as [|fuel IH]; intros; simpl; [apply stuck_out_of_fuel|].
  stuck_step. apply IH.
Qed.

Lemma GuildCache_remove_bound fuel : ∀ o bg bc id w,
  stuck (GuildCache.remove fuel (bound o bg bc) id w) w.
Proof.
  induction fuel as [|fuel IH]; intros; simpl; [apply stuck_out_of_fuel|].
  stuck_step. apply IH.
Qed.

(** X2.  On an instance bound to an object, [remove] calls itself again on
    the same instance with the id of the bound object: for the emoji, role,
    member, permission overwrite, channel and guild caches the call never
    returns and never reaches the storage, whatever the fuel. *)
Theorem bound_remove_never_reaches_storage :
  (∀ fuel o bg bc id g w, stuck (EmojiCache.remove fuel (bound o bg bc) id g w) w)
  ∧ (∀ fuel o bg bc id g w, stuck (RoleCache.remove fuel (bound o bg bc) id g w) w)
  ∧ (∀ fuel o bg bc id g w, stuck (MemberCache.remove fuel (bound o bg bc) id g w) w)
  ∧ (∀ fuel o bg bc id g w,
       stuck (PermissionOverwriteCache.remove fuel (bound o bg bc) id g w) w)
  ∧ (∀ fuel o bg bc id w, stuck (ChannelCache.remove fuel (bound o bg bc) id w) w)
  ∧ (∀ fuel o bg bc id w, stuck (GuildCache.remove fuel (bound o bg bc) id w) w).
Proof.
  split; [intros; apply EmojiCache_remove_bound|].
  split; [intros; apply RoleCache_remove_bound|].
  split; [intros; apply MemberCache_remove_bound|].
  split; [intros; apply PermissionOverwriteCache_remove_bound|].
  split; [intros; apply ChannelCache_remove_bound|].
  intros; apply GuildCache_remove_bound.
Qed.

Lemma append_length (a b : string) :
  String.length (a +:+ b) = String.length a + String.length b.
Proof.
  induction a as [|c a IH]; [done|].
  change (S (String.length (a +:+ b)) = S (String.length a + String.length b)).
  by rewrite IH.
Qed.

Lemma prefixed_ne (p s : string) : p ≠ "" → p +:+ s ≠ s.
Proof.
  intros Hp E. apply (f_equal String.length) in E. rewrite append_length in E.
  destruct p as [|c p]; [done|]. simpl in E. lia.
Qed.

(** X3.  The channel map instance that [get] returns is bound to the map
    object, and [remove] on a bound channel map deletes the key named by the
    bare id of that object, not the key of the map: whatever arguments it is
    called with, the stored channel map is still there afterwards. *)
Theorem ChannelMapCache_bound_remove_misses_the_map bg id type any_id any_type w c w1 :
  ChannelMapCache.get (root bg) id type w = (Ok (Some (Inst c)), w1) →
  ∃ w', ChannelMapCache.remove c any_id any_type w1 = (Ok tt, w')
        ∧ db w' = delete id (db w)
        ∧ db w' !! ChannelMapCache.mapKey id type = db w !! ChannelMapCache.mapKey id type.
Proof.
  unfold ChannelMapCache.get. simpl. intros H. inv_bind H. inv_bind H.
  apply ret_ok_inv in H as [[= <-] ->].
  apply lift_ok_inv in H1 as [H1 ->].
  apply construct_ok_inv in H1 as [-> _].
  unfold Storage.getListMembers, Redis.SMEMBERS in H0.
  assert (w0 = w) as -> by (destruct (db w !! _) as [[?|?]|]; congruence).
  eexists. split; [reflexivity|]. simpl. split; [done|].
  apply lookup_delete_ne. intros E. symmetry in E. revert E.
  unfold ChannelMapCache.mapKey, BaseCache.buildId, ChannelMapCache._buildMapId.
  rewrite <- !append_assoc. apply prefixed_ne.
  unfold ChannelMapCache.namespace. done.
Qed.

Lemma ChannelMapCache_bound_remove_misses_the_map_witness :
  ∃ w', ChannelMapCache.remove
          (bound (ChannelMapCache._buildMap "g1" ["c1"] "guild") None None) "g1" "guild"
          world_with_map = (Ok tt, w')
        ∧ db w' = delete "g1" (db world_with_map)
        ∧ db w' !! ChannelMapCache.mapKey "g1" "guild"
          = db world_with_map !! ChannelMapCache.mapKey "g1" "guild".
Proof.
  apply (ChannelMapCache_bound_remove_misses_the_map None "g1" "guild" "g1" "guild"
           world_with_map
           (bound (ChannelMapCache._buildMap "g1" ["c1"] "guild") None None)
           world_with_map).
  vm_compute. reflexivity.
Defined.

Lemma k_remove_scoped k fuel self id scope w :
  k ≠ Guild → boundObject self = None →
  k_remove k (S fuel) self id (Some scope) w
  = scoped_remove (k_indexKey k scope) (k_recordKey k self id (Some scope)) id w.
Proof.
  intros Hk Hu. destruct k; try done; simpl; rewrite Hu; reflexivity.
Qed.

Lemma k_get_absent k self id scope w :
  boundObject self = None →
  db w !! k_recordKey k self id scope = None →
  k_get k self id scope w = (Ok None, w).
Proof.
  intros Hu Hk. destruct k; simpl in *;
    unfold EmojiCache.get, RoleCache.get, MemberCache.get, PermissionOverwriteCache.get,
      ChannelCache.get, GuildCache.get; rewrite Hu;
    unfold Storage.get, Redis.GET, bind; by rewrite Hk.
Qed.

(** X4.  What an unbound [update] stored, the unbound [remove] with the same
    id and scope takes away again (emoji, role, member, permission overwrite
    and channel caches): the removal completes, [get] then finds nothing, the
    id is no longer indexed, and the index entries of the other ids are as
    they were. *)
Theorem update_then_remove k fuel self id scope data w c w1 :
  k ≠ Guild →
  boundObject self = None →
  k_update k (S fuel) self id (Some scope) data w = (Ok c, w1) →
  ∃ w2, k_remove k (S fuel) self id (Some scope) w1 = (Ok tt, w2)
        ∧ k_get k self id (Some scope) w2 = (Ok None, w2)
        ∧ k_isIndexed k self id (Some scope) w2 = (Ok false, w2)
        ∧ ∀ x b, x ≠ id →
                 k_isIndexed k self x (Some scope) w1 = (Ok b, w1) →
                 k_isIndexed k self x (Some scope) w2 = (Ok b, w2).
Proof.
  intros Hk Hu H.
  apply k_update_inv in H as (w0 & s & old & Hne & Hs & Ho & Hdb); [|done].
  set (idx := k_indexKey k scope) in *.
  set (rec := k_recordKey k self id (Some scope)) in *.
  assert (db w1 !! rec = Some (RString (json_roundtrip_obj
            (assign old (k_stored k self id (Some scope) data))))) as Hrec.
  { rewrite Hdb. apply lookup_insert_eq. }
  assert (db w1 !! idx = Some (RSet ({[id]} ∪ s))) as Hidx.
  { rewrite Hdb. rewrite lookup_insert_ne by done. apply lookup_insert_eq. }
  destruct (scoped_remove_spec idx rec id w1) as (w2 & H2 & Hsh & _ & Hn & Hf & Hm & _).
  { done. }
  { by rewrite Hidx. }
  { by rewrite Hrec. }
  exists w2. split; [by rewrite k_remove_scoped|].
  split; [by apply k_get_absent|].
  assert (set_or_none (db w2 !! idx)) as Hs2.
  { eapply shrinks_set_or_none; [exact Hsh|]. by rewrite Hidx. }
  rewrite !k_isIndexed_eq. fold idx.
  split.
  - rewrite isListMember_spec by done. rewrite Hm by (by rewrite Hrec).
    rewrite bool_decide_eq_false_2; [done|]. set_solver.
  - intros x b Hx. rewrite !k_isIndexed_eq. fold idx.
    rewrite (isListMember_spec idx x w2) by done.
    rewrite (isListMember_spec idx x w1) by (by rewrite Hidx).
    rewrite Hm by (by rewrite Hrec). intros [= <-]. f_equal. f_equal.
    apply bool_decide_ext. set_solver.
Qed.

Lemma update_then_remove_witness :
  ∃ w2, k_remove Emoji 1 (root None) "e1" (Some "g1") world_with_smile = (Ok tt, w2)
        ∧ k_get Emoji (root None) "e1" (Some "g1") w2 = (Ok None, w2)
        ∧ k_isIndexed Emoji (root None) "e1" (Some "g1") w2 = (Ok false, w2)
        ∧ ∀ x b, x ≠ "e1" →
                 k_isIndexed Emoji (root None) x (Some "g1") world_with_smile
                 = (Ok b, world_with_smile) →
                 k_isIndexed Emoji (root None) x (Some "g1") w2 = (Ok b, w2).
Proof.
  apply (update_then_remove Emoji 0 (root None) "e1" "g1" smile initial_world
           (bound smile None None) world_with_smile).
  - discriminate.
  - reflexivity.
  - vm_compute. reflexivity.
Defined.

(** ** The storage engine *)

Lemma jval_size_elem x l : x ∈ l → jval_size x < jval_size (JArr l).
Proof.
  simpl. induction 1 as [x l|x y l _ IH]; simpl; lia.
Qed.

Lemma jval_size_field (o : obj) k x : o !! k = Some x → jval_size x < jval_size (JObj o).
Proof.
  intros H. simpl.
  rewrite (map_fold_delete_L _ _ k x o); [lia| |done].
  intros. lia.
Qed.

(** Serialising twice gives what serialising once gives. *)
Lemma json_roundtrip_idem v : json_roundtrip (json_roundtrip v) = json_roundtrip v.
Proof.
  remember (jval_size v) as n eqn:Hn. revert v Hn.
  induction (lt_wf n) as [n _ IH]. intros v ->.
  destruct v as [| | | | |l|o]; try done.
  - simpl. f_equal. rewrite map_map. apply map_ext_in. intros x Hx.
    apply list_elem_of_In in Hx.
    destruct x; try done.
    + change (json_roundtrip (json_roundtrip (JArr l0)) = json_roundtrip (JArr l0)).
      eapply IH; [|done]. by apply jval_size_elem.
    + change (json_roundtrip (json_roundtrip (JObj o)) = json_roundtrip (JObj o)).
      eapply IH; [|done]. by apply jval_size_elem.
  - simpl. f_equal. apply map_eq. intros k. rewrite !lookup_omap.
    destruct (o !! k) as [x|] eqn:Hk; [|done]. simpl.
    destruct x; try done; simpl.
    + f_equal. change (json_roundtrip (json_roundtrip (JArr l)) = json_roundtrip (JArr l)).
      eapply IH; [|done]. by eapply jval_size_field.
    + f_equal. change (json_roundtrip (json_roundtrip (JObj o0)) = json_roundtrip (JObj o0)).
      eapply IH; [|done]. by eapply jval_size_field.
Qed.

Lemma json_roundtrip_obj_lookup (o : obj) f :
  json_roundtrip_obj o !! f = match o !! f with
                              | Some JUndef | None => None
                              | Some v => Some (json_roundtrip v)
                              end.
Proof.
  unfold json_roundtrip_obj. rewrite lookup_omap. destruct (o !! f) as [[]|]; done.
Qed.

Lemma upsert_runs k data w :
  string_or_none (db w !! k) →
  Storage.upsert k data w
  = (Ok tt, set_db (insert k (RString (json_roundtrip_obj (assign (record_at k w) data))))
                   (WSet k (json_roundtrip_obj (assign (record_at k w) data))) w).
Proof.
  intros H. unfold Storage.upsert, Storage.get, Redis.GET, Redis.SET, bind, record_at.
  destruct (db w !! k) as [[o|s]|]; done.
Qed.

(** X5.  [upsert] merges field by field: after two upserts of [a] and then
    [b] under a key that holds a document or nothing, [get] returns a document
    in which every field comes from [b] when [b] has it, else from [a] when
    [a] has it, else from the document stored before; a field whose value is
    [undefined] is dropped, even when an older value was stored. *)
Theorem upsert_merges_partial_updates k a b w :
  is_string_or_none (db w !! k) = true →
  ∃ w' r,
    (Storage.upsert k a ;;; Storage.upsert k b ;;; Storage.get k) w = (Ok (Some r), w')
    ∧ ∀ f, r !! f = match b !! f with
                     | Some JUndef => None
                     | Some v => Some (json_roundtrip v)
                     | None =>
                         match a !! f with
                         | Some JUndef => None
                         | Some v => Some (json_roundtrip v)
                         | None => json_roundtrip_obj (record_at k w) !! f
                         end
                     end.
Proof.
  intros H%is_string_or_none_spec.
  set (w1 := set_db (insert k (RString (json_roundtrip_obj (assign (record_at k w) a))))
                    (WSet k (json_roundtrip_obj (assign (record_at k w) a))) w).
  assert (record_at k w1 = json_roundtrip_obj (assign (record_at k w) a)) as Hr1.
  { unfold record_at at 1, w1. simpl. by rewrite lookup_insert_eq. }
  assert (string_or_none (db w1 !! k)) as H1.
  { unfold w1. simpl. by rewrite lookup_insert_eq. }
  eexists _, _. split.
  { rewrite (bind_run _ _ _ _ _ (upsert_runs k a w H)). fold w1.
    rewrite (bind_run _ _ w1 tt _ (upsert_runs k b w1 H1)).
    unfold Storage.get, Redis.GET. simpl. rewrite lookup_insert_eq. reflexivity. }
  intros f. rewrite Hr1. rewrite json_roundtrip_obj_lookup. unfold assign at 1.
  rewrite lookup_union. destruct (b !! f) as [vb|] eqn:Hb.
  - rewrite union_Some_l. done.
  - rewrite (left_id_L None (∪)). rewrite json_roundtrip_obj_lookup.
    unfold assign. rewrite lookup_union.
    destruct (a !! f) as [va|] eqn:Ha.
    + rewrite union_Some_l. destruct va; try done; simpl;
        rewrite ?json_roundtrip_idem; try done.
      * f_equal. apply (json_roundtrip_idem (JArr l)).
      * f_equal. apply (json_roundtrip_idem (JObj o)).
    + rewrite (left_id_L None (∪)).
      rewrite json_roundtrip_obj_lookup.
      destruct (record_at k w !! f) as [vo|] eqn:Ho; rewrite ?Ho; [|done].
      destruct vo; try done; simpl.
      * f_equal. apply (json_roundtrip_idem (JArr l)).
      * f_equal. apply (json_roundtrip_idem (JObj o)).
Qed.

Lemma upsert_merges_partial_updates_witness :
  ∃ w' r,
    (Storage.upsert "emoji.g1.e1" emoji_a ;;; Storage.upsert "emoji.g1.e1" emoji_b ;;;
     Storage.get "emoji.g1.e1") world_with_smile = (Ok (Some r), w')
    ∧ ∀ f, r !! f = match emoji_b !! f with
                     | Some JUndef => None
                     | Some v => Some (json_roundtrip v)
                     | None =>
                         match emoji_a !! f with
                         | Some JUndef => None
                         | Some v => Some (json_roundtrip v)
                         | None =>
                             json_roundtrip_obj (record_at "emoji.g1.e1" world_with_smile) !! f
                         end
                     end.
Proof.
  apply (upsert_merges_partial_updates "emoji.g1.e1" emoji_a emoji_b world_with_smile).
  vm_compute. reflexivity.
Defined.

Lemma find_loop_head fn keys : ∀ w l w',
  map_m Storage.get keys w = (Ok l, w') →
  Storage.find_loop fn keys w = (Ok (head (List.filter fn l)), w) ∧ w' = w.
Proof.
  induction keys as [|k keys IH]; intros w l w' H; simpl in H.
  { apply ret_ok_inv in H as [-> ->]. done. }
  inv_bind H. inv_bind H. apply ret_ok_inv in H as [-> ->].
  apply GET_inv in H0 as [-> Ha].
  apply IH in H1 as [H1 ->]. split; [|done].
  simpl. rewrite (bind_run _ _ w a w).
  2:{ unfold Storage.get, Redis.GET. destruct a; by rewrite Ha. }
  destruct (fn a); [done|]. exact H1.
Qed.

Lemma map_m_map {A B C} (f : B → M C) (g : A → B) l w :
  map_m (fun x => f (g x)) l w = map_m f (map g l) w.
Proof.
  revert w. induction l as [|x l IH]; intros w; simpl; [done|].
  unfold bind. destruct (f (g x) w) as [[y|e] w1]; [|done]. by rewrite IH.
Qed.

Lemma Storage_find_head fn ids ns w l w' :
  Storage.filter fn ids ns w = (Ok l, w') →
  Storage.find fn ids ns w = (Ok (head l), w) ∧ Forall (fun r => fn r = true) l.
Proof.
  unfold Storage.filter, Storage.find. intros H. inv_bind H. inv_bind H.
  apply ret_ok_inv in H as [-> ->].
  assert (w0 = w) as ->.
  { destruct ids; [by apply ret_ok_inv in H0 as [_ ->]|].
    unfold Storage.getListMembers, Redis.SMEMBERS in H0.
    destruct (db w !! ns) as [[?|?]|]; congruence. }
  split.
  - rewrite (bind_run _ _ _ _ _ H0).
    rewrite map_m_map in H1.
    destruct (find_loop_head fn _ _ _ _ H1) as [H2 _]. exact H2.
  - apply Forall_forall. intros r Hr. apply list_elem_of_In in Hr.
    by apply filter_In in Hr as [_ Hr].
Qed.

(** X6.  [find] and [filter] of the storage engine agree: when [filter]
    completes with the list [l], [find] with the same arguments completes
    without a write with the first element of [l] ([undefined] when [l] is
    empty), and every element of [l] satisfies the predicate. *)
Theorem find_is_first_of_filter fn ids ns w l w' :
  Storage.filter fn ids ns w = (Ok l, w') →
  Storage.find fn ids ns w = (Ok (head l), w)
  ∧ Forall (fun r => fn r = true) l
  ∧ db w' = db w.
Proof.
  intros H. destruct (Storage_find_head _ _ _ _ _ _ H) as [H1 H2].
  split; [done|]. split; [done|].
  unfold Storage.filter in H. inv_bind H. inv_bind H.
  apply ret_ok_inv in H as [_ ->].
  assert (w0 = w) as ->.
  { destruct ids; [by apply ret_ok_inv in H0 as [_ ->]|].
    unfold Storage.getListMembers, Redis.SMEMBERS in H0.
    destruct (db w !! ns) as [[?|?]|]; congruence. }
  rewrite map_m_map in H3.
  by destruct (find_loop_head fn _ _ _ _ H3) as [_ ->].
Qed.

Lemma find_is_first_of_filter_witness :
  Storage.find (fun r => has_id (default ∅ r) "b") None "emoji.g1" world_with_abc
  = (Ok (head [Some emoji_b]), world_with_abc)
  ∧ Forall (fun r => has_id (default ∅ r) "b" = true) [Some emoji_b]
  ∧ db world_with_abc = db world_with_abc.
Proof.
  apply (find_is_first_of_filter (fun r => has_id (default ∅ r) "b") None "emoji.g1"
           world_with_abc [Some emoji_b] world_with_abc).
  vm_compute. reflexivity.
Defined.

(** X7.  [EmojiCache.find] returns the first of the instances that
    [EmojiCache.filter] returns for the same arguments, and an unbound
    instance (never [null]) when [filter] returns none. *)
Theorem EmojiCache_find_is_first_of_filter self fn g ids w cs w' :
  EmojiCache.filter self fn g ids w = (Ok cs, w') →
  EmojiCache.find self fn g ids w = (Ok (hd (root None) cs), w).
Proof.
  unfold EmojiCache.filter, EmojiCache.find. intros H. inv_bind H.
  apply lift_ok_inv in H as [H ->].
  rewrite (bind_run _ _ _ _ _ (proj1 (Storage_find_head _ _ _ _ _ _ H0))).
  destruct a as [|e l]; simpl in *.
  - by injection H as <-.
  - unfold lift. destruct (EmojiCache.construct e) as [c|x]; [|done].
    destruct (foldr _ _ _) as [cs'|x]; [|done]. by injection H as <-.
Qed.

Lemma EmojiCache_find_is_first_of_filter_witness :
  EmojiCache.find (root None) (fun r => has_id (default ∅ r) "b") (Some "g1") None
    world_with_abc
  = (Ok (hd (root None) [bound emoji_b None None]), world_with_abc).
Proof.
  apply (EmojiCache_find_is_first_of_filter (root None) (fun r => has_id (default ∅ r) "b")
           (Some "g1") None world_with_abc [bound emoji_b None None] world_with_abc).
  vm_compute. reflexivity.
Defined.

Lemma ends_with_star_app (s : string) : Storage.ends_with_star (s +:+ "*") = true.
Proof.
  induction s as [|c s IH]; [done|].
  change (Storage.ends_with_star (String c (s +:+ "*")) = true).
  destruct s as [|c' s]; [done|]. exact IH.
Qed.

(** X8.  [prepareNamespace] always returns a pattern that ends with a star,
    preparing a prepared namespace changes nothing, and a namespace that does
    not end with a star gets exactly one appended. *)
Theorem prepareNamespace_idempotent ns :
  Storage.ends_with_star (Storage.prepareNamespace ns) = true
  ∧ Storage.prepareNamespace (Storage.prepareNamespace ns) = Storage.prepareNamespace ns
  ∧ (Storage.ends_with_star ns = false → Storage.prepareNamespace ns = ns +:+ "*").
Proof.
  unfold Storage.prepareNamespace.
  destruct (Storage.ends_with_star ns) eqn:E.
  - rewrite E. done.
  - rewrite ends_with_star_app. done.
Qed.

Lemma prepareNamespace_idempotent_witness :
  Storage.prepareNamespace "emoji" = "emoji" +:+ "*".
Proof.
  apply (proj2 (proj2 (prepareNamespace_idempotent "emoji"))). reflexivity.
Defined.

(** ** Keys *)

Lemma append_cons c (a b : string) : String c a +:+ b = String c (a +:+ b).
Proof. reflexivity. Qed.

Lemma append_nil_l (s : string) : "" +:+ s = s.
Proof. reflexivity. Qed.

Lemma dot_split g : ∀ g' x x',
  dot_free g = true → dot_free g' = true →
  g +:+ "." +:+ x = g' +:+ "." +:+ x' → g = g' ∧ x = x'.
Proof.
  induction g as [|c g IH]; intros [|c' g'] x x' Hg Hg' E;
    rewrite ?append_cons, ?append_nil_l in E.
  - by injection E as ->.
  - injection E as <- _. simpl in Hg'. done.
  - injection E as -> _. simpl in Hg. done.
  - injection E as -> E. simpl in Hg, Hg'.
    apply andb_prop in Hg as [_ Hg]. apply andb_prop in Hg' as [_ Hg'].
    destruct (IH _ _ _ Hg Hg' E) as [-> ->]. done.
Qed.

Lemma dotted_not_dot_free g x : dot_free (g +:+ "." +:+ x) = false.
Proof.
  induction g as [|c g IH]; [done|].
  change (negb (String.eqb (String c EmptyString) ".") && dot_free (g +:+ "." +:+ x) = false).
  rewrite IH. apply andb_false_r.
Qed.

(** X9.  The keys of the cache classes do not collide: keys built in two
    different namespaces differ; within a namespace the key of a scoped
    record determines the scope and the id when the scopes are non-empty and
    contain no dot; and such a record key is never the key of the index of a
    dot-free scope. *)
Theorem keys_do_not_collide :
  (∀ ns ns' a b, ns ∈ namespaces → ns' ∈ namespaces → ns ≠ ns' →
     BaseCache.buildId ns a ≠ BaseCache.buildId ns' b)
  ∧ (∀ ns g x g' x',
       dot_free g = true → dot_free g' = true →
       truthy_os (Some g) = true → truthy_os (Some g') = true →
       BaseCache.scopedId ns x (Some g) = BaseCache.scopedId ns x' (Some g') →
       g = g' ∧ x = x')
  ∧ (∀ ns g x g',
       dot_free g' = true → truthy_os (Some g) = true →
       BaseCache.scopedId ns x (Some g) ≠ BaseCache.buildId ns g').
Proof.
  split.
  { intros ns ns' a b H H' Hne.
    unfold namespaces in *.
    repeat (apply elem_of_cons in H as [->|H]); [..|by apply elem_of_nil in H];
    repeat (apply elem_of_cons in H' as [->|H']); try (by apply elem_of_nil in H');
    try done; intros E; cbv in E; discriminate E. }
  split.
  { intros ns g x g' x' Hg Hg' Ht Ht'.
    unfold BaseCache.scopedId, BaseCache.buildId. rewrite Ht, Ht'. simpl tpl.
    intros E. do 2 apply append_inj_l in E. by apply dot_split. }
  intros ns g x g' Hg' Ht. unfold BaseCache.scopedId, BaseCache.buildId. rewrite Ht.
  simpl tpl. intros E. do 2 apply append_inj_l in E.
  rewrite <- E, dotted_not_dot_free in Hg'. done.
Qed.

Lemma keys_do_not_collide_witness :
  BaseCache.scopedId "role" "r1" (Some "g1") ≠ BaseCache.buildId "role" "g1".
Proof.
  apply (proj2 (proj2 keys_do_not_collide) "role" "g1" "r1" "g1").
  - reflexivity.
  - reflexivity.
Defined.

(** ** Channel maps *)

Lemma remove_first_subset x l y : y ∈ ChannelMapCache.remove_first x l → y ∈ l.
Proof.
  induction l as [|z l IH]; simpl; [done|].
  destruct (String.eqb_spec x z) as [->|Hne]; [by right|].
  intros [->|H]%elem_of_cons; [by left|right; by apply IH].
Qed.

Lemma remove_first_other x l y : y ≠ x → y ∈ l → y ∈ ChannelMapCache.remove_first x l.
Proof.
  intros Hne. induction l as [|z l IH]; simpl; [done|].
  destruct (String.eqb_spec x z) as [->|Hz].
  - intros [->|H]%elem_of_cons; done.
  - intros [->|H]%elem_of_cons; [by left|right; by apply IH].
Qed.

Lemma remove_first_NoDup x l : NoDup l → NoDup (ChannelMapCache.remove_first x l).
Proof.
  induction 1 as [|z l Hz Hl IH]; simpl; [constructor|].
  destruct (String.eqb_spec x z) as [->|Hne]; [done|].
  constructor; [|done]. intros H. by apply remove_first_subset in H.
Qed.

Lemma remove_first_gone x l : NoDup l → x ∉ ChannelMapCache.remove_first x l.
Proof.
  induction 1 as [|z l Hz Hl IH]; simpl; [apply not_elem_of_nil|].
  destruct (String.eqb_spec x z) as [->|Hne]; [done|].
  apply not_elem_of_cons. done.
Qed.

Lemma remove_all_elem rm : ∀ l y,
  y ∈ fold_left (fun acc x => ChannelMapCache.remove_first x acc) rm l → y ∈ l.
Proof.
  induction rm as [|x rm IH]; intros l y; simpl; [done|].
  intros H%IH. by apply remove_first_subset in H.
Qed.

Lemma remove_all_other rm : ∀ l y,
  y ∉ rm → y ∈ l → y ∈ fold_left (fun acc x => ChannelMapCache.remove_first x acc) rm l.
Proof.
  induction rm as [|x rm IH]; intros l y Hn Hy; simpl; [done|].
  apply not_elem_of_cons in Hn as [Hx Hn]. apply IH; [done|]. by apply remove_first_other.
Qed.

Lemma remove_all_NoDup rm : ∀ l,
  NoDup l → NoDup (fold_left (fun acc x => ChannelMapCache.remove_first x acc) rm l).
Proof.
  induction rm as [|x rm IH]; intros l H; simpl; [done|]. apply IH. by apply remove_first_NoDup.
Qed.

Lemma remove_all_gone rm : ∀ l y,
  NoDup l → y ∈ rm →
  y ∉ fold_left (fun acc x => ChannelMapCache.remove_first x acc) rm l.
Proof.
  induction rm as [|x rm IH]; intros l y Hl Hy; simpl; [by apply elem_of_nil in Hy|].
  apply elem_of_cons in Hy as [->|Hy].
  - intros H%remove_all_elem. by apply remove_first_gone in H.
  - apply IH; [|done]. by apply remove_first_NoDup.
Qed.

(** The two list helpers: [_checkDupes] is a union that keeps the old ids
    first, [_removeOldChannels] a difference. *)
Lemma channel_lists_spec old new :
  (∀ y, y ∈ ChannelMapCache._checkDupes old new ↔ y ∈ old ∨ y ∈ new)
  ∧ (NoDup old → NoDup new → NoDup (ChannelMapCache._checkDupes old new))
  ∧ (NoDup old →
     NoDup (ChannelMapCache._removeOldChannels old new)
     ∧ ∀ y, y ∈ ChannelMapCache._removeOldChannels old new ↔ y ∈ old ∧ y ∉ new).
Proof.
  unfold ChannelMapCache._checkDupes, ChannelMapCache._removeOldChannels.
  split.
  { intros y. rewrite elem_of_app. split.
    - intros [H|H]; [by left|]. right. by apply remove_all_elem in H.
    - intros [H|H]; [by left|].
      destruct (decide (y ∈ old)); [by left|]. right. by apply remove_all_other. }
  split.
  { intros Ho Hn. apply NoDup_app. split; [done|]. split; [|by apply remove_all_NoDup].
    intros y Hy H. exact (remove_all_gone old new y Hn Hy H). }
  intros Ho. split; [by apply remove_all_NoDup|].
  intros y. split.
  - intros H. split; [by apply remove_all_elem in H|].
    intros Hy. exact (remove_all_gone new old y Ho Hy H).
  - intros [H Hn]. by apply remove_all_other.
Qed.

Lemma ChannelMapCache_get_unbound self id type w :
  boundObject self = None →
  set_or_none (db w !! ChannelMapCache.mapKey id type) →
  ChannelMapCache.get self id type w
  = (Ok (Some (Inst (bound (ChannelMapCache._buildMap id
                              (elements (members_at (ChannelMapCache.mapKey id type) w)) type)
                           None None))), w).
Proof.
  intros Hu H. unfold ChannelMapCache.get. rewrite Hu.
  rewrite (bind_run _ _ _ _ _ (getListMembers_spec _ _ H)).
  unfold ChannelMapCache.construct, BaseCache.construct, BaseCache.bindObject.
  rewrite plain_buildMap. reflexivity.
Qed.

(** The tail of the unbound [update]: delete the map, add the new list. *)
Lemma ChannelMapCache_replace self id type l w :
  set_or_none (db w !! ChannelMapCache.mapKey id type) →
  (ChannelMapCache.remove_unbound self id type ;;;
   Storage.addToList (ChannelMapCache.mapKey id type) l ;;;
   lift (ChannelMapCache.construct (Some (ChannelMapCache._buildMap id l type)))) w
  = match l with
    | [] => (Err WrongArity,
             set_db (delete (ChannelMapCache.mapKey id type))
                    (WDel (ChannelMapCache.mapKey id type)) w)
    | _ => (Ok (bound (ChannelMapCache._buildMap id l type) None None),
            set_db (insert (ChannelMapCache.mapKey id type) (RSet (list_to_set l)))
                   (WSadd (ChannelMapCache.mapKey id type) l)
                   (set_db (delete (ChannelMapCache.mapKey id type))
                           (WDel (ChannelMapCache.mapKey id type)) w))
    end.
Proof.
  intros H. unfold ChannelMapCache.remove_unbound.
  rewrite (bind_run _ _ w tt (set_db (delete (ChannelMapCache.mapKey id type))
                                      (WDel (ChannelMapCache.mapKey id type)) w)).
  2:{ rewrite (bind_run _ _ _ _ _ (getListMembers_spec _ _ H)). reflexivity. }
  unfold Storage.addToList, Redis.SADD, bind. destruct l as [|x l]; [done|].
  simpl db. rewrite lookup_delete_eq.
  unfold lift, ChannelMapCache.construct, BaseCache.construct, BaseCache.bindObject.
  rewrite plain_buildMap. reflexivity.
Qed.

(** The unbound [update] that merges, on a key that holds a set or nothing. *)
Lemma ChannelMapCache_merge_spec self id data type w :
  boundObject self = None →
  set_or_none (db w !! ChannelMapCache.mapKey id type) →
  let key := ChannelMapCache.mapKey id type in
  let l := ChannelMapCache._checkDupes (elements (members_at key w)) data in
  (l ≠ [] →
   ∃ w', ChannelMapCache.update_unbound self id data type false w
         = (Ok (bound (ChannelMapCache._buildMap id l type) None None), w')
         ∧ db w' = <[key := RSet (members_at key w ∪ list_to_set data)]> (db w)
         ∧ same_env w w')
  ∧ (l = [] →
     ∃ w', ChannelMapCache.update_unbound self id data type false w = (Err WrongArity, w')
           ∧ db w' = delete key (db w))
  ∧ (l = [] ↔ members_at key w = ∅ ∧ data = [])
  ∧ (NoDup data → NoDup l).
Proof.
  intros Hu Hs key l.
  assert (ChannelMapCache.update_unbound self id data type false w
          = (ChannelMapCache.remove_unbound self id type ;;;
             Storage.addToList key l ;;;
             lift (ChannelMapCache.construct (Some (ChannelMapCache._buildMap id l type)))) w)
    as ->.
  { unfold ChannelMapCache.update_unbound.
    rewrite (bind_run _ _ _ _ _ (ChannelMapCache_get_unbound self id type w Hu Hs)).
    rewrite (bind_run _ _ w l w).
    2:{ unfold lift at 1. rewrite channels_of_buildMap. reflexivity. }
    reflexivity. }
  rewrite ChannelMapCache_replace by done. fold key.
  destruct (channel_lists_spec (elements (members_at key w)) data)
    as (Hin & Hnd & _). fold l in Hin, Hnd. clearbody l.
  split.
  { intros Hl. destruct l as [|x l']; [done|]. eexists. split; [reflexivity|].
    split; [|done].
    simpl db. rewrite insert_delete_eq.
    apply (f_equal (fun s => <[key := RSet s]> (db w))). apply set_eq. intros y.
    rewrite <- list_to_set_cons.
    rewrite elem_of_list_to_set, Hin, elem_of_union, elem_of_list_to_set, elem_of_elements.
    done. }
  split.
  { intros ->. eexists. split; reflexivity. }
  split.
  { split.
    - intros ->. split.
      + apply set_eq. intros y. split; [|set_solver]. intros Hy.
        exfalso. apply (not_elem_of_nil y). apply Hin. left. by apply elem_of_elements.
      + destruct data as [|x data]; [done|]. exfalso. apply (not_elem_of_nil x).
        apply Hin. right. by left.
    - intros [HS ->]. destruct l as [|x l']; [done|]. exfalso.
      assert (x ∈ x :: l') as Hx by (by left). apply Hin in Hx as [Hx|Hx].
      + rewrite HS, elements_empty in Hx. by apply elem_of_nil in Hx.
      + by apply elem_of_nil in Hx. }
  intros Hd. apply Hnd; [apply NoDup_elements|done].
Qed.

(** The unbound [update] that removes. *)
Lemma ChannelMapCache_subtract_spec self id data type w :
  boundObject self = None →
  set_or_none (db w !! ChannelMapCache.mapKey id type) →
  let key := ChannelMapCache.mapKey id type in
  let l := ChannelMapCache._removeOldChannels (elements (members_at key w)) data in
  (l ≠ [] →
   ∃ w', ChannelMapCache.update_unbound self id data type true w
         = (Ok (bound (ChannelMapCache._buildMap id l type) None None), w')
         ∧ db w' = <[key := RSet (members_at key w ∖ list_to_set data)]> (db w)
         ∧ same_env w w')
  ∧ (l = [] →
     ∃ w', ChannelMapCache.update_unbound self id data type true w = (Err WrongArity, w')
           ∧ db w' = delete key (db w))
  ∧ (l = [] ↔ members_at key w ⊆ list_to_set data).
Proof.
  intros Hu Hs key l.
  assert (ChannelMapCache.update_unbound self id data type true w
          = (ChannelMapCache.remove_unbound self id type ;;;
             Storage.addToList key l ;;;
             lift (ChannelMapCache.construct (Some (ChannelMapCache._buildMap id l type)))) w)
    as ->.
  { unfold ChannelMapCache.update_unbound.
    rewrite (bind_run _ _ _ _ _ (ChannelMapCache_get_unbound self id type w Hu Hs)).
    rewrite (bind_run _ _ w data w) by reflexivity.
    rewrite (bind_run _ _ w l w).
    2:{ unfold lift at 1. rewrite channels_of_buildMap. reflexivity. }
    reflexivity. }
  rewrite ChannelMapCache_replace by done. fold key.
  destruct (channel_lists_spec (elements (members_at key w)) data)
    as (_ & _ & Hsub). destruct (Hsub (NoDup_elements _)) as [_ Hin].
  fold l in Hin. clearbody l.
  split.
  { intros Hl. destruct l as [|x l']; [done|]. eexists. split; [reflexivity|].
    split; [|done].
    simpl db. rewrite insert_delete_eq.
    apply (f_equal (fun s => <[key := RSet s]> (db w))). apply set_eq. intros y.
    rewrite <- list_to_set_cons.
    rewrite elem_of_list_to_set, Hin, elem_of_difference, elem_of_list_to_set,
      elem_of_elements. done. }
  split.
  { intros ->. eexists. split; reflexivity. }
  split.
  - intros -> y Hy. apply elem_of_list_to_set.
    destruct (decide (y ∈ data)) as [|Hn]; [done|]. exfalso.
    apply (not_elem_of_nil y). apply Hin. split; [by apply elem_of_elements|done].
  - intros Hsubset. destruct l as [|x l']; [done|]. exfalso.
    assert (x ∈ x :: l') as Hx by (by left). apply Hin in Hx as [Hx Hn].
    apply elem_of_elements in Hx. apply Hsubset in Hx.
    by apply elem_of_list_to_set in Hx.
Qed.

Lemma members_at_insert key s w w' :
  db w' = <[key := RSet s]> (db w) → members_at key w' = s.
Proof. intros H. unfold members_at. by rewrite H, lookup_insert_eq. Qed.

(** X10.  An unbound channel map [update] (without [remove]) stores the union
    of the channels that were mapped and the channels passed: when that union
    is not empty the call completes, no other key changes, and [get] afterwards
    returns exactly the members of the union.  When nothing was mapped and the
    list passed is empty, the call deletes the map and then fails with the
    arity error of SADD. *)
Theorem ChannelMapCache_update_merges fuel self id data type w :
  boundObject self = None →
  is_set_or_none (db w !! ChannelMapCache.mapKey id type) = true →
  let key := ChannelMapCache.mapKey id type in
  let all := members_at key w ∪ list_to_set data in
  (all ≠ ∅ →
   ∃ c w', ChannelMapCache.update (S fuel) self id data type false w = (Ok c, w')
           ∧ db w' = <[key := RSet all]> (db w)
           ∧ ChannelMapCache.get self id type w'
             = (Ok (Some (Inst (bound (ChannelMapCache._buildMap id (elements all) type)
                                      None None))), w'))
  ∧ (all = ∅ →
     ∃ w', ChannelMapCache.update (S fuel) self id data type false w = (Err WrongArity, w')
           ∧ db w' = delete key (db w)).
Proof.
  intros Hu Hs%is_set_or_none_spec key all.
  simpl ChannelMapCache.update. rewrite Hu.
  destruct (ChannelMapCache_merge_spec self id data type w Hu Hs) as (Hok & Hemp & Hiff & _).
  fold key in Hok, Hemp, Hiff. split.
  - intros Hne. destruct Hok as (w' & H & Hdb & _).
    { intros E. apply Hiff in E as [E ->]. apply Hne. unfold all. rewrite E. set_solver. }
    eexists _, w'. split; [exact H|]. split; [exact Hdb|].
    rewrite ChannelMapCache_get_unbound; [|done|].
    + fold key. by rewrite (members_at_insert key _ w w' Hdb).
    + fold key. by rewrite Hdb, lookup_insert_eq.
  - intros E. apply Hemp. apply Hiff. unfold all in E.
    apply empty_union_L in E as [E1 E2]. split; [done|].
    destruct data as [|x data]; [done|]. set_solver.
Qed.

Lemma ChannelMapCache_update_merges_witness :
  ∃ c w', ChannelMapCache.update 1 (root None) "g1" ["c2"] "guild" false world_with_map
          = (Ok c, w')
          ∧ db w' = <[ChannelMapCache.mapKey "g1" "guild"
                      := RSet (members_at (ChannelMapCache.mapKey "g1" "guild") world_with_map
                               ∪ list_to_set ["c2"])]> (db world_with_map)
          ∧ ChannelMapCache.get (root None) "g1" "guild" w'
            = (Ok (Some (Inst (bound (ChannelMapCache._buildMap "g1"
                                        (elements
                                           (members_at (ChannelMapCache.mapKey "g1" "guild")
                                                       world_with_map
                                            ∪ list_to_set ["c2"])) "guild")
                                     None None))), w').
Proof.
  apply (proj1 (ChannelMapCache_update_merges 0 (root None) "g1" ["c2"] "guild"
                  world_with_map eq_refl eq_refl)).
  apply (bool_decide_unpack _). vm_compute. exact I.
Defined.

(** X11.  An unbound channel map [update] with [remove] stores the channels
    that were mapped minus the channels passed: when some channel is left the
    call completes and [get] afterwards returns exactly the channels left.
    When none is left, the call deletes the map and then fails with the arity
    error of SADD. *)
Theorem ChannelMapCache_update_subtracts fuel self id data type w :
  boundObject self = None →
  is_set_or_none (db w !! ChannelMapCache.mapKey id type) = true →
  let key := ChannelMapCache.mapKey id type in
  let left := members_at key w ∖ list_to_set data in
  (left ≠ ∅ →
   ∃ c w', ChannelMapCache.update (S fuel) self id data type true w = (Ok c, w')
           ∧ db w' = <[key := RSet left]> (db w)
           ∧ ChannelMapCache.get self id type w'
             = (Ok (Some (Inst (bound (ChannelMapCache._buildMap id (elements left) type)
                                      None None))), w'))
  ∧ (left = ∅ →
     ∃ w', ChannelMapCache.update (S fuel) self id data type true w = (Err WrongArity, w')
           ∧ db w' = delete key (db w)).
Proof.
  intros Hu Hs%is_set_or_none_spec key left.
  simpl ChannelMapCache.update. rewrite Hu.
  destruct (ChannelMapCache_subtract_spec self id data type w Hu Hs) as (Hok & Hemp & Hiff).
  fold key in Hok, Hemp, Hiff. split.
  - intros Hne. destruct Hok as (w' & H & Hdb & _).
    { intros E. apply Hiff in E. apply Hne. unfold left. set_solver. }
    eexists _, w'. split; [exact H|]. split; [exact Hdb|].
    rewrite ChannelMapCache_get_unbound; [|done|].
    + fold key. by rewrite (members_at_insert key _ w w' Hdb).
    + fold key. by rewrite Hdb, lookup_insert_eq.
  - intros E. apply Hemp. apply Hiff. unfold left in E. set_solver.
Qed.

Lemma ChannelMapCache_update_subtracts_witness :
  ∃ w', ChannelMapCache.update 1 (root None) "g1" ["c1"] "guild" true world_with_map
        = (Err WrongArity, w')
        ∧ db w' = delete (ChannelMapCache.mapKey "g1" "guild") (db world_with_map).
Proof.
  apply (proj2 (ChannelMapCache_update_subtracts 0 (root None) "g1" ["c1"] "guild"
                  world_with_map eq_refl eq_refl)).
  apply (bool_decide_unpack _). vm_compute. exact I.
Defined.

(** ** Channel events *)

Lemma onChannelDelete_guild ch gid cid w :
  EventProcessor.is_num (field ch "type") 0 || EventProcessor.is_num (field ch "type") 2
  = true →
  field ch "guild_id" = JStr gid →
  field ch "id" = JStr cid →
  EventProcessor.process (channel_delete_event ch) w
  = (ChannelMapCache.update_unbound (root_channelMap w) gid [cid] "guild" true ;;;
     ChannelCache.remove_unbound (root_channel w) cid) w.
Proof.
  intros Ht Hg Hc.
  change (EventProcessor.process (channel_delete_event ch) w)
    with (EventProcessor.onChannelDelete (channel_delete_event ch) w).
  unfold EventProcessor.onChannelDelete. cbn [d channel_delete_event].
  rewrite (bind_run _ _ w ch w) by reflexivity. cbv zeta. rewrite Ht.
  rewrite (bind_run _ _ w gid w) by (unfold lift; by rewrite Hg).
  rewrite (bind_run _ _ w cid w) by (unfold lift; by rewrite Hc).
  unfold EventProcessor.map_update, EventProcessor.channel_remove, bind, gets.
  change (ChannelMapCache.update 1 (root_channelMap w) gid [cid] "guild" true w)
    with (ChannelMapCache.update_unbound (root_channelMap w) gid [cid] "guild" true w).
  destruct (ChannelMapCache.update_unbound _ _ _ _ _ w) as [[c|e] w1]; reflexivity.
Qed.

(** X12.  A CHANNEL_DELETE event for a text or voice channel that is the
    only channel mapped to its guild (or whose guild has no mapped channel)
    is rejected with the arity error of SADD after the channel map has been
    deleted: the channel's record and its entry in the channel index are
    never removed. *)
Theorem deleting_the_last_mapped_channel ch gid cid w :
  EventProcessor.is_num (field ch "type") 0 || EventProcessor.is_num (field ch "type") 2
  = true →
  field ch "guild_id" = JStr gid →
  field ch "id" = JStr cid →
  is_set_or_none (db w !! ChannelMapCache.mapKey gid "guild") = true →
  members_at (ChannelMapCache.mapKey gid "guild") w ⊆ {[cid]} →
  ∃ w', EventProcessor.process (channel_delete_event ch) w = (Err WrongArity, w')
        ∧ db w' = delete (ChannelMapCache.mapKey gid "guild") (db w)
        ∧ db w' !! ChannelCache.buildId cid = db w !! ChannelCache.buildId cid
        ∧ db w' !! ChannelCache.namespace = db w !! ChannelCache.namespace.
Proof.
  intros Ht Hg Hc Hs%is_set_or_none_spec Hsub.
  rewrite (onChannelDelete_guild ch gid cid w Ht Hg Hc).
  destruct (ChannelMapCache_subtract_spec (root_channelMap w) gid [cid] "guild" w
              eq_refl Hs) as (_ & Hempty & Hiff).
  destruct Hempty as (w' & H & Hdb); [apply Hiff; set_solver|].
  exists w'. split; [by rewrite (bind_fail _ _ _ _ _ H)|]. split; [done|].
  rewrite Hdb. split; apply lookup_delete_ne; intros E; cbv in E; discriminate E.
Qed.

Lemma deleting_the_last_mapped_channel_witness :
  ∃ w', EventProcessor.process (channel_delete_event text_channel) world_with_channel
        = (Err WrongArity, w')
        ∧ db w' = delete (ChannelMapCache.mapKey "g1" "guild") (db world_with_channel)
        ∧ db w' !! ChannelCache.buildId "c1" = db world_with_channel !! ChannelCache.buildId "c1"
        ∧ db w' !! ChannelCache.namespace = db world_with_channel !! ChannelCache.namespace.
Proof.
  apply (deleting_the_last_mapped_channel text_channel "g1" "c1" world_with_channel).
  - reflexivity.
  - reflexivity.
  - reflexivity.
  - vm_compute. reflexivity.
  - apply (bool_decide_unpack _). vm_compute. exact I.
Defined.

(** X13.  A CHANNEL_DELETE event for a cached text or voice channel of a
    guild that has another mapped channel completes: the channel leaves the
    channel map of the guild, its record is deleted and it is no longer in
    the channel index. *)
Theorem deleting_a_mapped_channel ch gid cid other w :
  EventProcessor.is_num (field ch "type") 0 || EventProcessor.is_num (field ch "type") 2
  = true →
  field ch "guild_id" = JStr gid →
  field ch "id" = JStr cid →
  is_set_or_none (db w !! ChannelMapCache.mapKey gid "guild") = true →
  is_set_or_none (db w !! ChannelCache.namespace) = true →
  has_record (db w) (ChannelCache.buildId cid) = true →
  other ≠ cid →
  other ∈ members_at (ChannelMapCache.mapKey gid "guild") w →
  ∃ w', EventProcessor.process (channel_delete_event ch) w = (Ok tt, w')
        ∧ members_at (ChannelMapCache.mapKey gid "guild") w'
          = members_at (ChannelMapCache.mapKey gid "guild") w ∖ {[cid]}
        ∧ db w' !! ChannelCache.buildId cid = None
        ∧ cid ∉ members_at ChannelCache.namespace w'.
Proof.
  intros Ht Hg Hc Hs%is_set_or_none_spec Hi%is_set_or_none_spec [o Hr]%has_record_spec
    Hother Hin.
  rewrite (onChannelDelete_guild ch gid cid w Ht Hg Hc).
  set (key := ChannelMapCache.mapKey gid "guild") in *.
  destruct (ChannelMapCache_subtract_spec (root_channelMap w) gid [cid] "guild" w
              eq_refl Hs) as (Hne & _ & Hiff).
  destruct Hne as (w1 & H & Hdb & _).
  { intros E. apply Hiff in E. fold key in E. apply E in Hin. set_solver. }
  fold key in Hdb.
  assert (key ≠ ChannelCache.namespace) as Hk1 by (intros E; cbv in E; discriminate E).
  assert (key ≠ ChannelCache.buildId cid) as Hk2 by (intros E; cbv in E; discriminate E).
  assert (ChannelCache.buildId cid ≠ ChannelCache.namespace) as Hk3
    by (intros E; cbv in E; discriminate E).
  assert (db w1 !! ChannelCache.buildId cid = Some (RString o)) as Hr1.
  { rewrite Hdb. by rewrite lookup_insert_ne. }
  destruct (scoped_remove_spec ChannelCache.namespace (ChannelCache.buildId cid) cid w1)
    as (w' & H2 & _ & _ & Hn & Hf & Hm & _).
  { done. }
  { rewrite Hdb. by rewrite lookup_insert_ne. }
  { by rewrite Hr1. }
  exists w'. split.
  { rewrite (bind_run _ _ _ _ _ H). exact H2. }
  split.
  { unfold members_at at 1. rewrite Hf by done. rewrite Hdb, lookup_insert_eq. set_solver. }
  split; [done|].
  rewrite Hm by (by rewrite Hr1). set_solver.
Qed.

Lemma deleting_a_mapped_channel_witness :
  ∃ w', EventProcessor.process (channel_delete_event snapshot_channel) world_with_guild
        = (Ok tt, w')
        ∧ members_at (ChannelMapCache.mapKey "7" "guild") w'
          = members_at (ChannelMapCache.mapKey "7" "guild") world_with_guild ∖ {["c1"]}
        ∧ db w' !! ChannelCache.buildId "c1" = None
        ∧ "c1" ∉ members_at ChannelCache.namespace w'.
Proof.
  apply (deleting_a_mapped_channel snapshot_channel "7" "c1" "c2" world_with_guild).
  - reflexivity.
  - reflexivity.
  - reflexivity.
  - vm_compute. reflexivity.
  - vm_compute. reflexivity.
  - vm_compute. reflexivity.
  - discriminate.
  - apply (bool_decide_unpack _). vm_compute. exact I.
Defined.

Lemma is_num_eq v n : EventProcessor.is_num v n = true → v = JNum n.
Proof.
  unfold EventProcessor.is_num. destruct v; simpl; try done.
  intros H. apply Z.eqb_eq in H. by subst.
Qed.

(** X14.  Categories are cached but never removed: a CHANNEL_CREATE event for
    a channel of type 4 that completes leaves the channel stored and
    indexed, and the CHANNEL_DELETE event for the same channel returns
    without a write. *)
Theorem category_channels_are_never_removed ch cid w w1 :
  EventProcessor.is_num (field ch "type") 4 = true →
  field ch "id" = JStr cid →
  EventProcessor.process (channel_create_event ch) w = (Ok tt, w1) →
  EventProcessor.process (channel_delete_event ch) w1 = (Ok tt, w1)
  ∧ ChannelCache.isIndexed cid w1 = (Ok true, w1)
  ∧ ∃ rec, db w1 !! ChannelCache.buildId cid = Some (RString rec).
Proof.
  intros Ht Hc H. pose proof (is_num_eq _ _ Ht) as Hty.
  split.
  { change (EventProcessor.process (channel_delete_event ch) w1)
      with (EventProcessor.onChannelDelete (channel_delete_event ch) w1).
    unfold EventProcessor.onChannelDelete. cbn [d channel_delete_event].
    rewrite (bind_run _ _ w1 ch w1) by reflexivity. cbv zeta. by rewrite Hty. }
  change (EventProcessor.process (channel_create_event ch) w)
    with (EventProcessor.onChannelCreate (channel_create_event ch) w) in H.
  unfold EventProcessor.onChannelCreate in H. cbn [d channel_create_event] in H.
  rewrite (bind_run _ _ w ch w) in H by reflexivity. cbv zeta in H. rewrite Ht in H.
  rewrite orb_true_r in H. inv_bind H. inv_bind H. inv_bind H.
  apply lift_ok_inv in H1 as [H1 ->]. rewrite Hc in H1. injection H1 as <-.
  unfold EventProcessor.channel_update in H. inv_bind H. apply gets_ok_inv in H1 as [-> ->].
  inv_bind H. apply ret_ok_inv in H as [_ ->].
  match goal with
  | Hupd : ChannelCache.update_unbound ?self cid ch ?wa = (Ok ?c, ?wb) |- _ =>
      destruct (k_update_inv Channel 0 self cid "" ch wa c wb eq_refl Hupd) as [w' Hup]
  end.
  pose proof (listed_of_upserted _ _ _ _ _ _ _ Hup) as [Hl _].
  split; [exact Hl|].
  destruct Hup as (s & old & _ & _ & _ & Hdb). eexists. rewrite Hdb.
  apply lookup_insert_eq.
Qed.

Lemma category_channels_are_never_removed_witness :
  EventProcessor.process (channel_delete_event category_channel) world_with_category
  = (Ok tt, world_with_category)
  ∧ ChannelCache.isIndexed "c9" world_with_category = (Ok true, world_with_category)
  ∧ ∃ rec, db world_with_category !! ChannelCache.buildId "c9" = Some (RString rec).
Proof.
  apply (category_channels_are_never_removed category_channel "c9" initial_world
           world_with_category).
  - reflexivity.
  - reflexivity.
  - vm_compute. reflexivity.
Defined.

(** ** Counting and the presence buffer *)

Lemma getListCount_spec idx w :
  set_or_none (db w !! idx) →
  Storage.getListCount idx w = (Ok (size (members_at idx w)), w).
Proof.
  unfold Storage.getListCount, Redis.SCARD, members_at.
  destruct (db w !! idx) as [[o|s]|]; done.
Qed.

(** X15.  An emoji [update] counts an id once: after an unbound update that
    completed, [getIndexCount] of the guild is what it was before when the id
    was already indexed, and one more when it was not. *)
Theorem EmojiCache_update_counts_an_id_once fuel self id g data w c w' :
  boundObject self = None →
  EmojiCache.update (S fuel) self id (Some g) data w = (Ok c, w') →
  ∃ n b,
    EmojiCache.getIndexCount self (Some g) w = (Ok n, w)
    ∧ EmojiCache.isIndexed self id (Some g) w = (Ok b, w)
    ∧ EmojiCache.getIndexCount self (Some g) w' = (Ok (if b then n else S n), w').
Proof.
  intros Hu H. simpl in H. rewrite Hu in H.
  unfold EmojiCache.update_unbound, BaseCache.addToIndex, BaseCache.indexKey in H.
  simpl in H. apply index_upsert_inv in H as (s & old & w2 & Hne & Hs & Ho & -> & H).
  apply lift_ok_inv in H as [_ ->].
  set (idx := BaseCache.buildId EmojiCache.namespace g) in *.
  assert (set_or_none (db w !! idx) ∧ members_at idx w = s) as [Hset Hm].
  { unfold members_at. destruct Hs as [[-> ->] | ->]; done. }
  exists (size s), (bool_decide (id ∈ s)).
  unfold EmojiCache.getIndexCount, EmojiCache.isIndexed, BaseCache.getIndexCount,
    BaseCache.isIndexed, BaseCache.indexKey. simpl tpl. fold idx.
  rewrite getListCount_spec, isListMember_spec, Hm by done.
  split; [done|]. split; [done|].
  rewrite getListCount_spec.
  2:{ simpl. rewrite lookup_insert_ne by done. by rewrite lookup_insert_eq. }
  f_equal. f_equal. unfold members_at. simpl.
  rewrite lookup_insert_ne by done. rewrite lookup_insert_eq.
  case_bool_decide as Hin.
  - f_equal. set_solver.
  - rewrite size_union by set_solver. by rewrite size_singleton.
Qed.

Lemma EmojiCache_update_counts_an_id_once_witness :
  ∃ n b,
    EmojiCache.getIndexCount (root None) (Some "g1") initial_world = (Ok n, initial_world)
    ∧ EmojiCache.isIndexed (root None) "e1" (Some "g1") initial_world
      = (Ok b, initial_world)
    ∧ EmojiCache.getIndexCount (root None) (Some "g1") world_with_smile
      = (Ok (if b then n else S n), world_with_smile).
Proof.
  apply (EmojiCache_update_counts_an_id_once 0 (root None) "e1" "g1" smile initial_world
           (bound smile None None) world_with_smile).
  - reflexivity.
  - vm_compute. reflexivity.
Defined.

Lemma presence_update_keeps_queue id data w :
  presenceQueue (PresenceCache.update_unbound id data w).2 = presenceQueue w.
Proof.
  unfold PresenceCache.update_unbound, Storage.addToList, Redis.SADD, Storage.upsert,
    Storage.get, Redis.GET, Redis.SET, lift, bind.
  destruct (db w !! PresenceCache.namespace) as [[o|s]|]; simpl; try done.
  all: match goal with
       | |- context [?d !! ?k] =>
           destruct (d !! k) as [[o'|s']|]; simpl; try done
       end.
  all: destruct (BaseCache.construct _ _ _ _); done.
Qed.

Lemma flush_loop_keeps_queue l : ∀ w,
  presenceQueue
    (for_each (fun kv => PresenceCache.update_unbound (fst kv) (snd kv) ;;; ret tt) l w).2
  = presenceQueue w.
Proof.
  induction l as [|[k v] l IH]; intros w; simpl; [done|].
  unfold bind at 1. unfold bind at 1.
  pose proof (presence_update_keeps_queue k v w) as Hq.
  destruct (PresenceCache.update_unbound k v w) as [[c|e] w1]; simpl in *; [|done].
  rewrite IH. done.
Qed.

(** X16.  [flushQueue] takes the buffer before it writes: whether or not the
    presence updates complete, the buffer is empty afterwards, so the entries
    of a flush that failed are not retried; and flushing an empty buffer
    writes nothing. *)
Theorem flushQueue_always_empties_the_buffer w :
  presenceQueue (EventProcessor.flushQueue w).2 = ∅
  ∧ (presenceQueue w = ∅ → EventProcessor.flushQueue w = (Ok tt, set_queue ∅ w)).
Proof.
  unfold EventProcessor.flushQueue, gets, modify, bind. split.
  - rewrite flush_loop_keeps_queue. done.
  - intros ->. unfold EventProcessor.flush_batch. rewrite map_to_list_empty. done.
Qed.

Lemma flushQueue_always_empties_the_buffer_witness :
  EventProcessor.flushQueue initial_world = (Ok tt, set_queue ∅ initial_world).
Proof.
  apply (proj2 (flushQueue_always_empties_the_buffer initial_world)). reflexivity.
Defined.

(** ** Role events *)

Lemma role_fill_fields rid g data :
  field data "id" = JStr rid →
  RoleCache.fill rid g data !! "id" = Some (JStr rid)
  ∧ (truthy (field data "guild_id") = false →
     RoleCache.fill rid g data !! "guild_id" = Some (JStr g))
  ∧ ∀ f, f ≠ "id" → f ≠ "guild_id" → RoleCache.fill rid g data !! f = data !! f.
Proof.
  intros Hid. unfold RoleCache.fill.
  assert (data !! "id" = Some (JStr rid) ∨ data !! "id" = None ∧ rid = "") as Hcase.
  { unfold field in Hid. destruct (data !! "id") as [v|]; simpl in Hid; [left; by subst|done]. }
  destruct (truthy (field data "guild_id")) eqn:E1.
  - destruct (truthy (field data "id")) eqn:E2.
    + split; [|split; [done|done]].
      destruct Hcase as [H|[H _]]; [done|]. unfold field in E2. by rewrite H in E2.
    + split; [apply lookup_insert_eq|]. split; [done|].
      intros f Hf _. by rewrite lookup_insert_ne.
  - destruct (truthy (field (<["guild_id":=JStr g]> data) "id")) eqn:E2.
    + split.
      * rewrite lookup_insert_ne by done.
        destruct Hcase as [H|[H _]]; [done|]. unfold field in E2.
        rewrite lookup_insert_ne in E2 by done. by rewrite H in E2.
      * split; [intros _; apply lookup_insert_eq|].
        intros f _ Hf. by rewrite lookup_insert_ne.
    + split; [apply lookup_insert_eq|]. split.
      * intros _. rewrite lookup_insert_ne by done. apply lookup_insert_eq.
      * intros f Hf1 Hf2. by rewrite !lookup_insert_ne.
Qed.

(** X17.  A GUILD_ROLE_CREATE event that completes has stored the role under
    the guild of the event: the guild id is not empty, the role is indexed
    under the guild, and its record carries the role's id, the guild id when
    the role had none, and every other defined field of the role as JSON
    gives it back. *)
Theorem role_create_stores_the_role g role rid w w' :
  field role "id" = JStr rid →
  EventProcessor.process (role_create_event g role) w = (Ok tt, w') →
  truthy_os (Some g) = true
  ∧ RoleCache.isIndexed (root_role w') rid (Some g) w' = (Ok true, w')
  ∧ ∃ rec,
      db w' !! RoleCache.buildId rid (Some g) = Some (RString rec)
      ∧ rec !! "id" = Some (JStr rid)
      ∧ (truthy (field role "guild_id") = false → rec !! "guild_id" = Some (JStr g))
      ∧ ∀ f v, f ≠ "id" → f ≠ "guild_id" → role !! f = Some v → v ≠ JUndef →
               rec !! f = Some (json_roundtrip v).
Proof.
  intros Hid H.
  change (EventProcessor.process (role_create_event g role) w)
    with ((rid0 <- lift (as_str (field role "id")) ;;
           rc <- gets root_role ;;
           RoleCache.update_unbound rc rid0 (Some g) role ;;; ret tt) w) in H.
  rewrite (bind_run _ _ w rid w) in H by (unfold lift; by rewrite Hid).
  rewrite (bind_run _ _ w (root_role w) w) in H by reflexivity.
  inv_bind H. apply ret_ok_inv in H as [_ ->].
  assert (truthy_os (Some g) = true) as Hg.
  { unfold RoleCache.update_unbound in H0. by destruct (truthy_os (Some g)). }
  split; [done|].
  match goal with
  | Hupd : RoleCache.update_unbound ?self rid _ role ?wa = (Ok ?c, ?wb) |- _ =>
      destruct (k_update_inv Role 0 self rid g role wa c wb eq_refl Hupd) as [w0' Hup]
  end.
  pose proof (listed_of_upserted _ _ _ _ _ _ _ Hup) as [Hl _].
  split; [exact Hl|].
  destruct Hup as (s & old & _ & _ & _ & Hdb). eexists. split.
  { rewrite Hdb. apply lookup_insert_eq. }
  simpl k_stored.
  destruct (role_fill_fields rid g role Hid) as (Hfid & Hfg & Hfo).
  split; [by apply (stored_field _ _ _ (JStr rid))|].
  split; [intros Hf; apply (stored_field _ _ _ (JStr g)); [by apply Hfg|done]|].
  intros f v Hf1 Hf2 Hv Hd. apply stored_field; [|done]. by rewrite Hfo.
Qed.

Lemma role_create_stores_the_role_witness :
  let w' := exec (EventProcessor.process (role_create_event "g1" admin_role)) initial_world in
  truthy_os (Some "g1") = true
  ∧ RoleCache.isIndexed (root_role w') "r1" (Some "g1") w' = (Ok true, w')
  ∧ ∃ rec,
      db w' !! RoleCache.buildId "r1" (Some "g1") = Some (RString rec)
      ∧ rec !! "id" = Some (JStr "r1")
      ∧ (truthy (field admin_role "guild_id") = false → rec !! "guild_id" = Some (JStr "g1"))
      ∧ ∀ f v, f ≠ "id" → f ≠ "guild_id" → admin_role !! f = Some v → v ≠ JUndef →
               rec !! f = Some (json_roundtrip v).
Proof.
  apply (role_create_stores_the_role "g1" admin_role "r1" initial_world).
  - reflexivity.
  - vm_compute. reflexivity.
Defined.

(** ** Namespaces *)

Lemma ns_key_self ns : ns_key ns ns.
Proof. by left. Qed.

Lemma ns_key_buildId ns s : ns_key ns (BaseCache.buildId ns s).
Proof. right. by exists s. Qed.

Lemma ns_key_scopedId ns x g : ns_key ns (BaseCache.scopedId ns x g).
Proof. destruct (scopedId_form ns x g) as [s ->]. apply ns_key_buildId. Qed.

Lemma ns_key_disjoint ns ns' k :
  ns ∈ namespaces → ns' ∈ namespaces → ns ≠ ns' → ns_key ns k → ns_key ns' k → False.
Proof.
  intros H H' Hne H1 H2. unfold namespaces in *.
  repeat (apply elem_of_cons in H as [->|H]); [..|by apply elem_of_nil in H];
  repeat (apply elem_of_cons in H' as [->|H']); try (by apply elem_of_nil in H');
  try done;
  destruct H1 as [->|[s ->]], H2 as [E|[s' E]]; cbv in E; discriminate E.
Qed.

Lemma writes_within_refl nss w : writes_within nss w w.
Proof. by intros k _. Qed.

Lemma writes_within_same nss w w' : db w' = db w → writes_within nss w w'.
Proof. intros E k _. by rewrite E. Qed.

Lemma writes_within_trans nss w1 w2 w3 :
  writes_within nss w1 w2 → writes_within nss w2 w3 → writes_within nss w1 w3.
Proof. intros H1 H2 k Hk. rewrite H2, H1; done. Qed.

Lemma writes_within_mono nss nss' w w' :
  nss ⊆ nss' → writes_within nss w w' → writes_within nss' w w'.
Proof. intros Hs H k Hk. apply H. intros ns Hns. apply Hk. by apply Hs. Qed.

(** A key of another namespace is not written. *)
Lemma writes_within_other nss ns k w w' :
  writes_within nss w w' →
  ns ∈ namespaces → Forall (fun ns' => ns' ∈ namespaces ∧ ns' ≠ ns) nss →
  ns_key ns k → db w' !! k = db w !! k.
Proof.
  intros H Hns Hall Hk. apply H. intros ns' Hin Hk'.
  rewrite Forall_forall in Hall. destruct (Hall ns' Hin) as [H1 H2].
  exact (ns_key_disjoint ns' ns k H1 Hns H2 Hk' Hk).
Qed.

Lemma mapKey_ns id type : ns_key ChannelMapCache.namespace (ChannelMapCache.mapKey id type).
Proof. apply ns_key_buildId. Qed.

(** The footprint of [addToIndex] followed by [upsert]. *)
Lemma index_upsert_within ns idx rec (v1 v2 : rvalue) w w' :
  ns_key ns idx → ns_key ns rec →
  db w' = <[rec := v1]> (<[idx := v2]> (db w)) →
  writes_within [ns] w w'.
Proof.
  intros Hi Hr Hdb k Hk. rewrite Hdb.
  assert (¬ ns_key ns k) as Hn by (apply Hk; by left).
  rewrite !lookup_insert_ne; [done|..]; by intros ->.
Qed.

(** ** Effects of the unbound updates *)

(** One [addToIndex]/[upsert] step on the scope index of [g]. *)
Lemma idx_ok_step ns g x s o' w w' :
  BaseCache.scopedId ns x (Some g) ≠ BaseCache.buildId ns g →
  (db w !! BaseCache.buildId ns g = None ∧ s = ∅
   ∨ db w !! BaseCache.buildId ns g = Some (RSet s)) →
  db w' = <[BaseCache.scopedId ns x (Some g) := RString o']>
            (<[BaseCache.buildId ns g := RSet ({[x]} ∪ s)]> (db w)) →
  writes_within [ns] w w'
  ∧ (idx_ok ns g w → idx_ok ns g w')
  ∧ x ∈ members_at (BaseCache.buildId ns g) w'
  ∧ (∀ y, y ∈ members_at (BaseCache.buildId ns g) w →
          y ∈ members_at (BaseCache.buildId ns g) w')
  ∧ (∀ k o, db w !! k = Some (RString o) → ∃ o2, db w' !! k = Some (RString o2))
  ∧ ∃ o2, db w' !! BaseCache.scopedId ns x (Some g) = Some (RString o2).
Proof.
  set (idx := BaseCache.buildId ns g). set (rec := BaseCache.scopedId ns x (Some g)).
  intros Hne Hs Hdb.
  assert (members_at idx w = s) as Hm.
  { unfold members_at. by destruct Hs as [[-> ->] | ->]. }
  assert (members_at idx w' = {[x]} ∪ s) as Hm'.
  { unfold members_at. rewrite Hdb, lookup_insert_ne, lookup_insert_eq; done. }
  assert (∀ k o, db w !! k = Some (RString o) → ∃ o2, db w' !! k = Some (RString o2))
    as Hkeep.
  { intros k o Hk. rewrite Hdb. destruct (decide (k = rec)) as [->|Hk1].
    - rewrite lookup_insert_eq. eauto.
    - rewrite lookup_insert_ne by done. destruct (decide (k = idx)) as [->|Hk2].
      + destruct Hs as [[Hn _] | Hn]; congruence.
      + rewrite lookup_insert_ne by done. eauto. }
  split.
  { eapply index_upsert_within; [apply ns_key_buildId|apply ns_key_scopedId|exact Hdb]. }
  split.
  { intros [_ Hrec]. split.
    - rewrite Hdb, lookup_insert_ne, lookup_insert_eq; done.
    - intros y Hy. fold idx in Hy. rewrite Hm' in Hy. apply elem_of_union in Hy as [Hy|Hy].
      + apply elem_of_singleton in Hy as ->. fold rec. rewrite Hdb, lookup_insert_eq. eauto.
      + rewrite <- Hm in Hy. destruct (Hrec y Hy) as [o Ho]. by eapply Hkeep. }
  split; [rewrite Hm'; set_solver|].
  split; [intros y Hy; rewrite Hm'; rewrite Hm in Hy; set_solver|].
  split; [exact Hkeep|].
  rewrite Hdb, lookup_insert_eq. eauto.
Qed.

Lemma RoleCache_update_step self x g data w c w' :
  RoleCache.update_unbound self x (Some g) data w = (Ok c, w') →
  scoped_step [RoleCache.namespace] RoleCache.namespace g x w w'.
Proof.
  unfold RoleCache.update_unbound. destruct (truthy_os (Some g)); [|done]. simpl negb. cbv iota.
  unfold BaseCache.addToIndex, BaseCache.indexKey, RoleCache.buildId, dflt. simpl tpl.
  intros H. apply index_upsert_inv in H as (s & old & w2 & Hne & Hs & Ho & Hw & H).
  apply lift_ok_inv in H as [_ ->]. apply (f_equal db) in Hw. simpl in Hw.
  destruct (idx_ok_step RoleCache.namespace g x s _ w w2 Hne Hs Hw)
    as (H1 & H2 & H3 & H4 & H5 & H6).
  unfold scoped_step. split; [done|]. split; [done|]. split; [done|]. split; [done|].
  split; [|done]. intros y o. apply H5.
Qed.

Lemma EmojiCache_update_step self x g data w c w' :
  EmojiCache.update_unbound self x (Some g) data w = (Ok c, w') →
  scoped_step [EmojiCache.namespace] EmojiCache.namespace g x w w'.
Proof.
  unfold EmojiCache.update_unbound.
  unfold BaseCache.addToIndex, BaseCache.indexKey, EmojiCache.buildId, dflt. simpl tpl.
  intros H. apply index_upsert_inv in H as (s & old & w2 & Hne & Hs & Ho & Hw & H).
  apply lift_ok_inv in H as [_ ->]. apply (f_equal db) in Hw. simpl in Hw.
  destruct (idx_ok_step EmojiCache.namespace g x s _ w w2 Hne Hs Hw)
    as (H1 & H2 & H3 & H4 & H5 & H6).
  unfold scoped_step. split; [done|]. split; [done|]. split; [done|]. split; [done|].
  split; [|done]. intros y o. apply H5.
Qed.

Lemma UserCache_update_within id data w c w' :
  UserCache.update_unbound id data w = (Ok c, w') →
  writes_within [UserCache.namespace] w w'.
Proof.
  unfold UserCache.update_unbound. intros H.
  apply index_upsert_inv in H as (s & old & w2 & Hne & Hs & Ho & Hw & H).
  apply lift_ok_inv in H as [_ ->]. apply (f_equal db) in Hw. simpl in Hw.
  eapply index_upsert_within; [apply ns_key_self|apply ns_key_buildId|exact Hw].
Qed.

Lemma PresenceCache_update_within id data w c w' :
  PresenceCache.update_unbound id data w = (Ok c, w') →
  writes_within [PresenceCache.namespace] w w'.
Proof.
  unfold PresenceCache.update_unbound. intros H.
  apply index_upsert_inv in H as (s & old & w2 & Hne & Hs & Ho & Hw & H).
  apply lift_ok_inv in H as [_ ->]. apply (f_equal db) in Hw. simpl in Hw.
  eapply index_upsert_within; [apply ns_key_self|apply ns_key_buildId|exact Hw].
Qed.

Lemma PermissionOverwriteCache_update_within self id ch data w c w' :
  PermissionOverwriteCache.update_unbound self id (Some ch) data w = (Ok c, w') →
  writes_within [PermissionOverwriteCache.namespace] w w'.
Proof.
  unfold PermissionOverwriteCache.update_unbound.
  unfold BaseCache.addToIndex, BaseCache.indexKey, PermissionOverwriteCache.buildId, dflt.
  intros H. apply index_upsert_inv in H as (s & old & w2 & Hne & Hs & Ho & Hw & H).
  apply lift_ok_inv in H as [_ ->]. apply (f_equal db) in Hw. simpl in Hw.
  eapply index_upsert_within; [apply ns_key_buildId|apply ns_key_scopedId|exact Hw].
Qed.

Lemma extract_user_within data w d1 w' :
  MemberCache.extract_user data w = (Ok d1, w') →
  writes_within [UserCache.namespace] w w'.
Proof.
  unfold MemberCache.extract_user. intros H.
  destruct (field data "user") as [| | | | | |u] eqn:E; simpl in H;
    try (apply ret_ok_inv in H as [_ ->]; apply writes_within_refl);
    try done.
  - destruct b; [done|]. apply ret_ok_inv in H as [_ ->]. apply writes_within_refl.
  - destruct (negb _); [done|]. apply ret_ok_inv in H as [_ ->]. apply writes_within_refl.
  - destruct (negb _); [done|]. apply ret_ok_inv in H as [_ ->]. apply writes_within_refl.
  - inv_bind H. apply lift_ok_inv in H0 as [_ ->]. inv_bind H.
    apply ret_ok_inv in H as [_ ->]. by eapply UserCache_update_within.
Qed.

Ltac other_ns :=
  repeat constructor;
  first [ by (unfold namespaces; set_solver) | discriminate ].

Lemma idx_ok_frame ns g w w' :
  (∀ k, ns_key ns k → db w' !! k = db w !! k) → idx_ok ns g w → idx_ok ns g w'.
Proof.
  intros Hf [H1 H2]. unfold idx_ok, members_at.
  rewrite (Hf _ (ns_key_buildId ns g)). split; [done|].
  intros x Hx. rewrite (Hf _ (ns_key_scopedId ns x (Some g))). by apply H2.
Qed.

Lemma scoped_step_frame nss ns g x w w0 w' :
  (∀ k, ns_key ns k → db w0 !! k = db w !! k) →
  writes_within nss w w0 →
  scoped_step nss ns g x w0 w' → scoped_step nss ns g x w w'.
Proof.
  intros Hf Hw (H1 & H2 & H3 & H4 & H5 & H6). unfold scoped_step.
  split; [by eapply writes_within_trans|].
  split; [intros H; apply H2; by eapply idx_ok_frame|].
  split; [done|].
  split.
  { intros y Hy. apply H4. unfold members_at in *.
    by rewrite (Hf _ (ns_key_buildId ns g)). }
  split; [|done].
  intros y o Hy. apply (H5 y o). by rewrite (Hf _ (ns_key_scopedId ns y (Some g))).
Qed.

Lemma scoped_step_mono nss nss' ns g x w w' :
  nss ⊆ nss' → scoped_step nss ns g x w w' → scoped_step nss' ns g x w w'.
Proof.
  intros Hs (H1 & H2). split; [by eapply writes_within_mono|done].
Qed.

Lemma MemberCache_update_step self x g data w c w' :
  MemberCache.update_unbound self x (Some g) data w = (Ok c, w') →
  scoped_step [UserCache.namespace; MemberCache.namespace] MemberCache.namespace g x w w'.
Proof.
  unfold MemberCache.update_unbound, dflt. destruct (truthy_os (Some g)); [|done].
  simpl negb. cbv iota. intros H. inv_bind H.
  apply extract_user_within in H0.
  unfold BaseCache.addToIndex, BaseCache.indexKey, MemberCache.buildId, dflt in H.
  simpl tpl in H.
  apply index_upsert_inv in H as (s & old & w2 & Hne & Hs & Ho & Hw & H).
  apply lift_ok_inv in H as [_ ->]. apply (f_equal db) in Hw. simpl in Hw.
  destruct (idx_ok_step MemberCache.namespace g x s _ w0 w2 Hne Hs Hw)
    as (H1 & H2 & H3 & H4 & H5 & H6).
  apply (scoped_step_frame _ _ _ _ w w0).
  - intros k Hk. eapply writes_within_other; [exact H0| | |exact Hk]; other_ns.
  - eapply writes_within_mono; [|exact H0]. set_solver.
  - unfold scoped_step. split; [eapply writes_within_mono; [|exact H1]; set_solver|].
    split; [done|]. split; [done|]. split; [done|]. split; [|done].
    intros y o. apply H5.
Qed.

(** A loop of scoped updates: every element visited ends up listed in the
    scope index with a record. *)
Lemma scoped_loop {A} nss ns g (f : A → M unit) (idof : A → option string) :
  (∀ a w w', f a w = (Ok tt, w') → ∃ x, idof a = Some x ∧ scoped_step nss ns g x w w') →
  ∀ l w w', for_each f l w = (Ok tt, w') →
    writes_within nss w w'
    ∧ (idx_ok ns g w → idx_ok ns g w')
    ∧ (∀ y, y ∈ members_at (BaseCache.buildId ns g) w →
            y ∈ members_at (BaseCache.buildId ns g) w')
    ∧ (∀ y o, db w !! BaseCache.scopedId ns y (Some g) = Some (RString o) →
              ∃ o2, db w' !! BaseCache.scopedId ns y (Some g) = Some (RString o2))
    ∧ Forall (fun a => ∃ x, idof a = Some x
                            ∧ x ∈ members_at (BaseCache.buildId ns g) w'
                            ∧ ∃ o, db w' !! BaseCache.scopedId ns x (Some g)
                                   = Some (RString o)) l.
Proof.
  intros Hstep. induction l as [|a l IH]; intros w w' H; simpl in H.
  { apply ret_ok_inv in H as [_ ->]. split; [apply writes_within_refl|].
    split; [done|]. split; [done|]. split; [eauto|]. constructor. }
  inv_bind H. destruct a0.
  destruct (Hstep _ _ _ H0) as (x & Hx & S1 & S2 & S3 & S4 & S5 & o1 & S6).
  destruct (IH _ _ H) as (L1 & L2 & L3 & L4 & L5).
  split; [by eapply writes_within_trans|].
  split; [intros Hi; by apply L2, S2|].
  split; [intros y Hy; by apply L3, S4|].
  split.
  { intros y o Hy. destruct (S5 y o Hy) as [o2 Ho2]. by eapply L4. }
  constructor; [|done]. exists x. split; [done|]. split; [by apply L3|].
  by eapply L4.
Qed.

Lemma field_insert_ne (o : obj) k k' v : k ≠ k' → field (<[k := v]> o) k' = field o k'.
Proof. intros H. unfold field. by rewrite lookup_insert_ne. Qed.

Lemma as_obj_ok v o : as_obj v = Ok o → v = JObj o.
Proof. destruct v; simpl; congruence. Qed.

Lemma payload_id_of o s : field o "id" = JStr s → payload_id (JObj o) = Some s.
Proof. simpl. by intros ->. Qed.

(** The loops of [GuildCache.update]. *)
Lemma fan_out_roles_spec id data w w' :
  GuildCache.fan_out_roles id data w = (Ok tt, w') →
  ∃ roles,
    nonempty_array (field data "roles") = Ok roles
    ∧ writes_within [RoleCache.namespace] w w'
    ∧ (idx_ok RoleCache.namespace id w → idx_ok RoleCache.namespace id w')
    ∧ all_cached RoleCache.namespace id payload_id roles w'.
Proof.
  unfold GuildCache.fan_out_roles. intros H. inv_bind H.
  apply lift_ok_inv in H0 as [H0 ->]. exists a. split; [done|].
  eapply (scoped_loop [RoleCache.namespace] RoleCache.namespace id _ payload_id) in H
    as (L1 & L2 & _ & _ & L5); [done|].
  clear. intros a w w' H. inv_bind H. apply lift_ok_inv in H0 as [H0 ->].
  apply as_obj_ok in H0 as ->. inv_bind H. apply lift_ok_inv in H0 as [H0 ->].
  apply as_str_ok in H0. inv_bind H. apply gets_ok_inv in H1 as [-> ->].
  inv_bind H. apply ret_ok_inv in H as [_ ->].
  eexists. split; [apply payload_id_of; eassumption|].
  eapply RoleCache_update_step; eassumption.
Qed.

Lemma fan_out_emojis_spec id data w w' :
  GuildCache.fan_out_emojis id data w = (Ok tt, w') →
  ∃ emojis,
    nonempty_array (field data "emojis") = Ok emojis
    ∧ writes_within [EmojiCache.namespace] w w'
    ∧ (idx_ok EmojiCache.namespace id w → idx_ok EmojiCache.namespace id w')
    ∧ all_cached EmojiCache.namespace id payload_id emojis w'.
Proof.
  unfold GuildCache.fan_out_emojis. intros H. inv_bind H.
  apply lift_ok_inv in H0 as [H0 ->]. exists a. split; [done|].
  eapply (scoped_loop [EmojiCache.namespace] EmojiCache.namespace id _ payload_id) in H
    as (L1 & L2 & _ & _ & L5); [done|].
  clear. intros a w w' H. inv_bind H. apply lift_ok_inv in H0 as [H0 ->].
  apply as_obj_ok in H0 as ->. inv_bind H. apply lift_ok_inv in H0 as [H0 ->].
  apply as_str_ok in H0. inv_bind H. apply gets_ok_inv in H1 as [-> ->].
  inv_bind H. apply ret_ok_inv in H as [_ ->].
  eexists. split; [apply payload_id_of; eassumption|].
  eapply EmojiCache_update_step; eassumption.
Qed.

Lemma fan_out_members_spec id data w w' :
  GuildCache.fan_out_members id data w = (Ok tt, w') →
  ∃ members,
    nonempty_array (field data "members") = Ok members
    ∧ writes_within [UserCache.namespace; MemberCache.namespace] w w'
    ∧ (idx_ok MemberCache.namespace id w → idx_ok MemberCache.namespace id w')
    ∧ all_cached MemberCache.namespace id member_uid members w'.
Proof.
  unfold GuildCache.fan_out_members. intros H. inv_bind H.
  apply lift_ok_inv in H0 as [H0 ->]. exists a. split; [done|].
  eapply (scoped_loop [UserCache.namespace; MemberCache.namespace] MemberCache.namespace id _
            member_uid) in H as (L1 & L2 & _ & _ & L5); [done|].
  clear. intros a w w' H. inv_bind H. apply lift_ok_inv in H0 as [H0 ->].
  apply as_obj_ok in H0 as ->. cbv zeta in H. inv_bind H. apply lift_ok_inv in H0 as [H0 ->].
  apply as_obj_ok in H0. rewrite field_insert_ne in H0 by done.
  inv_bind H. apply lift_ok_inv in H1 as [H1 ->]. apply as_str_ok in H1.
  inv_bind H. apply gets_ok_inv in H2 as [-> ->].
  inv_bind H. apply ret_ok_inv in H as [_ ->].
  eexists. split; [simpl; rewrite H0; apply payload_id_of; eassumption|].
  eapply MemberCache_update_step; eassumption.
Qed.

Lemma fan_out_presences_spec data w w' :
  GuildCache.fan_out_presences data w = (Ok tt, w') →
  writes_within [PresenceCache.namespace] w w'.
Proof.
  unfold GuildCache.fan_out_presences. intros H. inv_bind H.
  apply lift_ok_inv in H0 as [_ ->]. revert w w' H.
  induction a as [|p l IH]; intros w w' H; simpl in H.
  { apply ret_ok_inv in H as [_ ->]. apply writes_within_refl. }
  inv_bind H. apply IH in H. eapply writes_within_trans; [|exact H].
  inv_bind H0. apply lift_ok_inv in H1 as [_ ->]. inv_bind H0.
  apply lift_ok_inv in H1 as [_ ->]. inv_bind H0. apply lift_ok_inv in H1 as [_ ->].
  inv_bind H0. apply ret_ok_inv in H0 as [_ ->]. by eapply PresenceCache_update_within.
Qed.

(** ** Channels of a guild *)

Lemma ChannelMapCache_merge_inv self id data type w c w' :
  boundObject self = None →
  ChannelMapCache.update_unbound self id data type false w = (Ok c, w') →
  set_or_none (db w !! ChannelMapCache.mapKey id type)
  ∧ db w' = <[ChannelMapCache.mapKey id type
              := RSet (members_at (ChannelMapCache.mapKey id type) w ∪ list_to_set data)]>
              (db w).
Proof.
  intros Hu H.
  assert (set_or_none (db w !! ChannelMapCache.mapKey id type)) as Hs.
  { unfold ChannelMapCache.update_unbound, ChannelMapCache.get in H. rewrite Hu in H.
    unfold Storage.getListMembers, Redis.SMEMBERS, bind in H.
    by destruct (db w !! ChannelMapCache.mapKey id type) as [[o|s]|]. }
  split; [done|].
  destruct (ChannelMapCache_merge_spec self id data type w Hu Hs) as (Hok & Hemp & _).
  destruct (decide (ChannelMapCache._checkDupes
                      (elements (members_at (ChannelMapCache.mapKey id type) w)) data = []))
    as [E|E].
  - destruct (Hemp E) as (w1 & H1 & _). congruence.
  - destruct (Hok E) as (w1 & H1 & Hdb & _). congruence.
Qed.

Lemma mapKey_user_ne_guild rid id :
  ChannelMapCache.mapKey rid "user" ≠ ChannelMapCache.mapKey id "guild".
Proof. intros E. cbv in E. discriminate E. Qed.

Lemma map_owner_spec data id cid w w' :
  field data "guild_id" = JStr id →
  field data "id" = JStr cid →
  ChannelCache.map_owner data w = (Ok tt, w') →
  writes_within [ChannelMapCache.namespace] w w'
  ∧ (set_or_none (db w !! ChannelMapCache.mapKey id "guild") →
     set_or_none (db w' !! ChannelMapCache.mapKey id "guild"))
  ∧ members_at (ChannelMapCache.mapKey id "guild") w'
    ⊆ members_at (ChannelMapCache.mapKey id "guild") w ∪ {[cid]}.
Proof.
  intros Hg Hc. unfold ChannelCache.map_owner. rewrite Hg, Hc.
  destruct (truthy (JStr id)).
  - intros H. simpl in H. inv_bind H. apply lift_ok_inv in H0 as [[= <-] ->].
    inv_bind H. apply lift_ok_inv in H0 as [[= <-] ->].
    inv_bind H. apply gets_ok_inv in H0 as [-> ->].
    inv_bind H. apply ret_ok_inv in H as [_ ->].
    apply ChannelMapCache_merge_inv in H0 as [Hs Hdb]; [|done].
    split.
    { intros k Hk. rewrite Hdb, lookup_insert_ne; [done|].
      intros <-. apply (Hk ChannelMapCache.namespace); [by left|apply mapKey_ns]. }
    split; [intros _; by rewrite Hdb, lookup_insert_eq|].
    unfold members_at at 1. rewrite Hdb, lookup_insert_eq. set_solver.
  - destruct (truthy (field data "recipients")).
    2:{ intros H. apply ret_ok_inv in H as [_ ->].
        split; [apply writes_within_refl|]. split; [done|set_solver]. }
    intros H. inv_bind H. apply lift_ok_inv in H0 as [_ ->].
    destruct (truthy a).
    2:{ apply ret_ok_inv in H as [_ ->].
        split; [apply writes_within_refl|]. split; [done|set_solver]. }
    inv_bind H. apply lift_ok_inv in H0 as [_ ->].
    inv_bind H. apply lift_ok_inv in H0 as [_ ->].
    inv_bind H. apply lift_ok_inv in H0 as [_ ->].
    inv_bind H. apply gets_ok_inv in H0 as [-> ->].
    inv_bind H. apply ret_ok_inv in H as [_ ->].
    apply ChannelMapCache_merge_inv in H0 as [Hs Hdb]; [|done].
    split.
    { intros k Hk. rewrite Hdb, lookup_insert_ne; [done|].
      intros <-. apply (Hk ChannelMapCache.namespace); [by left|apply mapKey_ns]. }
    pose proof (mapKey_user_ne_guild a1 id) as Hne.
    split; [intros H; by rewrite Hdb, lookup_insert_ne|].
    unfold members_at at 1. rewrite Hdb, lookup_insert_ne by done.
    fold (members_at (ChannelMapCache.mapKey id "guild") w). set_solver.
Qed.

Lemma store_overwrites_within id data w w' :
  ChannelCache.store_overwrites id data w = (Ok tt, w') →
  writes_within [PermissionOverwriteCache.namespace] w w'.
Proof.
  unfold ChannelCache.store_overwrites.
  destruct (truthy (field data "permission_overwrites")).
  2:{ intros H. apply ret_ok_inv in H as [_ ->]. apply writes_within_refl. }
  intros H. inv_bind H. apply lift_ok_inv in H0 as [_ ->]. revert w w' H.
  induction a as [|p l IH]; intros w w' H; simpl in H.
  { apply ret_ok_inv in H as [_ ->]. apply writes_within_refl. }
  inv_bind H. apply IH in H. eapply writes_within_trans; [|exact H].
  inv_bind H0. apply lift_ok_inv in H1 as [_ ->]. inv_bind H0.
  apply lift_ok_inv in H1 as [_ ->]. inv_bind H0. apply gets_ok_inv in H1 as [-> ->].
  inv_bind H0. apply ret_ok_inv in H0 as [_ ->].
  by eapply PermissionOverwriteCache_update_within.
Qed.

Lemma channel_key_ne_index c : ChannelCache.buildId c ≠ ChannelCache.namespace.
Proof. intros E. cbv in E. discriminate E. Qed.

Lemma channel_key_ns c : ns_key ChannelCache.namespace (ChannelCache.buildId c).
Proof. apply ns_key_buildId. Qed.

(** One channel of the snapshot: the channel is no longer pending. *)
Lemma ChannelCache_update_step self id cid data pending w c w' :
  field data "guild_id" = JStr id →
  field data "id" = JStr cid →
  ChannelCache.update_unbound self cid data w = (Ok c, w') →
  writes_within [ChannelMapCache.namespace; PermissionOverwriteCache.namespace;
                 ChannelCache.namespace] w w'
  ∧ (chan_ok id (cid :: pending) w → chan_ok id pending w').
Proof.
  intros Hg Hc H. unfold ChannelCache.update_unbound in H.
  inv_bind H. destruct a. inv_bind H. destruct a. cbv zeta in H.
  unfold ChannelCache.addToIndex in H.
  apply index_upsert_inv in H as (s & old & w3 & Hne & Hs & Ho & Hw & H).
  apply (f_equal db) in Hw. simpl in Hw.
  inv_bind H. apply wrap_channel_db in H as [Hdb _].
  apply GET_inv in H2 as [-> _].
  destruct (map_owner_spec data id cid w w0 Hg Hc H0) as (M1 & M2 & M3).
  apply store_overwrites_within in H1.
  set (K := ChannelMapCache.mapKey id "guild") in *.
  assert (∀ k, ns_key ChannelCache.namespace k → db w1 !! k = db w !! k) as Hch.
  { intros k Hk.
    rewrite (writes_within_other _ ChannelCache.namespace k _ _ H1); [|other_ns..|done].
    apply (writes_within_other _ ChannelCache.namespace k _ _ M1); [other_ns..|done]. }
  assert (db w1 !! K = db w0 !! K) as HK.
  { apply (writes_within_other _ ChannelMapCache.namespace K _ _ H1);
      [other_ns..|apply mapKey_ns]. }
  assert (K ≠ ChannelCache.namespace) as Hk1 by (intros E; cbv in E; discriminate E).
  assert (K ≠ ChannelCache.buildId cid) as Hk2 by (intros E; cbv in E; discriminate E).
  split.
  { intros k Hk. rewrite Hdb, Hw.
    assert (¬ ns_key ChannelCache.namespace k) as Hn by (apply Hk; set_solver).
    rewrite !lookup_insert_ne.
    - rewrite H1 by (intros ns Hns; apply Hk; set_solver).
      apply M1. intros ns Hns; apply Hk; set_solver.
    - intros <-. apply Hn. apply ns_key_self.
    - intros <-. apply Hn. apply channel_key_ns. }
  intros (C1 & C2 & C3). unfold chan_ok. fold K.
  assert (db w' !! K = db w0 !! K) as HK'.
  { rewrite Hdb, Hw, !lookup_insert_ne by done. exact HK. }
  split; [rewrite HK'; by apply M2|].
  split; [rewrite Hdb, Hw, lookup_insert_ne, lookup_insert_eq; done|].
  intros x Hx. unfold members_at in Hx. rewrite HK' in Hx.
  fold (members_at K w0) in Hx. apply M3 in Hx.
  destruct (decide (x = cid)) as [->|Hxc].
  { right. by rewrite Hdb, Hw, lookup_insert_eq. }
  apply elem_of_union in Hx as [Hx|Hx]; [|set_solver].
  destruct (C3 x Hx) as [Hp|Hp].
  { left. set_solver. }
  right. rewrite Hdb, Hw.
  rewrite lookup_insert_ne by (intros E; apply channel_key_inj in E; done).
  rewrite lookup_insert_ne by (intros E; symmetry in E; by apply channel_key_ne_index in E).
  rewrite Hch by apply channel_key_ns. done.
Qed.

Lemma channels_loop id : ∀ channels ids w w',
  GuildCache.ids_of channels = Ok ids →
  for_each (fun channel =>
              c <- lift (as_obj channel) ;;
              let c := <["guild_id" := JStr id]> c in
              cid <- lift (as_str (field c "id")) ;;
              ch <- gets root_channel ;;
              ChannelCache.update_unbound ch cid c ;;; ret tt) channels w = (Ok tt, w') →
  writes_within [ChannelMapCache.namespace; PermissionOverwriteCache.namespace;
                 ChannelCache.namespace] w w'
  ∧ (chan_ok id ids w → chan_ok id [] w').
Proof.
  induction channels as [|v l IH]; intros ids w w' Hids H; simpl in *.
  { injection Hids as <-. apply ret_ok_inv in H as [_ ->].
    split; [apply writes_within_refl|done]. }
  destruct (as_obj v) as [o|] eqn:Ev; [|done].
  destruct (as_str (field o "id")) as [s|] eqn:Es; [|by destruct (GuildCache.ids_of l)].
  destruct (GuildCache.ids_of l) as [ss|] eqn:El; [|done]. injection Hids as <-.
  inv_bind H. destruct a. inv_bind H0. apply lift_ok_inv in H1 as [[= <-] ->].
  cbv zeta in H0. inv_bind H0. apply lift_ok_inv in H1 as [H1 ->].
  rewrite field_insert_ne in H1 by done. rewrite Es in H1. injection H1 as <-.
  inv_bind H0. apply gets_ok_inv in H1 as [-> ->].
  inv_bind H0. apply ret_ok_inv in H0 as [_ ->].
  apply as_str_ok in Es.
  eapply (ChannelCache_update_step _ id s _ ss) in H1 as [S1 S2].
  2:{ unfold field. by rewrite lookup_insert_eq. }
  2:{ by rewrite field_insert_ne. }
  destruct (IH ss _ _ eq_refl H) as [L1 L2].
  split; [by eapply writes_within_trans|]. intros Hc. by apply L2, S2.
Qed.

Lemma fan_out_channels_spec id data w w' :
  GuildCache.fan_out_channels id data w = (Ok tt, w') →
  writes_within [ChannelMapCache.namespace; PermissionOverwriteCache.namespace;
                 ChannelCache.namespace] w w'
  ∧ (chan_ok id [] w → chan_ok id [] w').
Proof.
  unfold GuildCache.fan_out_channels. intros H. inv_bind H.
  apply lift_ok_inv in H0 as [_ ->]. destruct a as [|v l].
  { apply ret_ok_inv in H as [_ ->]. split; [apply writes_within_refl|done]. }
  inv_bind H. apply lift_ok_inv in H0 as [Hids ->].
  inv_bind H. apply gets_ok_inv in H0 as [-> ->].
  inv_bind H. apply ChannelMapCache_merge_inv in H0 as [Hs Hdb]; [|done].
  destruct (channels_loop id _ _ _ _ Hids H) as [L1 L2].
  set (K := ChannelMapCache.mapKey id "guild") in *.
  assert (writes_within [ChannelMapCache.namespace; PermissionOverwriteCache.namespace;
                         ChannelCache.namespace] w w0) as Hw0.
  { intros k Hk. rewrite Hdb, lookup_insert_ne; [done|].
    intros <-. apply (Hk ChannelMapCache.namespace); [set_solver|apply mapKey_ns]. }
  split; [by eapply writes_within_trans|].
  intros (C1 & C2 & C3). apply L2. unfold chan_ok. fold K.
  assert (K ≠ ChannelCache.namespace) as Hk1 by (intros E; cbv in E; discriminate E).
  split; [by rewrite Hdb, lookup_insert_eq|].
  split; [by rewrite Hdb, lookup_insert_ne|].
  intros x Hx. unfold members_at in Hx. rewrite Hdb, lookup_insert_eq in Hx.
  apply elem_of_union in Hx as [Hx|Hx].
  - right. destruct (C3 x Hx) as [Hp|Hp]; [by apply elem_of_nil in Hp|].
    rewrite Hdb, lookup_insert_ne; [done|]. intros E. cbv in E. discriminate E.
  - left. by apply elem_of_list_to_set in Hx.
Qed.

(** ** The whole update of a guild *)

Lemma is_set_or_none_intro v : set_or_none v → is_set_or_none v = true.
Proof. by destruct v as [[?|?]|]. Qed.

Lemma is_string_or_none_intro v : string_or_none v → is_string_or_none v = true.
Proof. by destruct v as [[?|?]|]. Qed.

Lemma idx_ok_of_bool ns id w : index_has_records ns id w = true → idx_ok ns id w.
Proof.
  intros [H1 H2]%index_has_records_spec. split; [done|].
  intros x Hx. apply H2. by apply elem_of_elements.
Qed.

Lemma idx_ok_to_bool ns id w : idx_ok ns id w → index_has_records ns id w = true.
Proof.
  intros [H1 H2]. unfold index_has_records. apply andb_true_intro. split.
  - by apply is_set_or_none_intro.
  - apply forallb_forall. intros x Hx. apply list_elem_of_In, elem_of_elements in Hx.
    destruct (H2 x Hx) as [o Ho]. unfold has_record. by rewrite Ho.
Qed.

Lemma idx_ok_other nss ns g w w' :
  writes_within nss w w' →
  ns ∈ namespaces → Forall (fun ns' => ns' ∈ namespaces ∧ ns' ≠ ns) nss →
  idx_ok ns g w → idx_ok ns g w'.
Proof.
  intros Hw Hns Hall. apply idx_ok_frame. intros k Hk.
  by eapply writes_within_other.
Qed.

Lemma all_cached_other nss ns g idof l w w' :
  writes_within nss w w' →
  ns ∈ namespaces → Forall (fun ns' => ns' ∈ namespaces ∧ ns' ≠ ns) nss →
  all_cached ns g idof l w → all_cached ns g idof l w'.
Proof.
  intros Hw Hns Hall. unfold all_cached. intros H. eapply Forall_impl; [exact H|].
  clear H. intros a (x & Hx & Hm & o & Ho). exists x. split; [done|].
  unfold members_at.
  rewrite (writes_within_other _ ns _ _ _ Hw Hns Hall (ns_key_buildId ns g)).
  split; [done|]. exists o.
  by rewrite (writes_within_other _ ns _ _ _ Hw Hns Hall (ns_key_scopedId ns x (Some g))).
Qed.

Lemma chan_ok_other nss id pending w w' :
  writes_within nss w w' →
  Forall (fun ns' => ns' ∈ namespaces ∧ ns' ≠ ChannelMapCache.namespace) nss →
  Forall (fun ns' => ns' ∈ namespaces ∧ ns' ≠ ChannelCache.namespace) nss →
  chan_ok id pending w → chan_ok id pending w'.
Proof.
  intros Hw H1 H2 (C1 & C2 & C3). unfold chan_ok, members_at.
  rewrite (writes_within_other _ ChannelMapCache.namespace _ _ _ Hw); [|other_ns|done|].
  2:{ apply mapKey_ns. }
  rewrite (writes_within_other _ ChannelCache.namespace _ _ _ Hw); [|other_ns|done|].
  2:{ apply ns_key_self. }
  split; [done|]. split; [done|]. intros c Hc.
  rewrite (writes_within_other _ ChannelCache.namespace _ _ _ Hw); [|other_ns|done|].
  2:{ apply channel_key_ns. }
  by apply C3.
Qed.

Lemma chan_ok_of_bool id w :
  is_set_or_none (db w !! ChannelMapCache.mapKey id "guild") = true →
  is_set_or_none (db w !! ChannelCache.namespace) = true →
  forallb (fun c => is_string_or_none (db w !! ChannelCache.buildId c))
          (elements (members_at (ChannelMapCache.mapKey id "guild") w)) = true →
  chan_ok id [] w.
Proof.
  intros H1%is_set_or_none_spec H2%is_set_or_none_spec H3. split; [done|]. split; [done|].
  intros c Hc. right. apply is_string_or_none_spec. rewrite forallb_forall in H3.
  apply H3. by apply list_elem_of_In, elem_of_elements.
Qed.

Lemma chan_ok_to_bool id w :
  chan_ok id [] w →
  is_set_or_none (db w !! ChannelMapCache.mapKey id "guild") = true
  ∧ is_set_or_none (db w !! ChannelCache.namespace) = true
  ∧ forallb (fun c => is_string_or_none (db w !! ChannelCache.buildId c))
            (elements (members_at (ChannelMapCache.mapKey id "guild") w)) = true.
Proof.
  intros (C1 & C2 & C3). split; [by apply is_set_or_none_intro|].
  split; [by apply is_set_or_none_intro|].
  apply forallb_forall. intros c Hc. apply list_elem_of_In, elem_of_elements in Hc.
  apply is_string_or_none_intro. destruct (C3 c Hc) as [H|H]; [by apply elem_of_nil in H|done].
Qed.

(** What a completed unbound [GuildCache.update] leaves behind. *)
Lemma GuildCache_update_spec self id data w c w' :
  GuildCache.update_unbound self id data w = (Ok c, w') →
  (chan_ok id [] w → chan_ok id [] w')
  ∧ (idx_ok RoleCache.namespace id w → idx_ok RoleCache.namespace id w')
  ∧ (idx_ok EmojiCache.namespace id w → idx_ok EmojiCache.namespace id w')
  ∧ (idx_ok MemberCache.namespace id w → idx_ok MemberCache.namespace id w')
  ∧ (∃ s, db w' !! GuildCache.namespace = Some (RSet s) ∧ id ∈ s)
  ∧ (∃ o, db w' !! GuildCache.buildId id = Some (RString o))
  ∧ ∃ roles emojis members,
      nonempty_array (field data "roles") = Ok roles
      ∧ nonempty_array (field data "emojis") = Ok emojis
      ∧ nonempty_array (field data "members") = Ok members
      ∧ all_cached RoleCache.namespace id payload_id roles w'
      ∧ all_cached EmojiCache.namespace id payload_id emojis w'
      ∧ all_cached MemberCache.namespace id member_uid members w'.
Proof.
  unfold GuildCache.update_unbound. intros H.
  do 5 (inv_bind H).
  repeat match goal with u : unit |- _ => destruct u end.
  match goal with
  | Hx : GuildCache.fan_out_channels _ _ _ = _ |- _ =>
      apply fan_out_channels_spec in Hx as [Wc Hc]
  end.
  match goal with
  | Hx : GuildCache.fan_out_members _ _ _ = _ |- _ =>
      apply fan_out_members_spec in Hx as (ms & Ems & Wm & Hm & Am)
  end.
  match goal with
  | Hx : GuildCache.fan_out_presences _ _ = _ |- _ =>
      apply fan_out_presences_spec in Hx; rename Hx into Wp
  end.
  match goal with
  | Hx : GuildCache.fan_out_roles _ _ _ = _ |- _ =>
      apply fan_out_roles_spec in Hx as (rs & Ers & Wr & Hr & Ar)
  end.
  match goal with
  | Hx : GuildCache.fan_out_emojis _ _ _ = _ |- _ =>
      apply fan_out_emojis_spec in Hx as (es & Ees & We & He & Ae)
  end.
  cbv zeta in H. unfold GuildCache.addToIndex in H.
  apply index_upsert_inv in H as (s & old & w5 & Hne & Hs & Ho & Hw & H).
  apply (f_equal db) in Hw. simpl in Hw.
  inv_bind H. apply wrap_guild_db in H as [Hdb _].
  match goal with Hx : Storage.get _ _ = _ |- _ => apply GET_inv in Hx as [-> _] end.
  rewrite <- Hdb in Hw. clear Hdb.
  match type of We with
  | writes_within _ _ ?w4 => assert (writes_within [GuildCache.namespace] w4 w') as Wg
  end.
  { eapply index_upsert_within; [apply ns_key_self|apply ns_key_buildId|exact Hw]. }
  split.
  { intros C. apply Hc in C.
    apply (chan_ok_other _ _ _ _ _ Wm) in C; [|other_ns..].
    apply (chan_ok_other _ _ _ _ _ Wp) in C; [|other_ns..].
    apply (chan_ok_other _ _ _ _ _ Wr) in C; [|other_ns..].
    apply (chan_ok_other _ _ _ _ _ We) in C; [|other_ns..].
    apply (chan_ok_other _ _ _ _ _ Wg) in C; [done|other_ns..]. }
  split.
  { intros I.
    apply (idx_ok_other _ _ _ _ _ Wc) in I; [|other_ns..].
    apply (idx_ok_other _ _ _ _ _ Wm) in I; [|other_ns..].
    apply (idx_ok_other _ _ _ _ _ Wp) in I; [|other_ns..].
    apply Hr in I.
    apply (idx_ok_other _ _ _ _ _ We) in I; [|other_ns..].
    apply (idx_ok_other _ _ _ _ _ Wg) in I; [done|other_ns..]. }
  split.
  { intros I.
    apply (idx_ok_other _ _ _ _ _ Wc) in I; [|other_ns..].
    apply (idx_ok_other _ _ _ _ _ Wm) in I; [|other_ns..].
    apply (idx_ok_other _ _ _ _ _ Wp) in I; [|other_ns..].
    apply (idx_ok_other _ _ _ _ _ Wr) in I; [|other_ns..].
    apply He in I.
    apply (idx_ok_other _ _ _ _ _ Wg) in I; [done|other_ns..]. }
  split.
  { intros I.
    apply (idx_ok_other _ _ _ _ _ Wc) in I; [|other_ns..].
    apply Hm in I.
    apply (idx_ok_other _ _ _ _ _ Wp) in I; [|other_ns..].
    apply (idx_ok_other _ _ _ _ _ Wr) in I; [|other_ns..].
    apply (idx_ok_other _ _ _ _ _ We) in I; [|other_ns..].
    apply (idx_ok_other _ _ _ _ _ Wg) in I; [done|other_ns..]. }
  split.
  { exists ({[id]} ∪ s). rewrite Hw, lookup_insert_ne, lookup_insert_eq by done.
    split; [done|set_solver]. }
  split.
  { eexists. rewrite Hw. apply lookup_insert_eq. }
  exists rs, es, ms. split; [done|]. split; [done|]. split; [done|].
  split.
  { apply (all_cached_other _ _ _ _ _ _ _ We) in Ar; [|other_ns..].
    apply (all_cached_other _ _ _ _ _ _ _ Wg) in Ar; [done|other_ns..]. }
  split.
  { apply (all_cached_other _ _ _ _ _ _ _ Wg) in Ae; [done|other_ns..]. }
  apply (all_cached_other _ _ _ _ _ _ _ Wp) in Am; [|other_ns..].
  apply (all_cached_other _ _ _ _ _ _ _ Wr) in Am; [|other_ns..].
  apply (all_cached_other _ _ _ _ _ _ _ We) in Am; [|other_ns..].
  apply (all_cached_other _ _ _ _ _ _ _ Wg) in Am; [done|other_ns..].
Qed.

Lemma guild_cached_after_update self id data w c w' :
  guild_scope_ok id w = true →
  GuildCache.update_unbound self id data w = (Ok c, w') →
  guild_cached id w' = true.
Proof.
  intros Hok H.
  apply GuildCache_update_spec in H as (Hc & Hr & He & Hm & (s & Hg & _) & (o & Ho) & _).
  unfold guild_scope_ok in Hok.
  repeat match type of Hok with
         | _ && _ = true => let H2 := fresh "B" in apply andb_prop in Hok as [Hok H2]
         end.
  apply chan_ok_to_bool in Hc as (C1 & C2 & C3); [|by apply chan_ok_of_bool].
  unfold guild_cached, has_record. rewrite Ho, Hg, C1, C2, C3. simpl.
  rewrite (idx_ok_to_bool _ _ _ (Hr (idx_ok_of_bool _ _ _ B1))).
  rewrite (idx_ok_to_bool _ _ _ (He (idx_ok_of_bool _ _ _ B0))).
  by rewrite (idx_ok_to_bool _ _ _ (Hm (idx_ok_of_bool _ _ _ B))).
Qed.

(** X18.  A completed unbound [GuildCache.update] leaves the guild in the
    state [GuildCache.remove] relies on: when, before the call, the scope of
    the guild is consistent (its channel map and the channel index are sets,
    the mapped channels have documents under their keys, and the role, emoji
    and member indexes of the guild list only ids that have records), then
    afterwards the scope is consistent again, the guild's record is stored
    and the guild index is a set. *)
Theorem guild_update_leaves_a_cached_guild fuel self id data w c w' :
  boundObject self = None →
  guild_scope_ok id w = true →
  GuildCache.update (S fuel) self id data w = (Ok c, w') →
  guild_cached id w' = true.
Proof.
  intros Hu Hok H. simpl in H. rewrite Hu in H.
  by eapply guild_cached_after_update.
Qed.

Lemma guild_update_leaves_a_cached_guild_witness :
  guild_cached "7" world_with_guild = true.
Proof.
  apply (guild_update_leaves_a_cached_guild 0 (root None) "7" guild_snapshot initial_world
           (bound (record_at (GuildCache.buildId "7") world_with_guild) None None)
           world_with_guild).
  - reflexivity.
  - vm_compute. reflexivity.
  - vm_compute. reflexivity.
Defined.

Lemma all_cached_array ns g idof v l l' w :
  nonempty_array v = Ok l → v = JArr l' → all_cached ns g idof l w →
  all_cached ns g idof l' w.
Proof. intros H ->. simpl in H. by injection H as ->. Qed.

(** X19.  A completed unbound [GuildCache.update] has cached the whole
    snapshot: the guild is in the guild index and has a record, and every
    role and emoji of the payload (by its id) and every member (by the id of
    its user) is listed in the index of the guild and has a record under the
    guild. *)
Theorem guild_update_caches_the_snapshot fuel self id data w c w' :
  boundObject self = None →
  GuildCache.update (S fuel) self id data w = (Ok c, w') →
  GuildCache.isIndexed id w' = (Ok true, w')
  ∧ (∃ rec, db w' !! GuildCache.buildId id = Some (RString rec))
  ∧ (∀ roles, field data "roles" = JArr roles →
              all_cached RoleCache.namespace id payload_id roles w')
  ∧ (∀ emojis, field data "emojis" = JArr emojis →
               all_cached EmojiCache.namespace id payload_id emojis w')
  ∧ (∀ members, field data "members" = JArr members →
                all_cached MemberCache.namespace id member_uid members w').
Proof.
  intros Hu H. simpl in H. rewrite Hu in H.
  apply GuildCache_update_spec in H
    as (_ & _ & _ & _ & (s & Hg & Hs) & Ho & rs & es & ms & Er & Ee & Em & Ar & Ae & Am).
  split.
  { unfold GuildCache.isIndexed. rewrite isListMember_spec by (by rewrite Hg).
    unfold members_at. rewrite Hg. by rewrite bool_decide_eq_true_2. }
  split; [done|].
  split; [intros l Hl; exact (all_cached_array _ _ _ _ _ _ _ Er Hl Ar)|].
  split; [intros l Hl; exact (all_cached_array _ _ _ _ _ _ _ Ee Hl Ae)|].
  intros l Hl. exact (all_cached_array _ _ _ _ _ _ _ Em Hl Am).
Qed.

Lemma guild_update_caches_the_snapshot_witness :
  GuildCache.isIndexed "7" world_with_guild = (Ok true, world_with_guild)
  ∧ (∃ rec, db world_with_guild !! GuildCache.buildId "7" = Some (RString rec))
  ∧ (∀ roles, field guild_snapshot "roles" = JArr roles →
              all_cached RoleCache.namespace "7" payload_id roles world_with_guild)
  ∧ (∀ emojis, field guild_snapshot "emojis" = JArr emojis →
               all_cached EmojiCache.namespace "7" payload_id emojis world_with_guild)
  ∧ (∀ members, field guild_snapshot "members" = JArr members →
                all_cached MemberCache.namespace "7" member_uid members world_with_guild).
Proof.
  apply (guild_update_caches_the_snapshot 0 (root None) "7" guild_snapshot initial_world
           (bound (record_at (GuildCache.buildId "7") world_with_guild) None None)
           world_with_guild).
  - reflexivity.
  - vm_compute. reflexivity.
Defined.

(** ** Member events *)

Lemma member_update_step member g w w' :
  EventProcessor.member_update member (JStr g) w = (Ok tt, w') →
  ∃ x, member_uid member = Some x
       ∧ scoped_step [UserCache.namespace; MemberCache.namespace] MemberCache.namespace
                     g x w w'.
Proof.
  unfold EventProcessor.member_update. intros H.
  inv_bind H. apply lift_ok_inv in H0 as [H0 ->]. apply as_obj_ok in H0 as ->.
  inv_bind H. apply lift_ok_inv in H0 as [H0 ->]. apply as_obj_ok in H0.
  inv_bind H. apply lift_ok_inv in H1 as [H1 ->]. apply as_str_ok in H1.
  inv_bind H. apply lift_ok_inv in H2 as [[= <-] ->].
  inv_bind H. apply gets_ok_inv in H2 as [-> ->].
  inv_bind H. apply ret_ok_inv in H as [_ ->].
  eexists. split; [simpl; rewrite H0; apply payload_id_of; eassumption|].
  eapply MemberCache_update_step; eassumption.
Qed.

(** X20.  A GUILD_MEMBERS_CHUNK event that completes has cached every member
    of the chunk: each one has a user id, is listed in the member index of
    the guild and has a record under the guild; keys outside the user and
    member namespaces are not written. *)
Theorem members_chunk_caches_every_member chunk g members w w' :
  field chunk "guild_id" = JStr g →
  field chunk "members" = JArr members →
  EventProcessor.process (members_chunk_event chunk) w = (Ok tt, w') →
  all_cached MemberCache.namespace g member_uid members w'
  ∧ writes_within [UserCache.namespace; MemberCache.namespace] w w'.
Proof.
  intros Hg Hm H.
  change (EventProcessor.process (members_chunk_event chunk) w)
    with ((d0 <- lift (as_obj (JObj chunk)) ;;
           members <- lift (match field d0 "members" with
                            | JArr l => Ok l
                            | JUndef | JNull => Err TypeError
                            | _ => Err OutOfModel
                            end) ;;
           for_each (fun member => EventProcessor.member_update member (field d0 "guild_id"))
                    members) w) in H.
  inv_bind H. apply lift_ok_inv in H0 as [[= <-] ->].
  rewrite Hm, Hg in H. inv_bind H. apply lift_ok_inv in H0 as [[= <-] ->].
  eapply (scoped_loop [UserCache.namespace; MemberCache.namespace] MemberCache.namespace g _
            member_uid) in H as (L1 & _ & _ & _ & L5); [done|].
  intros a w1 w2 Ha. by apply member_update_step.
Qed.

Lemma members_chunk_caches_every_member_witness :
  let w' := exec (EventProcessor.process (members_chunk_event chunk_of_two)) initial_world in
  all_cached MemberCache.namespace "g1" member_uid
    [JObj (object [("user", JObj bob_user)]); JObj (object [("user", JObj eve_user)])] w'
  ∧ writes_within [UserCache.namespace; MemberCache.namespace] initial_world w'.
Proof.
  apply (members_chunk_caches_every_member chunk_of_two "g1").
  - reflexivity.
  - reflexivity.
  - vm_compute. reflexivity.
Defined.

(** X21.  GUILD_MEMBER_REMOVE undoes GUILD_MEMBER_ADD: after the add event
    for a member has completed, the remove event for the same user and guild
    completes, the member is no longer stored nor listed in the member index
    of the guild, and the user cache is not touched by the removal. *)
Theorem member_remove_undoes_member_add member g u uid w w1 :
  field member "guild_id" = JStr g →
  field member "user" = JObj u →
  field u "id" = JStr uid →
  EventProcessor.process (member_add_event member) w = (Ok tt, w1) →
  ∃ w2,
    EventProcessor.process (member_remove_event member) w1 = (Ok tt, w2)
    ∧ MemberCache.get (root_member w2) uid (Some g) w2 = (Ok None, w2)
    ∧ MemberCache.isIndexed (root_member w2) uid (Some g) w2 = (Ok false, w2)
    ∧ ∀ k, ns_key UserCache.namespace k → db w2 !! k = db w1 !! k.
Proof.
  intros Hg Hu Hid H.
  change (EventProcessor.process (member_add_event member) w)
    with ((d0 <- lift (as_obj (JObj member)) ;;
           EventProcessor.member_update (JObj d0) (field d0 "guild_id")) w) in H.
  inv_bind H. apply lift_ok_inv in H0 as [[= <-] ->]. rewrite Hg in H.
  pose proof H as Hstep. apply member_update_step in Hstep as (x & Hx & S).
  simpl in Hx. rewrite Hu in Hx. simpl in Hx. rewrite Hid in Hx. injection Hx as <-.
  destruct S as (_ & _ & S3 & _ & _ & o & S6).
  set (idx := BaseCache.buildId MemberCache.namespace g) in *.
  set (rec := BaseCache.scopedId MemberCache.namespace uid (Some g)) in *.
  assert (truthy_os (Some g) = true) as Ht.
  { unfold EventProcessor.member_update in H.
    do 6 (inv_bind H).
    match goal with
    | Hupd : MemberCache.update_unbound _ _ ?gid _ _ = _,
      Hgid : lift (as_ostr (JStr g)) _ = (Ok ?gid, _) |- _ =>
        apply lift_ok_inv in Hgid as [[= <-] _];
        unfold MemberCache.update_unbound, dflt in Hupd;
        by destruct (truthy_os (Some g))
    end. }
  assert (rec ≠ idx) as Hne.
  { unfold rec, idx, BaseCache.scopedId, BaseCache.buildId. rewrite Ht. simpl tpl.
    intros E. apply append_inj_l in E.
    apply append_inj_l in E. revert E. apply append_ne_self. done. }
  assert (set_or_none (db w1 !! idx)) as Hset.
  { unfold members_at in S3. by destruct (db w1 !! idx) as [[?|?]|]. }
  destruct (scoped_remove_spec idx rec uid w1 Hne Hset) as (w2 & R & _ & Env & Rn & Rf & Rm & _).
  { by rewrite S6. }
  exists w2.
  assert (EventProcessor.process (member_remove_event member) w1
          = MemberCache.remove_unbound (root_member w1) uid (Some g) w1) as ->.
  { change (EventProcessor.process (member_remove_event member) w1)
      with ((d0 <- lift (as_obj (JObj member)) ;;
             u0 <- lift (as_obj (field d0 "user")) ;;
             uid0 <- lift (as_str (field u0 "id")) ;;
             gid <- lift (as_ostr (field d0 "guild_id")) ;;
             mc <- gets root_member ;;
             MemberCache.remove_unbound mc uid0 gid) w1).
    rewrite (bind_run _ _ w1 member w1) by reflexivity.
    rewrite (bind_run _ _ w1 u w1) by (unfold lift; by rewrite Hu).
    rewrite (bind_run _ _ w1 uid w1) by (unfold lift; by rewrite Hid).
    rewrite (bind_run _ _ w1 (Some g) w1) by (unfold lift; by rewrite Hg).
    reflexivity. }
  split; [exact R|].
  split.
  { unfold MemberCache.get, root_member, root, MemberCache.buildId, dflt.
    cbn [boundObject]. unfold Storage.get, Redis.GET, bind.
    fold rec. by rewrite Rn. }
  split.
  { unfold MemberCache.isIndexed, BaseCache.isIndexed, BaseCache.indexKey, dflt. simpl tpl.
    fold idx.
    assert (members_at idx w2 = members_at idx w1 ∖ {[uid]}) as Hm2
      by (apply Rm; by rewrite S6).
    assert (set_or_none (db w2 !! idx)) as Hset2.
    { destruct (decide (idx = rec)) as [E|E]; [by rewrite E in Hne|].
      destruct (db w2 !! idx) as [[o2|s2]|] eqn:E2; try done.
      exfalso. destruct (scoped_remove_spec idx rec uid w1 Hne Hset) as (w3 & R3 & Sh & _);
        [by rewrite S6|].
      assert (w3 = w2) as -> by congruence.
      specialize (Sh idx). rewrite E2 in Sh.
      by destruct (db w1 !! idx) as [[?|?]|]. }
    rewrite isListMember_spec by done. rewrite Hm2.
    rewrite bool_decide_eq_false_2; [done|set_solver]. }
  intros k Hk. apply Rf.
  - intros ->. eapply (ns_key_disjoint UserCache.namespace MemberCache.namespace);
      [other_ns..|exact Hk|apply ns_key_buildId].
  - intros ->. eapply (ns_key_disjoint UserCache.namespace MemberCache.namespace);
      [other_ns..|exact Hk|apply ns_key_scopedId].
Qed.

Lemma member_remove_undoes_member_add_witness :
  let w1 := exec (EventProcessor.process (member_add_event bob_joins)) initial_world in
  ∃ w2,
    EventProcessor.process (member_remove_event bob_joins) w1 = (Ok tt, w2)
    ∧ MemberCache.get (root_member w2) "u1" (Some "g1") w2 = (Ok None, w2)
    ∧ MemberCache.isIndexed (root_member w2) "u1" (Some "g1") w2 = (Ok false, w2)
    ∧ ∀ k, ns_key UserCache.namespace k → db w2 !! k = db w1 !! k.
Proof.
  apply (member_remove_undoes_member_add bob_joins "g1" bob_user "u1" initial_world).
  - reflexivity.
  - reflexivity.
  - reflexivity.
  - vm_compute. reflexivity.
Defined.

(** ** Guild events *)

(** X22.  A GUILD_DELETE event that reports the guild as unavailable does
    not remove it: when the event completes, the guild is in the guild index
    and its record carries the [unavailable] field of the event. *)
Theorem unavailable_guild_is_kept guild id v w w' :
  guild !! "unavailable" = Some v →
  truthy v = true →
  field guild "id" = JStr id →
  EventProcessor.process (guild_delete_event guild) w = (Ok tt, w') →
  GuildCache.isIndexed id w' = (Ok true, w')
  ∧ ∃ rec, db w' !! GuildCache.buildId id = Some (RString rec)
           ∧ rec !! "unavailable" = Some (json_roundtrip v).
Proof.
  intros Hv Ht Hid H.
  assert (truthy (field guild "unavailable") = true) as Hf.
  { unfold field. by rewrite Hv. }
  change (EventProcessor.process (guild_delete_event guild) w)
    with ((d0 <- lift (as_obj (JObj guild)) ;;
           if truthy (field d0 "unavailable") then
             gid <- lift (as_str (field d0 "id")) ;;
             EventProcessor.guild_update gid d0
           else
             gid <- lift (as_str (field d0 "id")) ;;
             self <- gets (fun _ => root None) ;;
             GuildCache.remove_unbound self gid) w) in H.
  inv_bind H. apply lift_ok_inv in H0 as [[= <-] ->]. rewrite Hf, Hid in H.
  inv_bind H. apply lift_ok_inv in H0 as [[= <-] ->].
  unfold EventProcessor.guild_update in H. inv_bind H. apply gets_ok_inv in H0 as [-> ->].
  inv_bind H. apply ret_ok_inv in H as [_ ->].
  match goal with
  | Hupd : GuildCache.update_unbound ?self id guild ?wa = (Ok ?c, ?wb) |- _ =>
      destruct (k_update_inv Guild 0 self id "" guild wa c wb eq_refl Hupd) as [w0' Hup]
  end.
  pose proof (listed_of_upserted _ _ _ _ _ _ _ Hup) as [Hl _].
  split; [exact Hl|].
  destruct Hup as (s & old & _ & _ & _ & Hdb). eexists. split.
  { rewrite Hdb. apply lookup_insert_eq. }
  apply stored_field; [|by apply truthy_defined].
  simpl k_stored. unfold GuildCache.strip. by rewrite !lookup_delete_ne.
Qed.

Lemma unavailable_guild_is_kept_witness :
  let w' := exec (EventProcessor.process (guild_delete_event guild_outage)) world_with_guild in
  GuildCache.isIndexed "7" w' = (Ok true, w')
  ∧ ∃ rec, db w' !! GuildCache.buildId "7" = Some (RString rec)
           ∧ rec !! "unavailable" = Some (json_roundtrip (JBool true)).
Proof.
  apply (unavailable_guild_is_kept guild_outage "7" (JBool true) world_with_guild).
  - reflexivity.
  - reflexivity.
  - reflexivity.
  - vm_compute. reflexivity.
Defined.

(** X23.  [GuildCache.get] of a stored guild rebinds the caches it shares
    with the rest of the library: the call returns an instance bound to the
    stored record and leaves the shared role, emoji, member and channel caches
    bound to the id found in that record, so that their index helpers called
    without a guild id afterwards read the indexes of that guild. *)
Theorem GuildCache_get_rebinds_the_shared_caches self id rec gid w :
  boundObject self = None →
  db w !! GuildCache.buildId id = Some (RString rec) →
  BaseCache.plain GuildCache.reserved rec = true →
  field rec "id" = JStr gid →
  ∃ w', GuildCache.get self id w = (Ok (Some (Inst (bound rec None None))), w')
        ∧ db w' = db w
        ∧ boundGuild (root_role w') = Some gid
        ∧ boundGuild (root_emoji w') = Some gid
        ∧ boundGuild (root_member w') = Some gid
        ∧ boundGuild (root_channel w') = Some gid
        ∧ RoleCache.getIndexMembers (root_role w') None w'
          = RoleCache.getIndexMembers (root_role w') (Some gid) w'
        ∧ EmojiCache.getIndexMembers (root_emoji w') None w'
          = EmojiCache.getIndexMembers (root_emoji w') (Some gid) w'
        ∧ MemberCache.getIndexMembers (root_member w') None w'
          = MemberCache.getIndexMembers (root_member w') (Some gid) w'.
Proof.
  intros Hu Hrec Hp Hid. exists (bind_guilds (Some gid) w). split.
  { unfold GuildCache.get. rewrite Hu. unfold Storage.get, Redis.GET, bind. rewrite Hrec.
    unfold GuildCache.wrap, bind, lift, modify. rewrite Hid. simpl as_ostr. cbv iota.
    unfold GuildCache.construct, BaseCache.construct, BaseCache.bindObject. rewrite Hp.
    reflexivity. }
  repeat split; reflexivity.
Qed.

Lemma GuildCache_get_rebinds_the_shared_caches_witness :
  ∃ w', GuildCache.get (root None) "7" world_with_guild
        = (Ok (Some (Inst (bound (record_at (GuildCache.buildId "7") world_with_guild)
                                 None None))), w')
        ∧ db w' = db world_with_guild
        ∧ boundGuild (root_role w') = Some "7"
        ∧ boundGuild (root_emoji w') = Some "7"
        ∧ boundGuild (root_member w') = Some "7"
        ∧ boundGuild (root_channel w') = Some "7"
        ∧ RoleCache.getIndexMembers (root_role w') None w'
          = RoleCache.getIndexMembers (root_role w') (Some "7") w'
        ∧ EmojiCache.getIndexMembers (root_emoji w') None w'
          = EmojiCache.getIndexMembers (root_emoji w') (Some "7") w'
        ∧ MemberCache.getIndexMembers (root_member w') None w'
          = MemberCache.getIndexMembers (root_member w') (Some "7") w'.
Proof.
  apply (GuildCache_get_rebinds_the_shared_caches (root None) "7"
           (record_at (GuildCache.buildId "7") world_with_guild) "7" world_with_guild).
  - reflexivity.
  - vm_compute. reflexivity.
  - vm_compute. reflexivity.
  - vm_compute. reflexivity.
Defined.

(** ** Channels and their permission overwrites *)

Lemma PermissionOverwriteCache_update_step self x ch data w c w' :
  PermissionOverwriteCache.update_unbound self x (Some ch) data w = (Ok c, w') →
  scoped_step [PermissionOverwriteCache.namespace] PermissionOverwriteCache.namespace
              ch x w w'.
Proof.
  unfold PermissionOverwriteCache.update_unbound.
  unfold BaseCache.addToIndex, BaseCache.indexKey, PermissionOverwriteCache.buildId, dflt.
  simpl tpl.
  intros H. apply index_upsert_inv in H as (s & old & w2 & Hne & Hs & Ho & Hw & H).
  apply lift_ok_inv in H as [_ ->]. apply (f_equal db) in Hw. simpl in Hw.
  destruct (idx_ok_step PermissionOverwriteCache.namespace ch x s _ w w2 Hne Hs Hw)
    as (H1 & H2 & H3 & H4 & H5 & H6).
  unfold scoped_step. split; [done|]. split; [done|]. split; [done|]. split; [done|].
  split; [|done]. intros y o. apply H5.
Qed.

Lemma store_overwrites_spec id data l w w' :
  field data "permission_overwrites" = JArr l →
  ChannelCache.store_overwrites id data w = (Ok tt, w') →
  all_cached PermissionOverwriteCache.namespace id payload_id l w'.
Proof.
  intros Hl. unfold ChannelCache.store_overwrites. rewrite Hl. simpl truthy. cbv iota.
  intros H. inv_bind H. apply lift_ok_inv in H0 as [[= <-] ->].
  eapply (scoped_loop [PermissionOverwriteCache.namespace] PermissionOverwriteCache.namespace
            id _ payload_id) in H as (_ & _ & _ & _ & L5); [done|].
  clear. intros a w w' H. inv_bind H. apply lift_ok_inv in H0 as [H0 ->].
  apply as_obj_ok in H0 as ->. inv_bind H. apply lift_ok_inv in H0 as [H0 ->].
  apply as_str_ok in H0. inv_bind H. apply gets_ok_inv in H1 as [-> ->].
  inv_bind H. apply ret_ok_inv in H as [_ ->].
  eexists. split; [apply payload_id_of; eassumption|].
  eapply PermissionOverwriteCache_update_step; eassumption.
Qed.

Lemma map_owner_guild data g cid w w' :
  field data "guild_id" = JStr g →
  truthy (JStr g) = true →
  field data "id" = JStr cid →
  ChannelCache.map_owner data w = (Ok tt, w') →
  cid ∈ members_at (ChannelMapCache.mapKey g "guild") w'.
Proof.
  intros Hg Ht Hc. unfold ChannelCache.map_owner. rewrite Hg, Hc, Ht.
  intros H. simpl in H. inv_bind H. apply lift_ok_inv in H0 as [[= <-] ->].
  inv_bind H. apply lift_ok_inv in H0 as [[= <-] ->].
  inv_bind H. apply gets_ok_inv in H0 as [-> ->].
  inv_bind H. apply ret_ok_inv in H as [_ ->].
  apply ChannelMapCache_merge_inv in H0 as [Hs Hdb]; [|done].
  unfold members_at at 1. rewrite Hdb, lookup_insert_eq. set_solver.
Qed.

(** X24.  A completed unbound [ChannelCache.update(id, data)] files the
    channel three times: the id argument is in the channel index and has a
    record; when the data carry a non-empty guild id, the id of the data (not
    the id argument) is in the channel map of that guild; and every
    permission overwrite of the data is listed and stored under the id
    argument. *)
Theorem channel_update_files_the_channel fuel self id data w c w' :
  boundObject self = None →
  ChannelCache.update (S fuel) self id data w = (Ok c, w') →
  ChannelCache.isIndexed id w' = (Ok true, w')
  ∧ (∃ rec, db w' !! ChannelCache.buildId id = Some (RString rec))
  ∧ (∀ g cid, field data "guild_id" = JStr g → truthy (JStr g) = true →
              field data "id" = JStr cid →
              cid ∈ members_at (ChannelMapCache.mapKey g "guild") w')
  ∧ (∀ overwrites, field data "permission_overwrites" = JArr overwrites →
                   all_cached PermissionOverwriteCache.namespace id payload_id overwrites w').
Proof.
  intros Hu H.
  destruct (k_update_inv Channel fuel self id "" data w c w' Hu H) as [w0' Hup].
  pose proof (listed_of_upserted _ _ _ _ _ _ _ Hup) as [Hl _].
  split; [exact Hl|].
  split.
  { destruct Hup as (s & old & _ & _ & _ & Hdb). eexists. rewrite Hdb.
    apply lookup_insert_eq. }
  simpl in H. rewrite Hu in H. unfold ChannelCache.update_unbound in H.
  inv_bind H. destruct a. inv_bind H. destruct a. cbv zeta in H.
  unfold ChannelCache.addToIndex in H.
  apply index_upsert_inv in H as (s & old & w3 & Hne & Hs & Ho & Hw & H).
  apply (f_equal db) in Hw. simpl in Hw.
  inv_bind H. apply wrap_channel_db in H as [Hdb _].
  match goal with Hx : Storage.get _ _ = _ |- _ => apply GET_inv in Hx as [-> _] end.
  rewrite <- Hdb in Hw. clear Hdb.
  match goal with
  | Hx : ChannelCache.store_overwrites _ _ ?wa = (_, ?wb) |- _ =>
      assert (writes_within [ChannelCache.namespace] wb w') as Wc
        by (eapply index_upsert_within; [apply ns_key_self|apply ns_key_buildId|exact Hw]);
      pose proof (store_overwrites_within _ _ _ _ Hx) as Wp
  end.
  split.
  - intros g cid Hg Ht Hc.
    match goal with
    | Hx : ChannelCache.map_owner _ _ = _ |- _ =>
        pose proof (map_owner_guild _ _ _ _ _ Hg Ht Hc Hx) as Hm
    end.
    unfold members_at in *.
    rewrite (writes_within_other _ ChannelMapCache.namespace _ _ _ Wc);
      [|other_ns..|apply mapKey_ns].
    rewrite (writes_within_other _ ChannelMapCache.namespace _ _ _ Wp);
      [|other_ns..|apply mapKey_ns].
    exact Hm.
  - intros l Hov.
    match goal with
    | Hx : ChannelCache.store_overwrites _ _ _ = _ |- _ =>
        pose proof (store_overwrites_spec _ _ _ _ _ Hov Hx) as Ha
    end.
    apply (all_cached_other _ _ _ _ _ _ _ Wc) in Ha; [done|other_ns..].
Qed.

Lemma channel_update_files_the_channel_witness :
  let w' := exec (ChannelCache.update 1 (root None) "c1" locked_channel) initial_world in
  ChannelCache.isIndexed "c1" w' = (Ok true, w')
  ∧ (∃ rec, db w' !! ChannelCache.buildId "c1" = Some (RString rec))
  ∧ (∀ g cid, field locked_channel "guild_id" = JStr g → truthy (JStr g) = true →
              field locked_channel "id" = JStr cid →
              cid ∈ members_at (ChannelMapCache.mapKey g "guild") w')
  ∧ (∀ overwrites, field locked_channel "permission_overwrites" = JArr overwrites →
                   all_cached PermissionOverwriteCache.namespace "c1" payload_id overwrites w').
Proof.
  apply (channel_update_files_the_channel 0 (root None) "c1" locked_channel initial_world
           (bound (record_at (ChannelCache.buildId "c1")
                     (exec (ChannelCache.update 1 (root None) "c1" locked_channel)
                           initial_world)) None None)).
  - reflexivity.
  - vm_compute. reflexivity.
Defined.

(** ** The cascade of a guild removal, key by key *)

Lemma unindex_delete_frame idx id rec w w' :
  (Storage.removeFromList idx id ;;; Storage.remove rec) w = (Ok tt, w') →
  (∀ k, k ≠ idx → k ≠ rec → db w' !! k = db w !! k)
  ∧ (rec ≠ idx → members_at idx w' = members_at idx w ∖ {[id]}).
Proof.
  intros H. inv_bind H. destruct a. apply SREM_inv in H0.
  unfold Storage.remove, Redis.DEL in H. injection H as <-. simpl. split.
  - intros k Hk1 Hk2. rewrite lookup_delete_ne by done.
    destruct H0 as [[_ ->]|(s & _ & ->)]; [done|].
    case_decide; [by rewrite lookup_delete_ne|by rewrite lookup_insert_ne].
  - intros Hne. unfold members_at. simpl. rewrite lookup_delete_ne by done.
    destruct H0 as [[Hn ->]|(s & Hs & ->)].
    + rewrite Hn. set_solver.
    + rewrite Hs. case_decide.
      * rewrite lookup_delete_eq. set_solver.
      * by rewrite lookup_insert_eq.
Qed.

Lemma scope_emptied_records ns id w0 w :
  index_has_records ns id w0 = true →
  shrinks (db w0) (db w) →
  (∀ x, x ∈ elements (members_at (BaseCache.buildId ns id) w0) →
        db w !! BaseCache.scopedId ns x (Some id) = db w0 !! BaseCache.scopedId ns x (Some id)) →
  ∃ w', for_each (fun x => scoped_remove (BaseCache.buildId ns id)
                             (BaseCache.scopedId ns x (Some id)) x)
                 (elements (members_at (BaseCache.buildId ns id) w0)) w = (Ok tt, w')
        ∧ shrinks (db w) (db w')
        ∧ members_at (BaseCache.buildId ns id) w' = ∅
        ∧ (∀ x, x ∈ members_at (BaseCache.buildId ns id) w0 →
                db w' !! BaseCache.scopedId ns x (Some id) = None)
        ∧ (∀ k, k ≠ BaseCache.buildId ns id →
                (∀ x, k ≠ BaseCache.scopedId ns x (Some id)) → db w' !! k = db w !! k).
Proof.
  intros Hc Hs Hkeep. destruct (index_has_records_spec _ _ _ Hc) as [Hi Hr].
  destruct (remove_loop (BaseCache.buildId ns id)
              (fun x => BaseCache.scopedId ns x (Some id))
              (fun x y => scopedId_inj ns (Some id) x y)
              (elements (members_at (BaseCache.buildId ns id) w0)) w)
    as (w' & H & Hs' & He & Hn & Hf & Hm & _).
  - apply NoDup_elements.
  - intros x Hx. by eapply record_ne_index.
  - by eapply shrinks_set_or_none.
  - intros x Hx. rewrite Hkeep by done. destruct (Hr x Hx) as [o ->]. done.
  - exists w'. split; [done|]. split; [done|]. split.
    { rewrite Hm.
      - pose proof (shrinks_members w0 w (BaseCache.buildId ns id) Hs).
        apply set_eq. intros y. rewrite elem_of_difference, elem_of_list_to_set,
          elem_of_elements. set_solver.
      - intros x Hx. rewrite Hkeep by done. destruct (Hr x Hx) as [o ->]. eauto. }
    split.
    { intros x Hx. apply Hn. by apply elem_of_elements. }
    intros k H1 H2. apply Hf; [done|]. intros x _. apply H2.
Qed.

(** The unbound removal of a cached guild. *)
Lemma guild_remove_spec self id w :
  guild_cached id w = true →
  ∃ w',
    GuildCache.remove_unbound self id w = (Ok tt, w')
    ∧ shrinks (db w) (db w')
    ∧ (∀ k, ¬ guild_key id w k → db w' !! k = db w !! k)
    ∧ (∀ ns, ns ∈ [RoleCache.namespace; EmojiCache.namespace; MemberCache.namespace] →
             members_at (BaseCache.buildId ns id) w' = ∅
             ∧ set_or_none (db w' !! BaseCache.buildId ns id)
             ∧ ∀ x, x ∈ members_at (BaseCache.buildId ns id) w →
                    db w' !! BaseCache.scopedId ns x (Some id) = None)
    ∧ (∀ c, c ∈ members_at (ChannelMapCache.mapKey id "guild") w →
            db w' !! ChannelCache.buildId c = None)
    ∧ db w' !! ChannelMapCache.mapKey id "guild" = None
    ∧ db w' !! GuildCache.buildId id = None
    ∧ set_or_none (db w' !! GuildCache.namespace)
    ∧ members_at GuildCache.namespace w' = members_at GuildCache.namespace w ∖ {[id]}
    ∧ (∀ c, c ∉ members_at (ChannelMapCache.mapKey id "guild") w →
            c ∈ members_at ChannelCache.namespace w →
            c ∈ members_at ChannelCache.namespace w').
Proof.
  intros Hc. unfold guild_cached in Hc.
  apply andb_prop in Hc as [Hc Hm]. apply andb_prop in Hc as [Hc He].
  apply andb_prop in Hc as [Hc Hr]. apply andb_prop in Hc as [Hc Hch].
  apply andb_prop in Hc as [Hc Hci]. apply andb_prop in Hc as [Hc Hmk].
  apply andb_prop in Hc as [Hg Hgi].
  apply has_record_spec in Hg as [grec Hg].
  apply is_set_or_none_spec in Hgi, Hmk, Hci.
  pose proof (index_has_records_spec _ _ _ Hr) as [Hri Hrr].
  pose proof (index_has_records_spec _ _ _ He) as [Hei Her].
  pose proof (index_has_records_spec _ _ _ Hm) as [Hmi Hmr].
  set (mk := ChannelMapCache.mapKey id "guild") in *.
  set (lc := elements (members_at mk w)) in *.
  destruct (scope_emptied_records EmojiCache.namespace id w w He (shrinks_refl _))
    as (w1 & L1 & S1 & M1 & N1 & F1); [done|].
  destruct (scope_emptied_records RoleCache.namespace id w w1 Hr S1)
    as (w2 & L2 & S2 & M2 & N2 & F2).
  { intros x Hx. apply F1; [keys_ne|]. intros y. keys_ne. }
  pose proof (shrinks_trans _ _ _ S1 S2) as S02.
  destruct (remove_loop ChannelCache.namespace ChannelCache.buildId channel_key_inj lc w2)
    as (w3 & L3 & S3 & E3 & N3 & F3 & _ & K3).
  { apply NoDup_elements. }
  { intros c _. keys_ne. }
  { by eapply shrinks_set_or_none. }
  { intros c Hcl. eapply shrinks_string_or_none; [done|].
    apply is_string_or_none_spec. rewrite forallb_forall in Hch. apply Hch.
    by apply list_elem_of_In. }
  pose proof (shrinks_trans _ _ _ S02 S3) as S03.
  destruct (scope_emptied_records MemberCache.namespace id w w3 Hm S03)
    as (w4 & L4 & S4 & M4 & N4 & F4).
  { intros x Hx. rewrite F3, F2, F1; first done.
    all: try keys_ne. all: intros y; first [keys_ne | intros _; keys_ne]. }
  pose proof (shrinks_trans _ _ _ S03 S4) as S04.
  set (w5 := set_db (delete mk) (WDel mk) w4).
  assert (ChannelMapCache.remove (root_channelMap w4) id "guild" w4 = (Ok tt, w5)) as L5.
  { unfold ChannelMapCache.remove, ChannelMapCache.remove_unbound. simpl.
    rewrite (bind_run _ _ _ _ _ (getListMembers_spec _ _
               (shrinks_set_or_none _ _ _ S04 Hmk))). reflexivity. }
  assert (shrinks (db w4) (db w5)) as S5 by apply shrinks_delete.
  pose proof (shrinks_trans _ _ _ S04 S5) as S05.
  destruct (unindex_delete_runs GuildCache.namespace id (GuildCache.buildId id) w5)
    as (w' & L6 & S6 & N6).
  { by eapply shrinks_set_or_none. }
  pose proof (shrinks_trans _ _ _ S5 S6) as S4'.
  pose proof (shrinks_trans _ _ _ S4 S4') as S3'.
  pose proof (shrinks_trans _ _ _ S3 S3') as S2'.
  pose proof (shrinks_trans _ _ _ S2 S2') as S1'.
  pose proof (shrinks_trans _ _ _ S1 S1') as S0'.
  destruct (unindex_delete_frame _ _ _ _ _ L6) as [F6 M6].
  assert (∀ k, ¬ guild_key id w k → db w' !! k = db w !! k) as Hframe.
  { intros k Hk.
    assert (∀ ns x, ns ∈ [RoleCache.namespace; EmojiCache.namespace; MemberCache.namespace] →
                    k ≠ BaseCache.buildId ns id ∧ k ≠ BaseCache.scopedId ns x (Some id))
      as Hsc.
    { intros ns x Hns. split; intros ->; apply Hk; do 5 right; exists ns; eauto. }
    rewrite F6.
    2:{ intros ->. apply Hk. right. by left. }
    2:{ intros ->. apply Hk. by left. }
    unfold w5. simpl. rewrite lookup_delete_ne.
    2:{ intros <-. apply Hk. do 2 right. by left. }
    rewrite F4, F3, F2, F1; first done.
    - apply (Hsc EmojiCache.namespace ""). set_solver.
    - intros x. apply (Hsc EmojiCache.namespace x). set_solver.
    - apply (Hsc RoleCache.namespace ""). set_solver.
    - intros x. apply (Hsc RoleCache.namespace x). set_solver.
    - intros ->. apply Hk. do 3 right. by left.
    - intros c Hcl ->. apply Hk. do 4 right. left. exists c.
      split; [by apply elem_of_elements|done].
    - apply (Hsc MemberCache.namespace ""). set_solver.
    - intros x. apply (Hsc MemberCache.namespace x). set_solver. }
  exists w'. split.
  { unfold GuildCache.remove_unbound.
    rewrite (bind_run _ _ w (Some grec) w)
      by (unfold Storage.get, Redis.GET; by rewrite Hg).
    rewrite (bind_run _ _ w (root_channelMap w) w) by done.
    rewrite (bind_run _ _ _ _ _ (ChannelMapCache_get_spec (rg_channelMap (shared w)) id "guild" w Hmk)).
    rewrite (bind_run _ _ w (root_role w) w) by done.
    rewrite (bind_run _ _ _ _ _ (getListMembers_spec _ _ Hri)).
    rewrite (bind_run _ _ w (root_emoji w) w) by done.
    rewrite (bind_run _ _ _ _ _ (getListMembers_spec _ _ Hei)).
    rewrite (bind_run _ _ w (root_member w) w) by done.
    rewrite (bind_run _ _ _ _ _ (getListMembers_spec _ _ Hmi)).
    rewrite (bind_run _ _ w tt w1).
    2:{ rewrite <- L1. by apply for_each_ext. }
    rewrite (bind_run _ _ w1 tt w2).
    2:{ rewrite <- L2. by apply for_each_ext. }
    rewrite (bind_run _ _ w2 lc w2)
      by (unfold lift; by rewrite channels_of_buildMap).
    rewrite (bind_run _ _ w2 tt w3).
    2:{ rewrite <- L3. by apply for_each_ext. }
    rewrite (bind_run _ _ w3 tt w4).
    2:{ rewrite <- L4. by apply for_each_ext. }
    rewrite (bind_run _ _ w4 (root_channelMap w4) w4) by done.
    rewrite (bind_run _ _ _ _ _ L5). exact L6. }
  split; [exact S0'|].
  split; [exact Hframe|].
  split.
  { intros ns Hns.
    assert (∀ wi, shrinks (db w) (db wi) → shrinks (db wi) (db w') →
                  members_at (BaseCache.buildId ns id) wi = ∅ →
                  (∀ x, x ∈ members_at (BaseCache.buildId ns id) w →
                        db wi !! BaseCache.scopedId ns x (Some id) = None) →
                  set_or_none (db w !! BaseCache.buildId ns id) →
                  members_at (BaseCache.buildId ns id) w' = ∅
                  ∧ set_or_none (db w' !! BaseCache.buildId ns id)
                  ∧ ∀ x, x ∈ members_at (BaseCache.buildId ns id) w →
                         db w' !! BaseCache.scopedId ns x (Some id) = None) as Hgen.
    { intros wi Sa Sb Hm0 Hn0 Hset. split.
      - pose proof (shrinks_members wi w' (BaseCache.buildId ns id) Sb). set_solver.
      - split; [exact (shrinks_set_or_none _ _ _ (shrinks_trans _ _ _ Sa Sb) Hset)|].
        intros x Hx. eapply shrinks_none; [exact Sb|]. by apply Hn0. }
    repeat (apply elem_of_cons in Hns as [->|Hns]); [..|by apply elem_of_nil in Hns].
    - exact (Hgen w2 S02 S2' M2 N2 Hri).
    - exact (Hgen w1 S1 S1' M1 N1 Hei).
    - exact (Hgen w4 S04 S4' M4 N4 Hmi). }
  split.
  { intros c Hcm. eapply shrinks_none; [exact S3'|]. apply N3. by apply elem_of_elements. }
  split.
  { eapply shrinks_none; [exact S6|]. apply lookup_delete_eq. }
  split; [exact N6|].
  split; [by eapply shrinks_set_or_none|].
  split.
  { rewrite M6 by keys_ne. f_equal. unfold members_at.
    assert (db w5 !! GuildCache.namespace = db w !! GuildCache.namespace) as ->; [|done].
    unfold w5. simpl. rewrite lookup_delete_ne by keys_ne.
    rewrite F4, F3, F2, F1; first done.
    all: try keys_ne. all: intros y; first [keys_ne | intros _; keys_ne]. }
  intros c Hc1 Hc2.
  assert (c ∈ members_at ChannelCache.namespace w3) as Hc3.
  { apply K3; [unfold lc; by rewrite elem_of_elements|].
    unfold members_at in *. rewrite F2, F1; first done.
    all: try keys_ne. all: intros y; first [keys_ne | intros _; keys_ne]. }
  unfold members_at in *.
  rewrite F6; [|keys_ne..]. unfold w5. simpl. rewrite lookup_delete_ne by keys_ne.
  rewrite F4; first done.
  all: try keys_ne. all: intros y; first [keys_ne | intros _; keys_ne].
Qed.

(** X25.  [GuildCache.remove] of a cached guild only deletes, and only in the
    guild's own scope: the removal completes, every key that does not belong
    to the guild holds what it held, nothing is added or changed anywhere, the
    guild index loses exactly this guild, the channel index keeps every
    channel that was not mapped to the guild, and the emoji index of the
    guild is empty afterwards. *)
Theorem guild_remove_touches_only_its_scope fuel self id w :
  boundObject self = None →
  guild_cached id w = true →
  ∃ w',
    GuildCache.remove (S fuel) self id w = (Ok tt, w')
    ∧ shrinks (db w) (db w')
    ∧ (∀ k, ¬ guild_key id w k → db w' !! k = db w !! k)
    ∧ members_at GuildCache.namespace w' = members_at GuildCache.namespace w ∖ {[id]}
    ∧ (∀ c, c ∉ members_at (ChannelMapCache.mapKey id "guild") w →
            c ∈ members_at ChannelCache.namespace w →
            c ∈ members_at ChannelCache.namespace w')
    ∧ EmojiCache.getIndexMembers (root_emoji w') (Some id) w' = (Ok [], w').
Proof.
  intros Hu Hc. destruct (guild_remove_spec self id w Hc)
    as (w' & H & Hs & Hf & Hsc & _ & _ & _ & _ & Hg & Hch).
  exists w'. split; [simpl; by rewrite Hu|]. split; [done|]. split; [done|].
  split; [done|]. split; [done|].
  destruct (Hsc EmojiCache.namespace) as (He & Hset & _); [set_solver|].
  unfold EmojiCache.getIndexMembers, BaseCache.getIndexMembers, BaseCache.indexKey, dflt.
  simpl tpl. rewrite getListMembers_spec by done. by rewrite He, elements_empty.
Qed.

Lemma guild_remove_touches_only_its_scope_witness :
  ∃ w',
    GuildCache.remove 1 (root None) "7" world_with_guild = (Ok tt, w')
    ∧ shrinks (db world_with_guild) (db w')
    ∧ (∀ k, ¬ guild_key "7" world_with_guild k → db w' !! k = db world_with_guild !! k)
    ∧ members_at GuildCache.namespace w'
      = members_at GuildCache.namespace world_with_guild ∖ {["7"]}
    ∧ (∀ c, c ∉ members_at (ChannelMapCache.mapKey "7" "guild") world_with_guild →
            c ∈ members_at ChannelCache.namespace world_with_guild →
            c ∈ members_at ChannelCache.namespace w')
    ∧ EmojiCache.getIndexMembers (root_emoji w') (Some "7") w' = (Ok [], w').
Proof.
  apply (guild_remove_touches_only_its_scope 0 (root None) "7" world_with_guild).
  - reflexivity.
  - vm_compute. reflexivity.
Defined.

Lemma none_stored_of_cached ns g idof l w w' :
  (∀ x, x ∈ members_at (BaseCache.buildId ns g) w →
        db w' !! BaseCache.scopedId ns x (Some g) = None) →
  all_cached ns g idof l w → none_stored ns g idof l w'.
Proof.
  intros Hn H. unfold none_stored. eapply Forall_impl; [exact H|].
  intros a (x & Hx & Hm & _). exists x. split; [done|]. by apply Hn.
Qed.

(** X26.  GUILD_DELETE undoes GUILD_CREATE: when the scope of the guild was
    consistent before the GUILD_CREATE event and that event completed, a
    GUILD_DELETE event for the guild (not marked unavailable) completes, the
    guild is neither stored nor indexed, its role, emoji and member indexes
    are empty, and no role, emoji or member of the created payload has a
    record left. *)
Theorem guild_delete_undoes_guild_create guild gone id w w1 :
  guild_scope_ok id w = true →
  field guild "id" = JStr id →
  field gone "id" = JStr id →
  truthy (field gone "unavailable") = false →
  EventProcessor.process (guild_create_event guild) w = (Ok tt, w1) →
  ∃ w2,
    EventProcessor.process (guild_delete_event gone) w1 = (Ok tt, w2)
    ∧ GuildCache.get (root None) id w2 = (Ok None, w2)
    ∧ GuildCache.isIndexed id w2 = (Ok false, w2)
    ∧ (∀ ns, ns ∈ [RoleCache.namespace; EmojiCache.namespace; MemberCache.namespace] →
             members_at (BaseCache.buildId ns id) w2 = ∅)
    ∧ (∀ roles, field guild "roles" = JArr roles →
                none_stored RoleCache.namespace id payload_id roles w2)
    ∧ (∀ emojis, field guild "emojis" = JArr emojis →
                 none_stored EmojiCache.namespace id payload_id emojis w2)
    ∧ (∀ members, field guild "members" = JArr members →
                  none_stored MemberCache.namespace id member_uid members w2).
Proof.
  intros Hok Hid Hid' Hav H.
  change (EventProcessor.process (guild_create_event guild) w)
    with ((d0 <- lift (as_obj (JObj guild)) ;;
           gid <- lift (as_str (field d0 "id")) ;;
           EventProcessor.guild_update gid d0) w) in H.
  inv_bind H. apply lift_ok_inv in H0 as [[= <-] ->]. rewrite Hid in H.
  inv_bind H. apply lift_ok_inv in H0 as [[= <-] ->].
  unfold EventProcessor.guild_update in H. inv_bind H. apply gets_ok_inv in H0 as [-> ->].
  inv_bind H. apply ret_ok_inv in H as [_ Hw1].
  match type of Hw1 with _ = ?v => subst v end.
  match goal with
  | Hupd : GuildCache.update_unbound _ _ _ _ = _ |- _ =>
      pose proof (guild_cached_after_update _ _ _ _ _ _ Hok Hupd) as Hc;
      apply GuildCache_update_spec in Hupd
        as (_ & _ & _ & _ & _ & _ & rs & es & ms & Er & Ee & Em & Ar & Ae & Am)
  end.
  destruct (guild_remove_spec (root None) id w1 Hc)
    as (w2 & R & _ & _ & Hsc & _ & _ & Hg & Hgs & Hgm & _).
  exists w2. split.
  { change (EventProcessor.process (guild_delete_event gone) w1)
      with ((d0 <- lift (as_obj (JObj gone)) ;;
             if truthy (field d0 "unavailable") then
               gid <- lift (as_str (field d0 "id")) ;;
               EventProcessor.guild_update gid d0
             else
               gid <- lift (as_str (field d0 "id")) ;;
               self <- gets (fun _ => root None) ;;
               GuildCache.remove_unbound self gid) w1).
    rewrite (bind_run _ _ w1 gone w1) by reflexivity. rewrite Hav, Hid'.
    rewrite (bind_run _ _ w1 id w1) by reflexivity.
    rewrite (bind_run _ _ w1 (root None) w1) by reflexivity. exact R. }
  split.
  { unfold GuildCache.get. simpl. unfold Storage.get, Redis.GET, bind. by rewrite Hg. }
  split.
  { unfold GuildCache.isIndexed. rewrite isListMember_spec by done.
    rewrite Hgm. rewrite bool_decide_eq_false_2; [done|set_solver]. }
  split; [intros ns Hns; by destruct (Hsc ns Hns) as [? _]|].
  split.
  { intros l Hl. destruct (Hsc RoleCache.namespace) as (_ & _ & Hn); [set_solver|].
    eapply none_stored_of_cached; [exact Hn|]. exact (all_cached_array _ _ _ _ _ _ _ Er Hl Ar). }
  split.
  { intros l Hl. destruct (Hsc EmojiCache.namespace) as (_ & _ & Hn); [set_solver|].
    eapply none_stored_of_cached; [exact Hn|]. exact (all_cached_array _ _ _ _ _ _ _ Ee Hl Ae). }
  intros l Hl. destruct (Hsc MemberCache.namespace) as (_ & _ & Hn); [set_solver|].
  eapply none_stored_of_cached; [exact Hn|]. exact (all_cached_array _ _ _ _ _ _ _ Em Hl Am).
Qed.

Lemma guild_delete_undoes_guild_create_witness :
  ∃ w2,
    EventProcessor.process (guild_delete_event guild_gone) world_with_guild = (Ok tt, w2)
    ∧ GuildCache.get (root None) "7" w2 = (Ok None, w2)
    ∧ GuildCache.isIndexed "7" w2 = (Ok false, w2)
    ∧ (∀ ns, ns ∈ [RoleCache.namespace; EmojiCache.namespace; MemberCache.namespace] →
             members_at (BaseCache.buildId ns "7") w2 = ∅)
    ∧ (∀ roles, field guild_snapshot "roles" = JArr roles →
                none_stored RoleCache.namespace "7" payload_id roles w2)
    ∧ (∀ emojis, field guild_snapshot "emojis" = JArr emojis →
                 none_stored EmojiCache.namespace "7" payload_id emojis w2)
    ∧ (∀ members, field guild_snapshot "members" = JArr members →
                  none_stored MemberCache.namespace "7" member_uid members w2).
Proof.
  apply (guild_delete_undoes_guild_create guild_snapshot guild_gone "7" initial_world
           world_with_guild).
  - vm_compute. reflexivity.
  - reflexivity.
  - reflexivity.
  - reflexivity.
  - vm_compute. reflexivity.
Defined.

(** ** Searching channels and guilds *)

(** X27.  [find] of the channel and guild caches reads the [id] of what the
    storage engine found before it builds the instance: with the list [l]
    that the storage engine's [filter] returns for the same arguments, [find]
    returns the instance of the first element of [l] when that is a stored
    object, and throws a TypeError when [l] is empty or starts with a miss
    that the predicate accepted, where the emoji cache returns an unbound
    instance. *)
Theorem channel_and_guild_find_throw_without_a_match self fn w :
  (∀ ids l w', Storage.filter fn ids ChannelCache.namespace w = (Ok l, w') →
               ChannelCache.find self fn ids w
               = match l with
                 | Some o :: _ => ChannelCache.wrap (Some o) w
                 | _ => (Err TypeError, w)
                 end)
  ∧ (∀ l w', Storage.filter fn None GuildCache.namespace w = (Ok l, w') →
             GuildCache.find self fn w
             = match l with
               | Some o :: _ => GuildCache.wrap (Some o) w
               | _ => (Err TypeError, w)
               end).
Proof.
  split.
  - intros ids l w' H. unfold ChannelCache.find.
    rewrite (bind_run _ _ _ _ _ (proj1 (Storage_find_head _ _ _ _ _ _ H))).
    by destruct l as [|[o|] l].
  - intros l w' H. unfold GuildCache.find.
    rewrite (bind_run _ _ _ _ _ (proj1 (Storage_find_head _ _ _ _ _ _ H))).
    by destruct l as [|[o|] l].
Qed.

Lemma channel_and_guild_find_throw_without_a_match_witness :
  ChannelCache.find (root None) (fun r => has_id (default ∅ r) "c2") None world_with_channel
  = (Err TypeError, world_with_channel).
Proof.
  apply (proj1 (channel_and_guild_find_throw_without_a_match (root None)
                  (fun r => has_id (default ∅ r) "c2") world_with_channel)
           None [] world_with_channel).
  vm_compute. reflexivity.
Defined.

(** * Merged records and the cascade of a guild removal *)

(** ** The record an update leaves *)

Lemma map_owner_within data w w' :
  ChannelCache.map_owner data w = (Ok tt, w') →
  writes_within [ChannelMapCache.namespace] w w'.
Proof.
  unfold ChannelCache.map_owner.
  assert (∀ cm id l type wa c wb,
            boundObject cm = None →
            ChannelMapCache.update_unbound cm id l type false wa = (Ok c, wb) →
            writes_within [ChannelMapCache.namespace] wa wb) as Hup.
  { intros cm id l type wa c wb Hu H.
    apply ChannelMapCache_merge_inv in H as [_ Hdb]; [|done].
    intros k Hk. rewrite Hdb, lookup_insert_ne; [done|].
    intros <-. apply (Hk ChannelMapCache.namespace); [by left|apply mapKey_ns]. }
  destruct (truthy (field data "guild_id")).
  - intros H. inv_bind H. apply lift_ok_inv in H0 as [_ ->].
    inv_bind H. apply lift_ok_inv in H0 as [_ ->].
    inv_bind H. apply gets_ok_inv in H0 as [-> ->].
    inv_bind H. apply ret_ok_inv in H as [_ ->]. refine (Hup _ _ _ _ _ _ _ _ H0); done.
  - destruct (truthy (field data "recipients")).
    2:{ intros H. apply ret_ok_inv in H as [_ ->]. apply writes_within_refl. }
    intros H. inv_bind H. apply lift_ok_inv in H0 as [_ ->].
    destruct (truthy a).
    2:{ apply ret_ok_inv in H as [_ ->]. apply writes_within_refl. }
    inv_bind H. apply lift_ok_inv in H0 as [_ ->].
    inv_bind H. apply lift_ok_inv in H0 as [_ ->].
    inv_bind H. apply lift_ok_inv in H0 as [_ ->].
    inv_bind H. apply gets_ok_inv in H0 as [-> ->].
    inv_bind H. apply ret_ok_inv in H as [_ ->]. refine (Hup _ _ _ _ _ _ _ _ H0); done.
Qed.

(** The record a completed unbound [update] leaves: the data handed to
    [upsert], merged over the record that was stored under the key when the
    call started. *)
Lemma k_update_merges k fuel self id scope data w c w' :
  boundObject self = None →
  k_update k (S fuel) self id (Some scope) data w = (Ok c, w') →
  db w' !! k_recordKey k self id (Some scope)
  = Some (RString (json_roundtrip_obj
                     (assign (record_at (k_recordKey k self id (Some scope)) w)
                             (k_stored k self id (Some scope) data)))).
Proof.
  intros Hu H.
  assert (∀ rec old (wa : world),
            (db wa !! rec = None ∧ old = ∅ ∨ db wa !! rec = Some (RString old)) →
            db wa !! rec = db w !! rec → record_at rec w = old) as Hold.
  { intros rec old wa Ho E. unfold record_at. rewrite <- E.
    by destruct Ho as [[-> ->] | ->]. }
  destruct k; simpl in H; rewrite Hu in H.
  - unfold EmojiCache.update_unbound, BaseCache.addToIndex, BaseCache.indexKey in H.
    simpl in H. apply index_upsert_inv in H as (s & old & w2 & Hne & Hs & Ho & -> & H).
    apply lift_ok_inv in H as [_ ->]. simpl. rewrite lookup_insert_eq.
    by rewrite (Hold _ _ w Ho eq_refl).
  - unfold RoleCache.update_unbound in H. destruct (negb _); [done|].
    unfold BaseCache.addToIndex, BaseCache.indexKey in H. simpl in H.
    apply index_upsert_inv in H as (s & old & w2 & Hne & Hs & Ho & -> & H).
    apply lift_ok_inv in H as [_ ->]. simpl. rewrite lookup_insert_eq.
    by rewrite (Hold _ _ w Ho eq_refl).
  - unfold MemberCache.update_unbound in H. simpl in H. destruct (negb _); [done|].
    inv_bind H. pose proof (extract_user_within _ _ _ _ H0) as Hw.
    apply extract_user_inv in H0 as ->.
    unfold BaseCache.addToIndex, BaseCache.indexKey in H. simpl in H.
    apply index_upsert_inv in H as (s & old & w2 & Hne & Hs & Ho & -> & H).
    apply lift_ok_inv in H as [_ ->]. simpl. rewrite lookup_insert_eq.
    rewrite (Hold _ _ w0 Ho); [done|].
    eapply (writes_within_other _ MemberCache.namespace); [exact Hw|other_ns..|].
    apply ns_key_scopedId.
  - unfold PermissionOverwriteCache.update_unbound, BaseCache.addToIndex,
      BaseCache.indexKey in H. simpl in H.
    apply index_upsert_inv in H as (s & old & w2 & Hne & Hs & Ho & -> & H).
    apply lift_ok_inv in H as [_ ->]. simpl. rewrite lookup_insert_eq.
    by rewrite (Hold _ _ w Ho eq_refl).
  - unfold ChannelCache.update_unbound in H. inv_bind H. inv_bind H.
    repeat match goal with u : unit |- _ => destruct u end.
    apply map_owner_within in H0. apply store_overwrites_within in H1.
    unfold ChannelCache.addToIndex in H.
    apply index_upsert_inv in H as (s & old & w2 & Hne & Hs & Ho & -> & H).
    inv_bind H. apply GET_inv in H2 as [-> _]. apply wrap_channel_db in H as [Hd _].
    rewrite Hd. simpl. rewrite lookup_insert_eq.
    rewrite (Hold _ _ w1 Ho); [done|].
    rewrite (writes_within_other _ ChannelCache.namespace _ _ _ H1);
      [|other_ns..|apply channel_key_ns].
    apply (writes_within_other _ ChannelCache.namespace _ _ _ H0);
      [other_ns..|apply channel_key_ns].
  - unfold GuildCache.update_unbound in H. do 5 inv_bind H.
    repeat match goal with u : unit |- _ => destruct u end.
    match goal with
    | Hx : GuildCache.fan_out_channels _ _ _ = _ |- _ =>
        apply fan_out_channels_spec in Hx as [Wc _]
    end.
    match goal with
    | Hx : GuildCache.fan_out_members _ _ _ = _ |- _ =>
        apply fan_out_members_spec in Hx as (ms & _ & Wm & _)
    end.
    match goal with
    | Hx : GuildCache.fan_out_presences _ _ = _ |- _ =>
        apply fan_out_presences_spec in Hx; rename Hx into Wp
    end.
    match goal with
    | Hx : GuildCache.fan_out_roles _ _ _ = _ |- _ =>
        apply fan_out_roles_spec in Hx as (rs & _ & Wr & _)
    end.
    match goal with
    | Hx : GuildCache.fan_out_emojis _ _ _ = _ |- _ =>
        apply fan_out_emojis_spec in Hx as (es & _ & We & _)
    end.
    unfold GuildCache.addToIndex in H.
    apply index_upsert_inv in H as (s & old & w2' & Hne & Hs & Ho & -> & H).
    inv_bind H. apply wrap_guild_db in H as [Hd _].
    match goal with Hx : Storage.get _ _ = _ |- _ => apply GET_inv in Hx as [-> _] end.
    rewrite Hd. simpl. rewrite lookup_insert_eq.
    match type of We with
    | writes_within _ _ ?w4 => rewrite (Hold _ _ w4 Ho); [done|]
    end.
    assert (ns_key GuildCache.namespace (GuildCache.buildId id)) as Hk
      by apply ns_key_buildId.
    rewrite (writes_within_other _ GuildCache.namespace _ _ _ We); [|other_ns..|done].
    rewrite (writes_within_other _ GuildCache.namespace _ _ _ Wr); [|other_ns..|done].
    rewrite (writes_within_other _ GuildCache.namespace _ _ _ Wp); [|other_ns..|done].
    rewrite (writes_within_other _ GuildCache.namespace _ _ _ Wm); [|other_ns..|done].
    apply (writes_within_other _ GuildCache.namespace _ _ _ Wc); [other_ns..|done].
Qed.

Lemma json_roundtrip_obj_twice (o : obj) f :
  json_roundtrip_obj (json_roundtrip_obj o) !! f = json_roundtrip_obj o !! f.
Proof.
  rewrite !json_roundtrip_obj_lookup.
  destruct (o !! f) as [v|]; [|done].
  destruct v; try done; rewrite json_roundtrip_idem; done.
Qed.

(** A field that no update of a sequence names is left as it was. *)
Lemma k_updates_frame k fuel self id scope ds f : ∀ w w1,
  boundObject self = None →
  k_updates k (S fuel) self id (Some scope) ds w = (Ok tt, w1) →
  (∀ d, d ∈ ds → k_stored k self id (Some scope) d !! f = None) →
  json_roundtrip_obj (record_at (k_recordKey k self id (Some scope)) w1) !! f
  = json_roundtrip_obj (record_at (k_recordKey k self id (Some scope)) w) !! f.
Proof.
  induction ds as [|d ds IH]; intros w w1 Hu H Hn.
  - apply ret_ok_inv in H as [_ ->]. done.
  - simpl in H. inv_bind H. apply (k_update_merges _ _ _ _ _ _ _ _ _ Hu) in H0.
    rewrite (IH _ _ Hu H) by (intros d' Hd'; apply Hn; by right).
    unfold record_at at 1. rewrite H0, json_roundtrip_obj_twice.
    apply stored_field_old, Hn. by left.
Qed.

(** A field that an update of a sequence stored and no later one names has
    the value of that update. *)
Lemma k_updates_keep k fuel self id scope ds f v : ∀ i d w w1,
  boundObject self = None →
  k_updates k (S fuel) self id (Some scope) ds w = (Ok tt, w1) →
  ds !! i = Some d →
  k_stored k self id (Some scope) d !! f = Some v → v ≠ JUndef →
  (∀ j d', i < j → ds !! j = Some d' → k_stored k self id (Some scope) d' !! f = None) →
  json_roundtrip_obj (record_at (k_recordKey k self id (Some scope)) w1) !! f
  = Some (json_roundtrip v).
Proof.
  induction ds as [|d0 ds IH]; intros i d w w1 Hu H Hi Hf Hv Hl; [done|].
  simpl in H. inv_bind H. destruct i as [|i].
  - injection Hi as ->. apply (k_update_merges _ _ _ _ _ _ _ _ _ Hu) in H0.
    rewrite (k_updates_frame _ _ _ _ _ _ _ _ _ Hu H).
    + unfold record_at. rewrite H0, json_roundtrip_obj_twice. by apply stored_field.
    + intros d' Hd'. apply list_elem_of_lookup in Hd' as [j Hj].
      apply (Hl (S j)); [lia|done].
  - apply (IH i d _ _ Hu H Hi Hf Hv). intros j d' Hij Hj.
    apply (Hl (S j)); [lia|done].
Qed.

(** C5 (amended).  For the entity kinds emoji, role, member, permission
    overwrite, channel and guild, from any stored state [w] and after any
    sequence [ds] of earlier unbound updates of the same entity: when an
    unbound [update(id, scope, data)] has completed, a [get(id, scope)] that
    completes returns an object [rec] that is the data [update] handed to
    [upsert] merged over the record that was stored before this update, as
    the JSON round trip of the storage engine gives it.  The data handed to
    [upsert] is the data after the fields the cache fills in (role and member:
    [guild_id], [id]) and without the sub-entities it routes to other caches
    (member: [user]; channel: [permission_overwrites], [recipients]; guild:
    [members], [voice_states], [roles], [presences], [emojis], [features],
    [channels]).  So [rec] has every field of that data with its round-tripped
    value; a field that the data does not name is as the record stored before
    had it; a field that an earlier update of the sequence stored and that no
    later update names still has the value of that update; and a field that
    no update names is as it was before the sequence. *)
Theorem C5_update_then_get k fuel self id scope ds data w w1 c w' e w'' :
  boundObject self = None →
  k_updates k (S fuel) self id (Some scope) ds w = (Ok tt, w1) →
  k_update k (S fuel) self id (Some scope) data w1 = (Ok c, w') →
  k_get k self id (Some scope) w' = (Ok e, w'') →
  ∃ e' rec,
    e = Some e' ∧ entity_obj e' = Some rec
    ∧ rec = json_roundtrip_obj
              (assign (record_at (k_recordKey k self id (Some scope)) w1)
                      (k_stored k self id (Some scope) data))
    ∧ (∀ f v, k_stored k self id (Some scope) data !! f = Some v →
              v ≠ JUndef → rec !! f = Some (json_roundtrip v))
    ∧ (∀ f, k_stored k self id (Some scope) data !! f = None →
            rec !! f
            = json_roundtrip_obj (record_at (k_recordKey k self id (Some scope)) w1) !! f)
    ∧ (∀ i d f v,
         ds !! i = Some d →
         k_stored k self id (Some scope) d !! f = Some v → v ≠ JUndef →
         (∀ j d', i < j → ds !! j = Some d' →
                  k_stored k self id (Some scope) d' !! f = None) →
         k_stored k self id (Some scope) data !! f = None →
         rec !! f = Some (json_roundtrip v))
    ∧ (∀ f, (∀ d, d ∈ ds → k_stored k self id (Some scope) d !! f = None) →
            k_stored k self id (Some scope) data !! f = None →
            rec !! f
            = json_roundtrip_obj (record_at (k_recordKey k self id (Some scope)) w) !! f).
Proof.
  intros Hu Hds H Hg. apply (k_update_merges _ _ _ _ _ _ _ _ _ Hu) in H.
  apply k_get_inv in Hg as [_ Hg]; [|done].
  rewrite H in Hg. destruct e as [e'|]; [|done].
  destruct Hg as (rec & [= <-] & He). eexists e', _. split; [done|]. split; [exact He|].
  split; [done|]. split; [intros f v Hf Hv; by apply stored_field|].
  split; [intros f Hf; by apply stored_field_old|].
  split.
  - intros i d f v Hi Hf Hv Hl Hn. rewrite stored_field_old by done.
    by eapply k_updates_keep.
  - intros f Hn Hf. rewrite stored_field_old by done. by apply (k_updates_frame _ fuel _ _ _ ds).
Qed.

Lemma C5_update_then_get_witness :
  ∃ e' rec,
    Some (Inst (bound (object [("id", JStr "e1"); ("name", JStr "grin");
                               ("animated", JBool true)]) None None)) = Some e'
    ∧ entity_obj e' = Some rec
    ∧ rec = json_roundtrip_obj
              (assign (record_at (k_recordKey Emoji (root None) "e1" (Some "g1"))
                                 world_with_smile)
                      (k_stored Emoji (root None) "e1" (Some "g1") animated_grin))
    ∧ (∀ f v, k_stored Emoji (root None) "e1" (Some "g1") animated_grin !! f = Some v →
              v ≠ JUndef → rec !! f = Some (json_roundtrip v))
    ∧ (∀ f, k_stored Emoji (root None) "e1" (Some "g1") animated_grin !! f = None →
            rec !! f
            = json_roundtrip_obj (record_at (k_recordKey Emoji (root None) "e1" (Some "g1"))
                                            world_with_smile) !! f)
    ∧ (∀ i d f v,
         [smile] !! i = Some d →
         k_stored Emoji (root None) "e1" (Some "g1") d !! f = Some v → v ≠ JUndef →
         (∀ j d', i < j → [smile] !! j = Some d' →
                  k_stored Emoji (root None) "e1" (Some "g1") d' !! f = None) →
         k_stored Emoji (root None) "e1" (Some "g1") animated_grin !! f = None →
         rec !! f = Some (json_roundtrip v))
    ∧ (∀ f, (∀ d, d ∈ [smile] → k_stored Emoji (root None) "e1" (Some "g1") d !! f = None) →
            k_stored Emoji (root None) "e1" (Some "g1") animated_grin !! f = None →
            rec !! f
            = json_roundtrip_obj (record_at (k_recordKey Emoji (root None) "e1" (Some "g1"))
                                            initial_world) !! f).
Proof.
  apply (C5_update_then_get Emoji 0 (root None) "e1" "g1" [smile] animated_grin
           initial_world world_with_smile (bound animated_grin None None) world_with_grin
           (Some (Inst (bound (object [("id", JStr "e1"); ("name", JStr "grin");
                                       ("animated", JBool true)]) None None)))
           world_with_grin eq_refl).
  - vm_compute. reflexivity.
  - vm_compute. reflexivity.
  - vm_compute. reflexivity.
Defined.

(** C5, as stated, fails for the member cache: the embedded [user] object is
    a field of the data, and the object [get] returns after the update has no
    such field. *)
Lemma C5_counterexample_member_user_is_not_stored :
  MemberCache.update 1 (root (Some "")) "u1" (Some "g1") bob_member initial_world
    = (Ok (bound (object [("nick", JStr "b"); ("guild_id", JStr "g1"); ("id", JStr "u1")])
                 (Some "") None), world_with_bob)
  ∧ MemberCache.get (root (Some "")) "u1" (Some "g1") world_with_bob
    = (Ok (Some (Inst (bound (object [("nick", JStr "b"); ("guild_id", JStr "g1");
                                      ("id", JStr "u1")]) (Some "") None))),
       world_with_bob)
  ∧ bob_member !! "user"
    = Some (JObj (object [("id", JStr "u1"); ("username", JStr "bob")]))
  ∧ object [("nick", JStr "b"); ("guild_id", JStr "g1"); ("id", JStr "u1")] !! "user"
    = None.
Proof. repeat split; vm_compute; reflexivity. Qed.

(** ** The cascade *)

(** C3.  Removing a cached guild through the unbound guild cache completes
    and cascades, whatever the sizes of the three collections.  In the store
    afterwards: the role index and the member index of the guild hold no id,
    no role and no member that these indexes listed has a record, no channel
    that the guild's channel map listed has a record, the channel map record
    is gone, the global guild index has lost exactly this guild id, and the
    guild record is deleted.  Through the caches: [getIndexMembers] of the
    role and of the member cache return the empty list, [get] of each mapped
    channel and of the guild return nothing, and the guild is not indexed. *)
Theorem C3_guild_cascade fuel self id w :
  boundObject self = None →
  guild_cached id w = true →
  ∃ w',
    GuildCache.remove (S fuel) self id w = (Ok tt, w')
    ∧ members_at (BaseCache.buildId RoleCache.namespace id) w' = ∅
    ∧ set_or_none (db w' !! BaseCache.buildId RoleCache.namespace id)
    ∧ (∀ r, r ∈ members_at (BaseCache.buildId RoleCache.namespace id) w →
            db w' !! RoleCache.buildId r (Some id) = None)
    ∧ members_at (BaseCache.buildId MemberCache.namespace id) w' = ∅
    ∧ set_or_none (db w' !! BaseCache.buildId MemberCache.namespace id)
    ∧ (∀ m, m ∈ members_at (BaseCache.buildId MemberCache.namespace id) w →
            db w' !! MemberCache.buildId m (Some id) = None)
    ∧ (∀ c, c ∈ members_at (ChannelMapCache.mapKey id "guild") w →
            db w' !! ChannelCache.buildId c = None)
    ∧ db w' !! ChannelMapCache.mapKey id "guild" = None
    ∧ members_at GuildCache.namespace w' = members_at GuildCache.namespace w ∖ {[id]}
    ∧ set_or_none (db w' !! GuildCache.namespace)
    ∧ db w' !! GuildCache.buildId id = None
    ∧ RoleCache.getIndexMembers (root_role w') (Some id) w' = (Ok [], w')
    ∧ MemberCache.getIndexMembers (root_member w') (Some id) w' = (Ok [], w')
    ∧ (∀ c, c ∈ members_at (ChannelMapCache.mapKey id "guild") w →
            ChannelCache.get (root_channel w') c w' = (Ok None, w'))
    ∧ GuildCache.isIndexed id w' = (Ok false, w')
    ∧ GuildCache.get self id w' = (Ok None, w').
Proof.
  intros Hu Hc. destruct (guild_remove_spec self id w Hc)
    as (w' & H & _ & _ & Hsc & Hch & Hmap & Hrec & Hgs & Hg & _).
  destruct (Hsc RoleCache.namespace) as (Hr & Hrs & Hrr); [set_solver|].
  destruct (Hsc MemberCache.namespace) as (Hm & Hms & Hmr); [set_solver|].
  exists w'. split; [simpl; by rewrite Hu|].
  split; [done|]. split; [done|]. split; [exact Hrr|].
  split; [done|]. split; [done|]. split; [exact Hmr|].
  split; [done|]. split; [done|]. split; [done|]. split; [done|]. split; [done|].
  split.
  { unfold RoleCache.getIndexMembers, BaseCache.getIndexMembers, BaseCache.indexKey, dflt.
    simpl tpl. rewrite getListMembers_spec by done. by rewrite Hr, elements_empty. }
  split.
  { unfold MemberCache.getIndexMembers, BaseCache.getIndexMembers, BaseCache.indexKey, dflt.
    simpl tpl. rewrite getListMembers_spec by done. by rewrite Hm, elements_empty. }
  split.
  { intros c Hcm. unfold ChannelCache.get. simpl.
    unfold Storage.get, Redis.GET, bind. by rewrite (Hch c Hcm). }
  split.
  { unfold GuildCache.isIndexed. rewrite isListMember_spec by done.
    rewrite Hg. f_equal. f_equal. apply bool_decide_eq_false. set_solver. }
  unfold GuildCache.get. rewrite Hu. unfold Storage.get, Redis.GET, bind. by rewrite Hrec.
Qed.

Lemma C3_guild_cascade_witness :
  members_at (BaseCache.buildId RoleCache.namespace "7") world_with_guild = {["r1"; "r2"]}
  ∧ members_at (BaseCache.buildId MemberCache.namespace "7") world_with_guild = {["u1"]}
  ∧ members_at (ChannelMapCache.mapKey "7" "guild") world_with_guild = {["c1"; "c2"]}
  ∧ ∃ w',
    GuildCache.remove 1 (root None) "7" world_with_guild = (Ok tt, w')
    ∧ members_at (BaseCache.buildId RoleCache.namespace "7") w' = ∅
    ∧ set_or_none (db w' !! BaseCache.buildId RoleCache.namespace "7")
    ∧ (∀ r, r ∈ members_at (BaseCache.buildId RoleCache.namespace "7") world_with_guild →
            db w' !! RoleCache.buildId r (Some "7") = None)
    ∧ members_at (BaseCache.buildId MemberCache.namespace "7") w' = ∅
    ∧ set_or_none (db w' !! BaseCache.buildId MemberCache.namespace "7")
    ∧ (∀ m, m ∈ members_at (BaseCache.buildId MemberCache.namespace "7") world_with_guild →
            db w' !! MemberCache.buildId m (Some "7") = None)
    ∧ (∀ c, c ∈ members_at (ChannelMapCache.mapKey "7" "guild") world_with_guild →
            db w' !! ChannelCache.buildId c = None)
    ∧ db w' !! ChannelMapCache.mapKey "7" "guild" = None
    ∧ members_at GuildCache.namespace w'
      = members_at GuildCache.namespace world_with_guild ∖ {["7"]}
    ∧ set_or_none (db w' !! GuildCache.namespace)
    ∧ db w' !! GuildCache.buildId "7" = None
    ∧ RoleCache.getIndexMembers (root_role w') (Some "7") w' = (Ok [], w')
    ∧ MemberCache.getIndexMembers (root_member w') (Some "7") w' = (Ok [], w')
    ∧ (∀ c, c ∈ members_at (ChannelMapCache.mapKey "7" "guild") world_with_guild →
            ChannelCache.get (root_channel w') c w' = (Ok None, w'))
    ∧ GuildCache.isIndexed "7" w' = (Ok false, w')
    ∧ GuildCache.get (root None) "7" w' = (Ok None, w').
Proof.
  split; [apply (bool_decide_unpack _); vm_compute; exact I|].
  split; [apply (bool_decide_unpack _); vm_compute; exact I|].
  split; [apply (bool_decide_unpack _); vm_compute; exact I|].
  apply (C3_guild_cascade 0 (root None) "7" world_with_guild).
  - reflexivity.
  - vm_compute. reflexivity.
Defined.
